(** * Flare-survey pipeline: spatial join and normalized regression

    A shallow embedding of [main.go]: the country filter, the great-circle
    distance, the nearest-neighbour join with its 3 km threshold, the
    extraction of regression samples, min-max normalization and the
    regression report.

    Go's [float64] is kept abstract behind the interface [Float64], so that
    every function below is written once, in the shape of the Go source, and
    can be run under three readings of the numbers:
    - [binary64]: IEEE 754 double precision (primitive floats), bit for bit,
      with its NaN, infinities, overflow and rounding;
    - [exactQ]: exact rational arithmetic, for the closed-form algebra of the
      regression;
    - [exactR]: the real numbers, where [math.Sin], [math.Cos], [math.Atan2]
      and [math.Sqrt] are the functions they approximate.
    The two exact readings follow the program where it neither rounds,
    overflows nor divides by zero (they give [x / 0] a value of their own);
    what happens at those points is read in [binary64].

    Run-time panics ([index out of range], [slice bounds out of range]),
    [log.Fatalf] and the lines printed on standard output are explicit. *)

From Stdlib Require Import List String Ascii Bool ZArith QArith Lia.
From Stdlib Require Import Floats.
From Stdlib Require Import Reals Lra.
Import ListNotations.

Set Implicit Arguments.

(* ------------------------------------------------------------------ *)
(** ** Results of fallible Go code *)

(** A call either returns, ends the process through [log.Fatalf], or raises
    a run-time panic. *)
Inductive outcome (A : Type) : Type :=
| Ok (a : A)
| Fatal (msg : string)
| Panic (msg : string).

Arguments Ok {A} a.
Arguments Fatal {A} msg.
Arguments Panic {A} msg.

Definition bind {A B : Type} (m : outcome A) (k : A -> outcome B) : outcome B :=
  match m with
  | Ok a => k a
  | Fatal msg => Fatal msg
  | Panic msg => Panic msg
  end.

Declare Scope go_scope.
Delimit Scope go_scope with go.
Notation "x <- m ;; k" := (bind m (fun x => k))
  (at level 61, m at next level, right associativity) : go_scope.
Notation "' pat <- m ;; k" := (bind m (fun x => match x with pat => k end))
  (at level 61, pat pattern, m at next level, right associativity) : go_scope.

Definition index_out_of_range : string := "index out of range".
Definition slice_out_of_range : string := "slice bounds out of range".

(** [s[i]] on a slice: a panic outside [0 <= i < len(s)]. *)
Definition index {A : Type} (s : list A) (i : Z) : outcome A :=
  if (i <? 0)%Z then Panic index_out_of_range
  else match nth_error s (Z.to_nat i) with
       | Some a => Ok a
       | None => Panic index_out_of_range
       end.

(** [s[1:]]: a panic on the empty slice. *)
Definition slice_from_1 {A : Type} (s : list A) : outcome (list A) :=
  match s with
  | [] => Panic slice_out_of_range
  | _ :: t => Ok t
  end.

(** [len(s)] as a Go [int]. *)
Definition len {A : Type} (s : list A) : Z := Z.of_nat (List.length s).

(* ------------------------------------------------------------------ *)
(** ** The numbers *)

(** [float64] with the operators the program applies to it.  [fconst] is the
    conversion of an integer constant or of a [len] to [float64]. *)
Class Float64 (F : Type) : Type := {
  fadd : F -> F -> F;
  fsub : F -> F -> F;
  fmul : F -> F -> F;
  fdiv : F -> F -> F;
  flt : F -> F -> bool;
  feq : F -> F -> bool;
  fconst : Z -> F
}.

Declare Scope f64_scope.
Delimit Scope f64_scope with f64.
Infix "+" := fadd : f64_scope.
Infix "-" := fsub : f64_scope.
Infix "*" := fmul : f64_scope.
Infix "/" := fdiv : f64_scope.
Infix "<?" := flt : f64_scope.
Infix "=?" := feq : f64_scope.
Notation "x >? y" := (flt y x) (only parsing) : f64_scope.

(** The functions of package [math] that [haversine] calls, and the constant
    expression [math.Pi / 180.0], which the Go compiler folds before any
    rounding. *)
Class Libm (F : Type) : Type := {
  Sqrt : F -> F;
  Sin : F -> F;
  Cos : F -> F;
  Atan2 : F -> F -> F;
  Pi_over_180 : F
}.

(** The functions of packages [strconv] and [strings] that the program
    calls.  [ParseFloat s] is [None] where [strconv.ParseFloat(s, 64)]
    returns an error. *)
Class GoText (F : Type) : Type := {
  ParseFloat : string -> option F;
  TrimSpace : string -> string;
  EqualFold : string -> string -> bool
}.

(** What the proofs about the join use of [<] and [==]: all hold of IEEE
    comparison, where [a == a] says that [a] is not NaN, and of any ordered
    field. *)
Class Float64Order (F : Type) `{Float64 F} : Prop := {
  flt_irrefl : forall a : F, (a <? a)%f64 = false;
  flt_trans : forall a b c : F,
    (a <? b)%f64 = true -> (b <? c)%f64 = true -> (a <? c)%f64 = true;
  feq_flt_trans : forall a b c : F,
    (a =? b)%f64 = true -> (b <? c)%f64 = true -> (a <? c)%f64 = true;
  flt_ordered : forall a b : F,
    (a <? b)%f64 = true -> (a =? a)%f64 = true;
  feq_total : forall a b : F,
    (a =? a)%f64 = true -> (b =? b)%f64 = true ->
    (a <? b)%f64 = false -> (b <? a)%f64 = false -> (a =? b)%f64 = true
}.

Arguments Float64Order F {_}.

Definition row : Type := list string.
Definition table : Type := list row.

(* ------------------------------------------------------------------ *)
(** ** Printed output *)

(** One line of the report on standard output; the numbers are kept as
    values, before their [%.4f] and [%d] formatting. *)
Inductive line (F : Type) : Type :=
| CsvHeaders (h : row)
| ExcelHeaders (h : row)
| FilteredCsv (n : Z)
| FilteredExcel (n : Z)
| JoinedRecords (n : Z)
| SampleTitle
| Sample (i : Z) (y x : F)
| Model (alpha beta : F)
| RSquared (r : F).

Arguments CsvHeaders {F} h.
Arguments ExcelHeaders {F} h.
Arguments FilteredCsv {F} n.
Arguments FilteredExcel {F} n.
Arguments JoinedRecords {F} n.
Arguments SampleTitle {F}.

(** A printing computation: the lines printed so far and how it went on. *)
Definition prog (F A : Type) : Type := (list (line F) * outcome A)%type.

Definition pbind {F A B : Type} (m : prog F A) (k : A -> prog F B) : prog F B :=
  match m with
  | (out, Ok a) => let '(out', r) := k a in (out ++ out', r)
  | (out, Fatal msg) => (out, Fatal msg)
  | (out, Panic msg) => (out, Panic msg)
  end.

Definition lift {F A : Type} (m : outcome A) : prog F A := ([], m).
Definition say {F : Type} (l : line F) : prog F unit := ([l], Ok tt).
Definition printed {F A : Type} (m : prog F A) : list (line F) := fst m.
Definition result {F A : Type} (m : prog F A) : outcome A := snd m.

Declare Scope prog_scope.
Delimit Scope prog_scope with prog.
Notation "x <- m ;; k" := (pbind m (fun x => k))
  (at level 61, m at next level, right associativity) : prog_scope.
Notation "' pat <- m ;; k" := (pbind m (fun x => match x with pat => k end))
  (at level 61, pat pattern, m at next level, right associativity) : prog_scope.
Notation "m ;; k" := (pbind m (fun _ => k))
  (at level 61, right associativity) : prog_scope.

(* ------------------------------------------------------------------ *)
(** ** The program *)

Section Program.

Context {F : Type} `{Float64 F} `{Libm F} `{GoText F}.

Local Open Scope go_scope.
Local Open Scope f64_scope.

(** The condition of [filterAlgeria]:
    [len(row) > countryCol && strings.EqualFold(row[countryCol], "Algeria")]. *)
Definition isAlgeria (countryCol : Z) (r : row) : outcome bool :=
  if (len r >? countryCol)%Z
  then c <- index r countryCol ;; Ok (EqualFold c "Algeria")
  else Ok false.

(** The loop of [filterAlgeria], from the slice built so far. *)
Fixpoint filterLoop (countryCol : Z) (data : table) (result : table)
    : outcome table :=
  match data with
  | [] => Ok result
  | r :: rest =>
      keep <- isAlgeria countryCol r ;;
      if keep then filterLoop countryCol rest (result ++ [r])
      else filterLoop countryCol rest result
  end.

(** [filterAlgeria]. *)
Definition filterAlgeria (data : table) (countryCol : Z) : outcome table :=
  filterLoop countryCol data [].

(** [haversine]: great-circle distance in km. *)
Definition haversine (lat1 lon1 lat2 lon2 : F) : F :=
  let R := fconst 6371 in
  let dLat := (lat2 - lat1) * Pi_over_180 in
  let dLon := (lon2 - lon1) * Pi_over_180 in
  let a := Sin (dLat / fconst 2) * Sin (dLat / fconst 2)
           + Cos (lat1 * Pi_over_180) * Cos (lat2 * Pi_over_180)
             * Sin (dLon / fconst 2) * Sin (dLon / fconst 2) in
  let c := fconst 2 * Atan2 (Sqrt a) (Sqrt (fconst 1 - a)) in
  R * c.

(** [parseFloat]: lenient parse, 0.0 on error. *)
Definition parseFloat (s : string) : F :=
  match ParseFloat (TrimSpace s) with
  | Some val => val
  | None => fconst 0
  end.

(** The coordinates of a row: [parseFloat(r[latCol]), parseFloat(r[lonCol])]. *)
Definition coords (r : row) (latCol lonCol : Z) : outcome (F * F) :=
  a <- index r latCol ;;
  b <- index r lonCol ;;
  Ok (parseFloat a, parseFloat b).

(** The inner loop of [joinDatasets] over [excelData[1:]], from the state
    [(closestDist, bestMatch)]; [bestMatch] is [None] while it is [nil]. *)
Fixpoint scanExcel (csvLat csvLon : F) (excelLatCol excelLonCol : Z)
    (rows : list row) (closestDist : F) (bestMatch : option row)
    : outcome (F * option row) :=
  match rows with
  | [] => Ok (closestDist, bestMatch)
  | excelRow :: rest =>
      '(excelLat, excelLon) <- coords excelRow excelLatCol excelLonCol ;;
      let distance := haversine csvLat csvLon excelLat excelLon in
      if distance <? closestDist
      then scanExcel csvLat csvLon excelLatCol excelLonCol rest distance (Some excelRow)
      else scanExcel csvLat csvLon excelLatCol excelLonCol rest closestDist bestMatch
  end.

(** The body of the outer loop up to the test [bestMatch != nil]. *)
Definition bestMatchFor (excelData : table)
    (csvLatCol csvLonCol excelLatCol excelLonCol : Z) (csvRow : row)
    : outcome (option row) :=
  '(csvLat, csvLon) <- coords csvRow csvLatCol csvLonCol ;;
  let closestDist := fconst 3 in
  excelRows <- slice_from_1 excelData ;;
  '(_, bestMatch) <- scanExcel csvLat csvLon excelLatCol excelLonCol
                       excelRows closestDist None ;;
  Ok bestMatch.

(** The outer loop over [csvData[1:]], from the slices built so far. *)
Fixpoint joinLoop (excelData : table)
    (csvLatCol csvLonCol excelLatCol excelLonCol : Z)
    (rows : list row) (joined dangling : list row)
    : outcome (list row * list row) :=
  match rows with
  | [] => Ok (joined, dangling)
  | csvRow :: rest =>
      bestMatch <- bestMatchFor excelData csvLatCol csvLonCol
                     excelLatCol excelLonCol csvRow ;;
      match bestMatch with
      | Some m =>
          let joinedRow := csvRow ++ m in
          joinLoop excelData csvLatCol csvLonCol excelLatCol excelLonCol
            rest (joined ++ [joinedRow]) dangling
      | None =>
          joinLoop excelData csvLatCol csvLonCol excelLatCol excelLonCol
            rest joined (dangling ++ [csvRow])
      end
  end.

(** [joinDatasets]. *)
Definition joinDatasets (csvData excelData : table)
    (csvLatCol csvLonCol excelLatCol excelLonCol : Z)
    : outcome (list row * list row) :=
  rows <- slice_from_1 csvData ;;
  joinLoop excelData csvLatCol csvLonCol excelLatCol excelLonCol rows [] [].

(** [extractRegressionData]: the predictors of one row, from the slice built
    so far. *)
Fixpoint predictorLoop (r : row) (independentIndexes : list Z) (x : list F)
    : outcome (list F) :=
  match independentIndexes with
  | [] => Ok x
  | idx :: rest =>
      if (len r >? idx)%Z
      then c <- index r idx ;; predictorLoop r rest (x ++ [parseFloat c])
      else predictorLoop r rest x
  end.

Fixpoint extractLoop (joinedData : table) (flaringVolIndex : Z)
    (independentIndexes : list Z) (target : list F) (predictors : list (list F))
    : outcome (list F * list (list F)) :=
  match joinedData with
  | [] => Ok (target, predictors)
  | r :: rest =>
      if (len r >? flaringVolIndex)%Z
      then
        c <- index r flaringVolIndex ;;
        let y := parseFloat c in
        x <- predictorLoop r independentIndexes [] ;;
        extractLoop rest flaringVolIndex independentIndexes
          (target ++ [y]) (predictors ++ [x])
      else extractLoop rest flaringVolIndex independentIndexes target predictors
  end.

Definition extractRegressionData (joinedData : table) (flaringVolIndex : Z)
    (independentIndexes : list Z) : outcome (list F * list (list F)) :=
  extractLoop joinedData flaringVolIndex independentIndexes [] [].

(** [normalize]: the first loop, from the state [(minVal, maxVal)]. *)
Fixpoint minMaxLoop (data : list F) (minVal maxVal : F) : F * F :=
  match data with
  | [] => (minVal, maxVal)
  | val :: rest =>
      let minVal := if val <? minVal then val else minVal in
      let maxVal := if val >? maxVal then val else maxVal in
      minMaxLoop rest minVal maxVal
  end.

(** [normalize]: min-max scaling; [data[0]] panics on the empty slice. *)
Definition normalize (data : list F) : outcome (list F) :=
  d0 <- index data 0 ;;
  let '(minVal, maxVal) := minMaxLoop data d0 d0 in
  Ok (map (fun val => (val - minVal) / (maxVal - minVal)) data).

(** *** Package [gonum.org/v1/gonum/stat]

    A dependency of the program, outside its source tree, written here from
    the package's documented algorithms for [weights == nil] and
    [origin == false].  [LinearRegression(x, y, nil, false)] returns the
    [alpha] and [beta] of the best-fit line [y = alpha + beta*x]: its FIRST
    argument is the independent variable. *)

Definition floats_Sum (s : list F) : F := fold_left fadd s (fconst 0).

Definition Mean (x : list F) : F := floats_Sum x / fconst (len x).

(** Corrected two-pass variance (Chan, Golub, LeVeque), unbiased. *)
Definition MeanVariance (x : list F) : F * F :=
  let mean := Mean x in
  let '(ss, compensation) :=
    fold_left (fun '(ss, compensation) v =>
                 let d := v - mean in (ss + d * d, compensation + d))
              x (fconst 0, fconst 0) in
  let unnormalisedVariance := ss - compensation * compensation / fconst (len x) in
  (mean, unnormalisedVariance / (fconst (len x) - fconst 1)).

Definition covarianceMeans (x y : list F) (xu yu : F) : F :=
  let '(ss, xcompensation, ycompensation) :=
    fold_left (fun '(ss, xc, yc) '(xv, yv) =>
                 let xd := xv - xu in
                 let yd := yv - yu in
                 (ss + xd * yd, xc + xd, yc + yd))
              (combine x y) (fconst 0, fconst 0, fconst 0) in
  (ss - xcompensation * ycompensation / fconst (len x)) / fconst (len x - 1).

Definition LinearRegression (x y : list F) : outcome (F * F) :=
  if negb (len x =? len y)%Z then Panic "stat: slice length mismatch"
  else
    let '(xu, xv) := MeanVariance x in
    let yu := Mean y in
    let cov := covarianceMeans x y xu yu in
    let beta := cov / xv in
    let alpha := yu - beta * xu in
    Ok (alpha, beta).

(** *** [runRegression] *)

(** [for _, row := range x { xFlat = append(xFlat, row[0]) }]. *)
Fixpoint flattenLoop (x : list (list F)) (xFlat : list F) : outcome (list F) :=
  match x with
  | [] => Ok xFlat
  | r :: rest => r0 <- index r 0 ;; flattenLoop rest (xFlat ++ [r0])
  end.

Local Open Scope prog_scope.

(** [for i := 0; i < len(y) && i < 10; i++ { fmt.Printf(... y[i] ... xFlat[i]) }],
    over the values [i] takes. *)
Fixpoint previewLoop (y xFlat : list F) (ixs : list nat) : prog F unit :=
  match ixs with
  | [] => lift (Ok tt)
  | i :: rest =>
      yi <- lift (index y (Z.of_nat i)) ;;
      xi <- lift (index xFlat (Z.of_nat i)) ;;
      say (Sample (Z.of_nat i) yi xi) ;;
      previewLoop y xFlat rest
  end.

Local Close Scope prog_scope.

(** [for i := range y { ... }], from the state [(ssTotal, ssResidual)]. *)
Fixpoint rSquaredLoop (y xFlat : list F) (alpha beta yMean : F)
    (ixs : list nat) (ssTotal ssResidual : F) : outcome (F * F) :=
  match ixs with
  | [] => Ok (ssTotal, ssResidual)
  | i :: rest =>
      xi <- index xFlat (Z.of_nat i) ;;
      let predicted := alpha + beta * xi in
      yi <- index y (Z.of_nat i) ;;
      rSquaredLoop y xFlat alpha beta yMean rest
        (ssTotal + (yi - yMean) * (yi - yMean))
        (ssResidual + (yi - predicted) * (yi - predicted))
  end.

(** The guard [len(x) == 0 || len(y) == 0 || len(x[0]) == 0], left to right. *)
Definition insufficient (y : list F) (x : list (list F)) : outcome bool :=
  if (len x =? 0)%Z then Ok true
  else if (len y =? 0)%Z then Ok true
  else x0 <- index x 0 ;; Ok (len x0 =? 0)%Z.

Definition insufficient_data : string :=
  "Error: Insufficient data for regression analysis".

Local Open Scope prog_scope.

Definition runRegression (y : list F) (x : list (list F)) : prog F unit :=
  bad <- lift (insufficient y x) ;;
  if bad then lift (Fatal insufficient_data)
  else
    xFlat <- lift (flattenLoop x []) ;;
    xFlat <- lift (normalize xFlat) ;;
    say SampleTitle ;;
    previewLoop y xFlat (seq 0 (Nat.min (List.length y) 10)) ;;
    '(alpha, beta) <- lift (LinearRegression y xFlat) ;;
    say (Model alpha beta) ;;
    let yMean := Mean y in
    '(ssTotal, ssResidual) <-
      lift (rSquaredLoop y xFlat alpha beta yMean (seq 0 (List.length y))
              (fconst 0) (fconst 0)) ;;
    let rSquared := (fconst 1 - ssResidual / ssTotal)%f64 in
    say (RSquared rSquared).

(** [main], from the two tables that [loadCSV] and [loadExcel] return. *)
Definition main (csvData excelData : table) : prog F unit :=
  csvHeader <- lift (index csvData 0) ;;
  say (CsvHeaders csvHeader) ;;
  excelHeader <- lift (index excelData 0) ;;
  say (ExcelHeaders excelHeader) ;;
  let '(csvCountryIndex, csvLatIndex, csvLonIndex) := (0, 4, 5)%Z in
  let '(excelCountryIndex, excelLatIndex, excelLonIndex, flaringVolIndex) :=
    (0, 1, 2, 10)%Z in
  let independentIndexes := [6; 7; 8]%Z in
  algeriaCSV <- lift (filterAlgeria csvData csvCountryIndex) ;;
  algeriaExcel <- lift (filterAlgeria excelData excelCountryIndex) ;;
  say (FilteredCsv (len algeriaCSV - 1)) ;;
  say (FilteredExcel (len algeriaExcel - 1)) ;;
  '(joinedData, _) <- lift (joinDatasets algeriaCSV algeriaExcel
                             csvLatIndex csvLonIndex excelLatIndex excelLonIndex) ;;
  say (JoinedRecords (len joinedData)) ;;
  '(y, x) <- lift (extractRegressionData joinedData flaringVolIndex
                     independentIndexes) ;;
  runRegression y x.

Local Close Scope prog_scope.

End Program.

(* ------------------------------------------------------------------ *)
(** ** Three readings of [float64] *)

(** *** IEEE 754 binary64 *)

(** Conversion of an integer to the nearest double. *)
Definition float_of_Z (z : Z) : float :=
  SF2Prim (binary_normalize prec emax z 0 false).

#[export] Instance binary64 : Float64 float := {|
  fadd := PrimFloat.add;
  fsub := PrimFloat.sub;
  fmul := PrimFloat.mul;
  fdiv := PrimFloat.div;
  flt := PrimFloat.ltb;
  feq := PrimFloat.eqb;
  fconst := float_of_Z
|}.

(** *** Exact rationals *)

(** Every result is kept in lowest terms, so that equal numbers are equal
    terms. *)
#[export] Instance exactQ : Float64 Q := {|
  fadd := fun a b => Qred (a + b);
  fsub := fun a b => Qred (a - b);
  fmul := fun a b => Qred (a * b);
  fdiv := fun a b => Qred (a / b);
  flt := fun a b => negb (Qle_bool b a);
  feq := Qeq_bool;
  fconst := inject_Z
|}.

(** *** Real numbers *)

Definition Rltb (a b : R) : bool := if Rlt_dec a b then true else false.
Definition Reqb (a b : R) : bool := if Req_dec_T a b then true else false.

#[export] Instance exactR : Float64 R := {|
  fadd := Rplus;
  fsub := Rminus;
  fmul := Rmult;
  fdiv := Rdiv;
  flt := Rltb;
  feq := Reqb;
  fconst := IZR
|}.

(** [math.Atan2(y, x)]: the angle of the point [(x, y)], in [(-PI, PI]]. *)
Definition Ratan2 (y x : R) : R :=
  if Rlt_dec 0 x then atan (y / x)
  else if Rlt_dec x 0 then
    if Rlt_dec y 0 then (atan (y / x) - PI)%R else (atan (y / x) + PI)%R
  else if Rlt_dec 0 y then (PI / 2)%R
  else if Rlt_dec y 0 then (- (PI / 2))%R
  else 0%R.

#[export] Instance realLibm : Libm R := {|
  Sqrt := sqrt;
  Sin := sin;
  Cos := cos;
  Atan2 := Ratan2;
  Pi_over_180 := (PI / 180)%R
|}.

(** *** Text functions on ASCII input

    [strings.TrimSpace] and [strings.EqualFold] restricted to ASCII, and
    [strconv.ParseFloat] restricted to unsigned decimal integers (every
    other string is an error here).  They serve to run the program on
    concrete tables. *)

Definition isSpace (c : ascii) : bool :=
  let n := nat_of_ascii c in
  ((9 <=? n) && (n <=? 13))%nat || (n =? 32)%nat.

Fixpoint trimLeft (s : string) : string :=
  match s with
  | String c s' => if isSpace c then trimLeft s' else s
  | EmptyString => EmptyString
  end.

Fixpoint trimRight (s : string) : string :=
  match s with
  | String c s' =>
      match trimRight s' with
      | EmptyString => if isSpace c then EmptyString else String c EmptyString
      | t => String c t
      end
  | EmptyString => EmptyString
  end.

Definition asciiTrimSpace (s : string) : string := trimRight (trimLeft s).

Definition lower (c : ascii) : ascii :=
  let n := nat_of_ascii c in
  if ((65 <=? n) && (n <=? 90))%nat then ascii_of_nat (n + 32) else c.

Fixpoint asciiEqualFold (s t : string) : bool :=
  match s, t with
  | EmptyString, EmptyString => true
  | String a s', String b t' => Ascii.eqb (lower a) (lower b) && asciiEqualFold s' t'
  | _, _ => false
  end.

Definition digit (c : ascii) : option Z :=
  let n := nat_of_ascii c in
  if ((48 <=? n) && (n <=? 57))%nat then Some (Z.of_nat (n - 48)) else None.

Fixpoint parseDigits (s : string) (acc : Z) : option Z :=
  match s with
  | EmptyString => Some acc
  | String c s' =>
      match digit c with
      | Some d => parseDigits s' (10 * acc + d)
      | None => None
      end
  end.

Definition parseUnsigned {F : Type} `{Float64 F} (s : string) : option F :=
  match s with
  | EmptyString => None
  | _ => option_map fconst (parseDigits s 0)
  end.

#[export] Instance asciiText {F : Type} `{Float64 F} : GoText F := {|
  ParseFloat := parseUnsigned;
  TrimSpace := asciiTrimSpace;
  EqualFold := asciiEqualFold
|}.

(* ------------------------------------------------------------------ *)
(** ** Vocabulary of the properties *)

Section JoinVocabulary.

Context {F : Type} `{Float64 F} `{Libm F} `{GoText F}.

Local Open Scope go_scope.
Local Open Scope f64_scope.

Variable excelData : table.
Variables csvLatCol csvLonCol excelLatCol excelLonCol : Z.

(** The distance that [joinDatasets] computes between a left and a right
    row. *)
Definition distanceBetween (l r : row) : outcome F :=
  '(csvLat, csvLon) <- coords l csvLatCol csvLonCol ;;
  '(excelLat, excelLon) <- coords r excelLatCol excelLonCol ;;
  Ok (haversine csvLat csvLon excelLat excelLon).

(** [r] is a right data row under 3 km from [l], and no right data row is
    strictly closer to [l]. *)
Definition nearestWithin (l r : row) : Prop :=
  In r (tl excelData) /\
  exists dl, distanceBetween l r = Ok dl /\
    (dl <? fconst 3) = true /\
    forall r', In r' (tl excelData) ->
      exists d', distanceBetween l r' = Ok d' /\ (d' <? dl) = false.

(** [r] is the right data row of index [i], and no right data row of a
    smaller index is at a distance equal to that of [r]. *)
Definition firstAtItsDistance (l r : row) : Prop :=
  exists i dl, nth_error (tl excelData) i = Some r /\
    distanceBetween l r = Ok dl /\
    forall j r', (j < i)%nat -> nth_error (tl excelData) j = Some r' ->
      exists d', distanceBetween l r' = Ok d' /\ (d' =? dl) = false.


(** No right data row is under 3 km from [l]. *)
Definition nothingWithin (l : row) : Prop :=
  forall r', In r' (tl excelData) ->
    exists d', distanceBetween l r' = Ok d' /\ (d' <? fconst 3) = false.

End JoinVocabulary.

(** [joinSplit P Q lefts matched dangling]: going through [lefts] in order,
    each row [l] went to exactly one side, either to [matched] as [l ++ r]
    for a right row [r] with [P l r], or to [dangling] as it is, with
    [Q l]. *)
Inductive joinSplit (P : row -> row -> Prop) (Q : row -> Prop)
  : list row -> list row -> list row -> Prop :=
| split_done : joinSplit P Q [] [] []
| split_matched (l r : row) (ls m d : list row) :
    P l r -> joinSplit P Q ls m d -> joinSplit P Q (l :: ls) ((l ++ r) :: m) d
| split_dangling (l : row) (ls m d : list row) :
    Q l -> joinSplit P Q ls m d -> joinSplit P Q (l :: ls) m (l :: d).

(** Every left data row can be read at the two coordinate columns. *)
Definition hasCoords (latCol lonCol : Z) (r : row) : Prop :=
  (0 <= latCol < len r)%Z /\ (0 <= lonCol < len r)%Z.

(** *** binary64 *)

(** Finite doubles are the zeros and the (sub)normal numbers. *)
Inductive finite_spec : spec_float -> Prop :=
| fin_zero s : finite_spec (S754_zero s)
| fin_num s m e : finite_spec (S754_finite s m e).

(** Positive finite doubles. *)
Definition positive_finite (d : float) : bool :=
  (0 <? d)%float && is_finite d.

(** *** binary64 by value

    A finite double is an integer number of units of 2^-1074; rounding to
    nearest, ties to even, is a function on these integers. *)

Local Open Scope Z_scope.

(** Value of a finite double in units of 2^-1074. *)
Definition scaled (x : spec_float) : Z :=
  match x with
  | S754_finite s m e => cond_Zopp s (Zpos m * 2 ^ (e + 1074))
  | _ => 0
  end.

Definition valZ (x : float) : Z := scaled (Prim2SF x).


(** [N] counts units of 2^-1074: the doubles are the [N] of at most 53 bits
    and their multiples by powers of two. *)
Definition dropped (N : Z) : Z := Z.max (Zdigits2 N - 53) 0.

Definition RN (N : Z) : Z :=
  let k := dropped N in
  round_nearest_even (N / 2 ^ k) (new_location_even (2 ^ k) (N mod 2 ^ k))
  * 2 ^ k.

Local Close Scope Z_scope.

(** *** Tables to run the pipeline on

    Left rows carry their latitude and longitude in columns 4 and 5, right
    rows in columns 1 and 2, as [main] expects.  All points lie on the
    equator: the first left row is at the same place as two right rows and
    one degree from a third, the second left row is a degree or more from
    every right row. *)

Definition demoCsvHeader : row :=
  ["Country"; "id"; "name"; "kind"; "lat"; "lon"]%string.
Definition demoExcelHeader : row :=
  ["Country"; "Latitude"; "Longitude"; "Field"]%string.

Definition demoNear : row := ["Algeria"; "1"; "a"; "flare"; "0"; "0"]%string.
Definition demoAway : row := ["Algeria"; "2"; "b"; "flare"; "0"; "2"]%string.
Definition demoSkipped : row := ["algeria"; "0"; "z"; "flare"; "0"; "0"]%string.

Definition demoFar : row := ["Algeria"; "0"; "1"; "far"]%string.
Definition demoFirst : row := ["Algeria"; "0"; "0"; "first"]%string.
Definition demoSecond : row := ["ALGERIA"; "0"; "0"; "second"]%string.
Definition demoSkippedRight : row := ["Algeria"; "0"; "0"; "zeroth"]%string.

Definition demoCsv : table := [demoCsvHeader; demoNear; demoAway].
Definition demoExcel : table := [demoExcelHeader; demoFar; demoFirst; demoSecond].

(** The same with one more Algerian row at the head of each table, and a
    row of another country. *)
Definition rawCsv : table :=
  [demoCsvHeader; demoSkipped;
   ["Angola"; "9"; "n"; "flare"; "0"; "0"]%string; demoNear; demoAway].
Definition rawExcel : table :=
  [demoExcelHeader; demoSkippedRight; demoFar; demoFirst; demoSecond].

(** *** Regression inputs *)

(** The noiseless line of the round-trip property: [x] in [{0,...,9}],
    [y = 2 + 3 * x_norm] with [x_norm = x / 9]. *)
Definition syntheticX : list Q :=
  map (fun i => inject_Z (Z.of_nat i)) (seq 0 10).
Definition syntheticNormalized : list Q :=
  map (fun v => Qred (v / 9)) syntheticX.
Definition syntheticY : list Q :=
  map (fun v => Qred (2 + 3 * v)) syntheticNormalized.
Definition syntheticSamples : list (list Q) :=
  map (fun v => [v]) syntheticX.

(** The smallest and the largest value as [normalize] finds them. *)
Definition minOf {F : Type} `{Float64 F} (data : list F) : F :=
  fst (minMaxLoop data (hd (fconst 0) data) (hd (fconst 0) data)).
Definition maxOf {F : Type} `{Float64 F} (data : list F) : F :=
  snd (minMaxLoop data (hd (fconst 0) data) (hd (fconst 0) data)).

(** The inputs that pass the guard of [runRegression] and keep every index
    in range: as many targets as samples, at least one, and a first
    predictor in every sample. *)
Definition wellShaped {F : Type} (y : list F) (x : list (list F)) : Prop :=
  y <> [] /\ List.length y = List.length x /\ Forall (fun s => s <> []) x.

(** *** The country filter at column 0 *)

Definition keepsAlgeria {F : Type} `{GoText F} (r : row) : bool :=
  match r with
  | [] => false
  | c :: _ => EqualFold c "Algeria"
  end.

(* ------------------------------------------------------------------ *)
(** ** Vocabulary of the further properties *)

Section MoreVocabulary.

Context {F : Type} `{Float64 F} `{Libm F} `{GoText F}.

(** The country test of [filterAlgeria] at a column that is not negative. *)
Definition keepsAt (countryCol : Z) (r : row) : bool :=
  match nth_error r (Z.to_nat countryCol) with
  | Some c => EqualFold c "Algeria"
  | None => false
  end.

(** The rows that [extractRegressionData] takes a sample from. *)
Definition reaches (flaringVolIndex : Z) (r : row) : bool :=
  (len r >? flaringVolIndex)%Z.

(** The target and the predictors of one such row. *)
Definition targetOf (flaringVolIndex : Z) (r : row) : F :=
  parseFloat (nth (Z.to_nat flaringVolIndex) r EmptyString).

Definition predictorsOf (independentIndexes : list Z) (r : row) : list F :=
  flat_map (fun idx => match nth_error r (Z.to_nat idx) with
                       | Some c => [parseFloat c]
                       | None => []
                       end) independentIndexes.

End MoreVocabulary.

Section ReportVocabulary.

Context {F : Type} `{Float64 F}.

Local Open Scope f64_scope.

(** The first predictor of every sample that has one. *)
Definition firstPredictors (x : list (list F)) : list F := flat_map (firstn 1) x.

(** The first predictors after min-max scaling. *)
Definition scaledPredictors (x : list (list F)) : list F :=
  let xFlat := firstPredictors x in
  map (fun val => (val - minOf xFlat) / (maxOf xFlat - minOf xFlat)) xFlat.

(** The preview lines of the pairs, numbered from [i]. *)
Fixpoint sampleLinesFrom (i : nat) (pairs : list (F * F)) : list (line F) :=
  match pairs with
  | [] => []
  | (yi, xi) :: rest => Sample (Z.of_nat i) yi xi :: sampleLinesFrom (S i) rest
  end.

(** One step of the two sums of squares. *)
Definition squaresStep (alpha beta yMean : F) (st : F * F) (p : F * F) : F * F :=
  let '(ssTotal, ssResidual) := st in
  let '(yi, xi) := p in
  let predicted := alpha + beta * xi in
  (ssTotal + (yi - yMean) * (yi - yMean),
   ssResidual + (yi - predicted) * (yi - predicted)).

(** The total and the residual sum of squares of the line
    [alpha + beta * x] over the pairs of [y] and [xs], summed from the
    left. *)
Definition sumsOfSquares (y xs : list F) (alpha beta : F) : F * F :=
  fold_left (squaresStep alpha beta (Mean y)) (combine y xs)
    (fconst 0, fconst 0).

End ReportVocabulary.

(** [x == x] in Go: the doubles that are not NaN. *)
Definition notNaN (v : float) : bool := negb (is_nan v).

(** *** Joined rows to run the extraction on

    Twelve cells, eleven cells and eight cells: the first two reach the
    target column 10 of [main], the last one does not. *)
Definition joinedWide : row :=
  ["Algeria"; "1"; "a"; "flare"; "0"; "0"; "60"; "70"; "80"; "x"; "100"; "y"]%string.
Definition joinedExact : row :=
  ["Algeria"; "2"; "b"; "flare"; "0"; "2"; "61"; "71"; "81"; "x"; "101"]%string.
Definition joinedShort : row :=
  ["Algeria"; "3"; "c"; "flare"; "0"; "4"; "62"; "72"]%string.
Definition demoJoined : table := [joinedWide; joinedShort; joinedExact].


(* ------------------------------------------------------------------ *)
(** ** Facts about binary64 *)

Ltac sf_cmp :=
  repeat match goal with
  | |- context [Z.compare ?a ?b] => destruct (Z.compare_spec a b)
  | H : context [Z.compare ?a ?b] |- _ => destruct (Z.compare_spec a b)
  | |- context [Pos.compare_cont Eq ?a ?b] =>
      change (Pos.compare_cont Eq a b) with (Pos.compare a b);
      destruct (Pos.compare_spec a b)
  | H : context [Pos.compare_cont Eq ?a ?b] |- _ =>
      change (Pos.compare_cont Eq a b) with (Pos.compare a b) in H;
      destruct (Pos.compare_spec a b)
  end.

Ltac sf_cases a b c :=
  destruct a as [[|]|[|]| |[|] ? ?], b as [[|]|[|]| |[|] ? ?], c as [[|]|[|]| |[|] ? ?];
  simpl; try discriminate; try reflexivity; intros;
  sf_cmp; simpl in *; try discriminate; try reflexivity; subst; try lia.

Lemma SFltb_trans (a b c : spec_float) :
  SFltb a b = true -> SFltb b c = true -> SFltb a c = true.
Proof. unfold SFltb, SFcompare. sf_cases a b c. Qed.

Lemma SFeqb_ltb_trans (a b c : spec_float) :
  SFeqb a b = true -> SFltb b c = true -> SFltb a c = true.
Proof. unfold SFeqb, SFltb, SFcompare. sf_cases a b c. Qed.

Lemma SFltb_ordered (a b : spec_float) :
  SFltb a b = true -> SFeqb a a = true.
Proof.
  unfold SFeqb, SFltb, SFcompare.
  destruct a as [[|]|[|]| |[|] m e], b as [[|]|[|]| |[|] m' e'];
    simpl; try discriminate; try reflexivity; intros _;
    rewrite Z.compare_refl;
    change (Pos.compare_cont Eq m m) with (Pos.compare m m);
    rewrite Pos.compare_refl; reflexivity.
Qed.

Lemma SFeqb_total (a b : spec_float) :
  SFeqb a a = true -> SFeqb b b = true ->
  SFltb a b = false -> SFltb b a = false -> SFeqb a b = true.
Proof.
  unfold SFeqb, SFltb, SFcompare.
  destruct a as [[|]|[|]| |[|] m e], b as [[|]|[|]| |[|] m' e'];
    simpl; try discriminate; try reflexivity; intros _ _;
    destruct (Z.compare_spec e e'), (Z.compare_spec e' e); try lia;
    simpl; try discriminate; try reflexivity;
    change (Pos.compare_cont Eq m m') with (Pos.compare m m');
    change (Pos.compare_cont Eq m' m) with (Pos.compare m' m);
    destruct (Pos.compare_spec m m'), (Pos.compare_spec m' m); try lia;
    simpl; try discriminate; reflexivity.
Qed.

Lemma SFltb_irrefl (a : spec_float) : SFltb a a = false.
Proof.
  unfold SFltb, SFcompare.
  destruct a as [[|]|[|]| |[|] m e]; simpl; try reflexivity;
    rewrite Z.compare_refl;
    change (Pos.compare_cont Eq m m) with (Pos.compare m m);
    rewrite Pos.compare_refl; reflexivity.
Qed.

(** A double is determined by its specification-level value. *)
Lemma by_spec (x : float) (v : spec_float) :
  Prim2SF x = v -> x = SF2Prim v.
Proof. intros <-. symmetry. apply SF2Prim_Prim2SF. Qed.

Lemma is_finite_spec (x : float) :
  is_finite x = true -> finite_spec (Prim2SF x).
Proof.
  unfold is_finite, is_nan, is_infinity.
  rewrite !FloatAxioms.eqb_spec, abs_spec.
  change (Prim2SF infinity) with (S754_infinity false).
  destruct (Prim2SF x) as [s|[|]| |s m e]; simpl; try discriminate;
    constructor.
Qed.

Lemma positive_finite_spec (d : float) :
  positive_finite d = true ->
  exists m e, Prim2SF d = S754_finite false m e.
Proof.
  unfold positive_finite. intros Hd.
  apply andb_prop in Hd. destruct Hd as [Hpos Hfin].
  apply is_finite_spec in Hfin. rewrite ltb_spec in Hpos.
  change (Prim2SF 0) with (S754_zero false) in Hpos.
  destruct Hfin as [s|[|] m e]; simpl in Hpos; try discriminate.
  eauto.
Qed.

Lemma sub_self (x : float) : is_finite x = true -> (x - x)%float = 0%float.
Proof.
  intros Hfin. apply is_finite_spec in Hfin.
  change 0%float with (SF2Prim (S754_zero false)). apply by_spec.
  rewrite sub_spec. unfold SF64sub, SFsub.
  destruct Hfin as [[|]|s m e]; try reflexivity.
  cbv zeta. rewrite Z.sub_diag. reflexivity.
Qed.

Lemma zero_div (d : float) :
  positive_finite d = true -> (0 / d)%float = 0%float.
Proof.
  intros Hd. destruct (positive_finite_spec _ Hd) as (m & e & E).
  change 0%float with (SF2Prim (S754_zero false)) at 2. apply by_spec.
  rewrite div_spec, E. reflexivity.
Qed.

Lemma div_eucl_exact (m : positive) :
  Z.div_eucl (Z.shiftl (Zpos m) 53) (Zpos m) = (9007199254740992, 0)%Z.
Proof.
  rewrite Z.shiftl_mul_pow2 by lia.
  pose proof (Z_div_mod (Z.pos m * 2 ^ 53) (Zpos m) eq_refl) as Hdm.
  destruct (Z.div_eucl (Z.pos m * 2 ^ 53) (Z.pos m)) as [q r].
  destruct Hdm as [Heq Hr].
  assert (q = 2 ^ 53)%Z by nia.
  assert (r = 0)%Z by lia.
  subst q r. reflexivity.
Qed.

Lemma div_self (d : float) :
  positive_finite d = true -> (d / d)%float = 1%float.
Proof.
  intros Hd. destruct (positive_finite_spec _ Hd) as (m & e & E).
  change 1%float with (SF2Prim (S754_finite false 4503599627370496 (-52))).
  apply by_spec. rewrite div_spec, E.
  unfold SF64div, SFdiv, SFdiv_core_binary.
  replace (Zdigits2 (Z.pos m) + e - (Zdigits2 (Z.pos m) + e))%Z with 0%Z by lia.
  rewrite Z.sub_diag.
  change (Z.min (fexp prec emax 0) 0) with (-53)%Z.
  change (0 - -53)%Z with 53%Z. cbv iota.
  rewrite div_eucl_exact.
  replace (new_location (Z.pos m) 0) with loc_Exact.
  2:{ unfold new_location, new_location_even, new_location_odd.
      destruct (Z.even (Z.pos m)); reflexivity. }
  vm_compute. reflexivity.
Qed.

#[export] Instance binary64_order : Float64Order float.
Proof.
  split; cbn [flt feq binary64]; intros *.
  - rewrite ltb_spec. apply SFltb_irrefl.
  - rewrite !ltb_spec. apply SFltb_trans.
  - rewrite FloatAxioms.eqb_spec, !ltb_spec. apply SFeqb_ltb_trans.
  - rewrite FloatAxioms.eqb_spec, ltb_spec. apply SFltb_ordered.
  - rewrite !FloatAxioms.eqb_spec, !ltb_spec. apply SFeqb_total.
Qed.

Lemma Rltb_true (a b : R) : Rltb a b = true <-> (a < b)%R.
Proof. unfold Rltb. destruct (Rlt_dec a b); split; intros; congruence || lra. Qed.

Lemma Rltb_false (a b : R) : Rltb a b = false <-> (b <= a)%R.
Proof. unfold Rltb. destruct (Rlt_dec a b); split; intros; congruence || lra. Qed.

Lemma Reqb_true (a b : R) : Reqb a b = true <-> a = b.
Proof. unfold Reqb. destruct (Req_dec_T a b); split; intros; congruence. Qed.

#[export] Instance exactR_order : Float64Order R.
Proof.
  split; cbn [flt feq exactR]; intros *.
  - apply Rltb_false. lra.
  - rewrite !Rltb_true. lra.
  - rewrite Reqb_true, !Rltb_true. lra.
  - rewrite Reqb_true. reflexivity.
  - rewrite !Reqb_true, !Rltb_false. lra.
Qed.

(** *** Great-circle distance over the reals *)

Local Open Scope R_scope.

Lemma PI_bounds : 3.14 < PI < 3.15.
Proof.
  pose proof (PI_2_3_7_ineq 1) as [Hlo Hhi].
  unfold PI_2_3_7_tg, tg_alt, Ratan_seq in Hlo, Hhi.
  simpl in Hlo, Hhi. split; lra.
Qed.

Lemma haversine_R (lat1 lon1 lat2 lon2 : R) :
  haversine lat1 lon1 lat2 lon2 =
  let dLat := (lat2 - lat1) * (PI / 180) in
  let dLon := (lon2 - lon1) * (PI / 180) in
  let a := sin (dLat / 2) * sin (dLat / 2)
           + cos (lat1 * (PI / 180)) * cos (lat2 * (PI / 180))
             * sin (dLon / 2) * sin (dLon / 2) in
  6371 * (2 * Ratan2 (sqrt a) (sqrt (1 - a))).
Proof. reflexivity. Qed.

Lemma Ratan2_pos (y x : R) : 0 < x -> Ratan2 y x = atan (y / x).
Proof. intros Hx. unfold Ratan2. destruct (Rlt_dec 0 x); [reflexivity|lra]. Qed.

Lemma haversine_same_point (lat lon : R) : haversine lat lon lat lon = 0.
Proof.
  rewrite haversine_R. cbv zeta.
  replace ((lat - lat) * (PI / 180) / 2) with 0 by lra.
  replace ((lon - lon) * (PI / 180) / 2) with 0 by lra.
  rewrite sin_0, !Rmult_0_r, Rplus_0_r, Rminus_0_r, sqrt_0, sqrt_1.
  rewrite Ratan2_pos by lra.
  replace (0 / 1) with 0 by lra. rewrite atan_0. lra.
Qed.


Lemma haversine_equator (a b : R) :
  -180 < b - a < 180 ->
  haversine 0 a 0 b = 6371 * (Rabs (b - a) * PI / 180).
Proof.
  intros Hab. pose proof PI_bounds as HPI.
  rewrite haversine_R. cbv zeta.
  replace ((0 - 0) * (PI / 180) / 2) with 0 by lra.
  set (t := (b - a) * (PI / 180) / 2).
  rewrite Rmult_0_l, sin_0, cos_0, Rmult_0_l, Rplus_0_l, !Rmult_1_l.
  assert (Ht : - (PI / 2) < t < PI / 2) by (unfold t; nra).
  assert (Hc : 0 < cos t) by (apply cos_gt_0; lra).
  replace (1 - sin t * sin t) with (cos t * cos t).
  2:{ pose proof (sin2_cos2 t) as E. unfold Rsqr in E. lra. }
  rewrite (sqrt_square (cos t)) by lra.
  rewrite Ratan2_pos by assumption.
  destruct (Rle_dec 0 (b - a)) as [Hpos|Hneg].
  - assert (0 <= sin t).
    { destruct (Req_dec t 0) as [->|Hne]; [rewrite sin_0; lra|].
      apply Rlt_le, sin_gt_0; unfold t in *; nra. }
    rewrite sqrt_square by assumption.
    change (sin t / cos t) with (tan t). rewrite atan_tan by lra.
    rewrite Rabs_pos_eq by assumption. unfold t. lra.
  - assert (0 < sin (- t)) by (apply sin_gt_0; unfold t in *; nra).
    replace (sin t * sin t) with (sin (- t) * sin (- t))
      by (rewrite sin_neg; lra).
    rewrite sqrt_square by lra. rewrite <- (cos_neg t).
    change (sin (- t) / cos (- t)) with (tan (- t)).
    rewrite atan_tan by lra.
    rewrite Rabs_left by lra. unfold t. lra.
Qed.

Ltac closer :=
  match goal with
  | |- context [flt ?a ?b] =>
      change (flt a b) with (Rltb a b);
      (rewrite (proj2 (Rltb_true a b)) by lra) ||
      (rewrite (proj2 (Rltb_false a b)) by lra)
  end.

Lemma demo_best_near :
  bestMatchFor (F:=R) demoExcel 4 5 1 2 demoNear = Ok (Some demoFirst).
Proof.
  pose proof PI_bounds as HPI.
  unfold bestMatchFor, demoExcel. cbv -[haversine flt IZR].
  rewrite haversine_equator, haversine_same_point by lra.
  rewrite Rabs_pos_eq by lra.
  repeat closer. reflexivity.
Qed.

Lemma demo_best_away :
  bestMatchFor (F:=R) demoExcel 4 5 1 2 demoAway = Ok None.
Proof.
  pose proof PI_bounds as HPI.
  unfold bestMatchFor, demoExcel. cbv -[haversine flt IZR].
  rewrite !haversine_equator by lra.
  rewrite !Rabs_left by lra.
  repeat closer. reflexivity.
Qed.

Lemma demo_join :
  joinDatasets (F:=R) demoCsv demoExcel 4 5 1 2 =
  Ok ([demoNear ++ demoFirst], [demoAway]).
Proof.
  unfold joinDatasets, demoCsv. cbn [slice_from_1 bind joinLoop].
  rewrite demo_best_near. cbn [bind]. rewrite demo_best_away. reflexivity.
Qed.

Local Close Scope R_scope.

(* ------------------------------------------------------------------ *)
(** ** Rounding in binary64

    The subtraction and the division of [normalize], from the
    specification of the primitive operations: the exact difference of two
    finite doubles is rounded by [RN], which is monotone, and the quotient
    of a positive double by a larger one is at most 1. *)

Local Open Scope Z_scope.
Unset Implicit Arguments.

Lemma digits2_pos_spec (m : positive) :
  2 ^ (Zpos (digits2_pos m) - 1) <= Zpos m < 2 ^ Zpos (digits2_pos m).
Proof.
  assert (Hstep : forall d, 0 < d ->
            2 ^ (Z.succ d - 1) = 2 * 2 ^ (d - 1) /\ 2 ^ Z.succ d = 2 * 2 ^ d).
  { intros d Hd. split.
    - replace (Z.succ d - 1) with (Z.succ (d - 1)) by lia.
      apply Z.pow_succ_r. lia.
    - apply Z.pow_succ_r. lia. }
  induction m as [p IH|p IH|]; cbn [digits2_pos].
  - rewrite Pos2Z.inj_succ.
    destruct (Hstep (Zpos (digits2_pos p))) as [-> ->]; lia.
  - rewrite Pos2Z.inj_succ.
    destruct (Hstep (Zpos (digits2_pos p))) as [-> ->]; lia.
  - simpl. lia.
Qed.

Lemma bounded_spec (m : positive) (e : Z) :
  SpecFloat.bounded prec emax m e = true ->
  -1074 <= e <= 971 /\ Zpos (digits2_pos m) <= 53 /\
  (-1074 < e -> Zpos (digits2_pos m) = 53).
Proof.
  unfold SpecFloat.bounded, canonical_mantissa, fexp, SpecFloat.emin, prec, emax.
  intros Hb. apply andb_prop in Hb. destruct Hb as [Hc He].
  apply Z.eqb_eq in Hc. apply Z.leb_le in He. lia.
Qed.

Lemma scaled_lt (m1 m2 : positive) (e1 e2 : Z) :
  SpecFloat.bounded prec emax m1 e1 = true -> SpecFloat.bounded prec emax m2 e2 = true ->
  e1 < e2 ->
  Zpos m1 * 2 ^ (e1 + 1074) < Zpos m2 * 2 ^ (e2 + 1074).
Proof.
  intros H1 H2 Hlt.
  apply bounded_spec in H1, H2.
  destruct H1 as (He1 & Hd1 & _), H2 as (He2 & _ & Hd2).
  pose proof (digits2_pos_spec m1) as [_ Hm1].
  pose proof (digits2_pos_spec m2) as [Hm2 _].
  rewrite Hd2 in Hm2 by lia. change (2 ^ (53 - 1)) with (2 ^ 52) in Hm2.
  assert (Hm1' : Zpos m1 < 2 ^ 53).
  { eapply Z.lt_le_trans; [exact Hm1|]. apply Z.pow_le_mono_r; lia. }
  apply Z.lt_le_trans with (2 ^ 53 * 2 ^ (e1 + 1074)).
  { apply Z.mul_lt_mono_pos_r; [apply Z.pow_pos_nonneg; lia|assumption]. }
  apply Z.le_trans with (2 ^ 52 * 2 ^ (e2 + 1074)).
  { rewrite <- !Z.pow_add_r by lia. apply Z.pow_le_mono_r; lia. }
  apply Z.mul_le_mono_nonneg_r; [apply Z.pow_nonneg; lia|assumption].
Qed.

Lemma SFcompare_scaled (x y : spec_float) :
  finite_spec x -> finite_spec y ->
  valid_binary x = true -> valid_binary y = true ->
  SFcompare x y = Some (scaled x ?= scaled y).
Proof.
  intros Hx Hy Vx Vy.
  destruct Hx as [sx|sx mx ex], Hy as [sy|sy my ey]; unfold valid_binary in *; cbn [SpecFloat.valid_binary] in *.
  - reflexivity.
  - pose proof (bounded_spec _ _ Vy) as (He & _).
    assert (0 < Zpos my * 2 ^ (ey + 1074))
      by (apply Z.mul_pos_pos; [lia|apply Z.pow_pos_nonneg; lia]).
    destruct sy; cbn [SFcompare scaled cond_Zopp]; f_equal; symmetry.
    + apply Z.compare_gt_iff. lia.
    + apply Z.compare_lt_iff. lia.
  - pose proof (bounded_spec _ _ Vx) as (He & _).
    assert (0 < Zpos mx * 2 ^ (ex + 1074))
      by (apply Z.mul_pos_pos; [lia|apply Z.pow_pos_nonneg; lia]).
    destruct sx; cbn [SFcompare scaled cond_Zopp]; f_equal; symmetry.
    + apply Z.compare_lt_iff. lia.
    + apply Z.compare_gt_iff. lia.
  - pose proof (bounded_spec _ _ Vx) as (Hex & _).
    pose proof (bounded_spec _ _ Vy) as (Hey & _).
    assert (Px : 0 < Zpos mx * 2 ^ (ex + 1074))
      by (apply Z.mul_pos_pos; [lia|apply Z.pow_pos_nonneg; lia]).
    assert (Py : 0 < Zpos my * 2 ^ (ey + 1074))
      by (apply Z.mul_pos_pos; [lia|apply Z.pow_pos_nonneg; lia]).
    assert (Hlt : ex < ey -> Zpos mx * 2 ^ (ex + 1074) < Zpos my * 2 ^ (ey + 1074))
      by (apply scaled_lt; assumption).
    assert (Hgt : ey < ex -> Zpos my * 2 ^ (ey + 1074) < Zpos mx * 2 ^ (ex + 1074))
      by (apply scaled_lt; assumption).
    assert (Heq : ex = ey ->
              (Zpos mx * 2 ^ (ex + 1074) ?= Zpos my * 2 ^ (ey + 1074))
              = (mx ?= my)%positive).
    { intros ->. rewrite <- Zmult_compare_compat_r; [reflexivity|].
      apply Z.lt_gt, Z.pow_pos_nonneg; lia. }
    destruct sx, sy; cbn [SFcompare scaled cond_Zopp]; f_equal;
      change (Pos.compare_cont Eq mx my) with (mx ?= my)%positive.
    + rewrite Z.compare_opp.
      destruct (Z.compare_spec ex ey) as [E|E|E].
      * rewrite (Z.compare_antisym (Zpos mx * 2 ^ (ex + 1074))), Heq
          by assumption.
        reflexivity.
      * symmetry. apply Z.compare_gt_iff. auto.
      * symmetry. apply Z.compare_lt_iff. auto.
    + symmetry. apply Z.compare_lt_iff. lia.
    + symmetry. apply Z.compare_gt_iff. lia.
    + destruct (Z.compare_spec ex ey) as [E|E|E].
      * rewrite Heq by assumption. reflexivity.
      * symmetry. apply Z.compare_lt_iff. auto.
      * symmetry. apply Z.compare_gt_iff. auto.
Qed.

(** *** Digits *)

Lemma Zdigits2_spec (N : Z) :
  0 < N -> 2 ^ (Zdigits2 N - 1) <= N < 2 ^ Zdigits2 N.
Proof.
  destruct N as [|p|p]; try lia. intros _. apply digits2_pos_spec.
Qed.

Lemma Zdigits2_pos (N : Z) : 0 < N -> 0 < Zdigits2 N.
Proof. destruct N; simpl; lia. Qed.

Lemma Zdigits2_nonneg (N : Z) : 0 <= Zdigits2 N.
Proof. destruct N; simpl; lia. Qed.

Lemma Zdigits2_unique (N d : Z) :
  0 < d -> 2 ^ (d - 1) <= N < 2 ^ d -> Zdigits2 N = d.
Proof.
  intros Hd [Hlo Hhi].
  assert (HN : 0 < N).
  { eapply Z.lt_le_trans; [|exact Hlo]. apply Z.pow_pos_nonneg; lia. }
  pose proof (Zdigits2_spec N HN) as [Hlo' Hhi'].
  pose proof (Zdigits2_pos N HN) as Hpos.
  destruct (Z.lt_trichotomy (Zdigits2 N) d) as [Hlt|[Heq|Hgt]]; [|assumption|].
  - exfalso. assert (2 ^ Zdigits2 N <= 2 ^ (d - 1))
      by (apply Z.pow_le_mono_r; lia). lia.
  - exfalso. assert (2 ^ d <= 2 ^ (Zdigits2 N - 1))
      by (apply Z.pow_le_mono_r; lia). lia.
Qed.

Lemma Zdigits2_mono (N1 N2 : Z) :
  0 <= N1 <= N2 -> Zdigits2 N1 <= Zdigits2 N2.
Proof.
  intros [H1 H12].
  destruct (Z.eq_dec N1 0) as [->|Hne]; [apply Zdigits2_nonneg|].
  assert (HN1 : 0 < N1) by lia. assert (HN2 : 0 < N2) by lia.
  pose proof (Zdigits2_spec N1 HN1) as [Hlo1 _].
  pose proof (Zdigits2_spec N2 HN2) as [_ Hhi2].
  pose proof (Zdigits2_pos N1 HN1).
  destruct (Z.le_gt_cases (Zdigits2 N1) (Zdigits2 N2)) as [?|Hgt]; [assumption|].
  exfalso. assert (2 ^ Zdigits2 N2 <= 2 ^ (Zdigits2 N1 - 1))
    by (apply Z.pow_le_mono_r; [lia|lia]). lia.
Qed.

Lemma Zdigits2_shift (N j : Z) :
  0 < N -> 0 <= j -> Zdigits2 (N * 2 ^ j) = Zdigits2 N + j.
Proof.
  intros HN Hj. pose proof (Zdigits2_spec N HN) as [Hlo Hhi].
  pose proof (Zdigits2_pos N HN).
  assert (0 < 2 ^ j) by (apply Z.pow_pos_nonneg; lia).
  apply Zdigits2_unique; [lia|].
  replace (Zdigits2 N + j - 1) with (Zdigits2 N - 1 + j) by lia.
  rewrite !Z.pow_add_r by lia. split; nia.
Qed.

(** *** Rounding to nearest even, on non-negative integers *)

Lemma round_nearest_even_bounds (t : Z) (l : location) :
  t <= round_nearest_even t l <= t + 1.
Proof.
  destruct l as [|[| |]]; simpl; try lia. destruct (Z.even t); lia.
Qed.

Lemma round_nearest_even_mono (t k r1 r2 : Z) :
  0 <= r1 <= r2 ->
  round_nearest_even t (new_location_even k r1)
  <= round_nearest_even t (new_location_even k r2).
Proof.
  intros [H1 H12]. unfold new_location_even.
  destruct (Z.eqb_spec r1 0) as [->|Hr1], (Z.eqb_spec r2 0) as [->|Hr2];
    try lia.
  - apply round_nearest_even_bounds.
  - destruct (Z.compare_spec (2 * r1) k), (Z.compare_spec (2 * r2) k);
      simpl; try lia; destruct (Z.even t); lia.
Qed.

Lemma RN_exact (N : Z) : 0 <= N -> Zdigits2 N <= 53 -> RN N = N.
Proof.
  intros HN Hd. unfold RN, dropped. rewrite Z.max_r by lia.
  change (2 ^ 0) with 1. rewrite Z.div_1_r, Z.mod_1_r. simpl. lia.
Qed.

Lemma RN_lower (N : Z) : 0 <= N -> N / 2 ^ dropped N * 2 ^ dropped N <= RN N.
Proof.
  intros HN. unfold RN.
  assert (0 < 2 ^ dropped N) by (apply Z.pow_pos_nonneg; unfold dropped; lia).
  pose proof (round_nearest_even_bounds (N / 2 ^ dropped N)
                (new_location_even (2 ^ dropped N) (N mod 2 ^ dropped N))).
  nia.
Qed.

Lemma RN_upper (N : Z) :
  0 <= N -> RN N <= (N / 2 ^ dropped N + 1) * 2 ^ dropped N.
Proof.
  intros HN. unfold RN.
  assert (0 < 2 ^ dropped N) by (apply Z.pow_pos_nonneg; unfold dropped; lia).
  pose proof (round_nearest_even_bounds (N / 2 ^ dropped N)
                (new_location_even (2 ^ dropped N) (N mod 2 ^ dropped N))).
  nia.
Qed.

(** The kept part has exactly 53 bits once something is dropped. *)
Lemma kept_bits (N : Z) :
  0 < N -> 0 < dropped N ->
  2 ^ 52 <= N / 2 ^ dropped N < 2 ^ 53.
Proof.
  intros HN Hk. unfold dropped in *.
  pose proof (Zdigits2_spec N HN) as [Hlo Hhi].
  assert (Hd : Zdigits2 N - 53 > 0) by lia.
  rewrite Z.max_l in * by lia.
  set (k := Zdigits2 N - 53) in *.
  assert (0 < 2 ^ k) by (apply Z.pow_pos_nonneg; lia).
  replace (Zdigits2 N - 1) with (52 + k) in Hlo by lia.
  replace (Zdigits2 N) with (53 + k) in Hhi by lia.
  rewrite Z.pow_add_r in Hlo, Hhi by lia.
  split.
  - apply Z.div_le_lower_bound; lia.
  - apply Z.div_lt_upper_bound; lia.
Qed.

Lemma RN_mono (N1 N2 : Z) : 0 <= N1 <= N2 -> RN N1 <= RN N2.
Proof.
  intros [H1 H12].
  destruct (Z.eq_dec N1 0) as [->|Hne].
  { rewrite RN_exact by (simpl; lia).
    eapply Z.le_trans; [|apply RN_lower; lia].
    apply Z.mul_nonneg_nonneg.
    - apply Z.div_pos; [lia|apply Z.pow_pos_nonneg; unfold dropped; lia].
    - apply Z.pow_nonneg. lia. }
  assert (HN1 : 0 < N1) by lia. assert (HN2 : 0 < N2) by lia.
  pose proof (Zdigits2_mono N1 N2 (conj H1 H12)) as Hd.
  assert (Hk : dropped N1 <= dropped N2) by (unfold dropped; lia).
  assert (Hk1 : 0 <= dropped N1) by (unfold dropped; lia).
  destruct (Z.eq_dec (dropped N1) (dropped N2)) as [Ek|Nk].
  - (* same binade *)
    set (k := dropped N2) in *.
    assert (Hp : 0 < 2 ^ k) by (apply Z.pow_pos_nonneg; lia).
    assert (Ht : N1 / 2 ^ k <= N2 / 2 ^ k) by (apply Z.div_le_mono; lia).
    destruct (Z.eq_dec (N1 / 2 ^ k) (N2 / 2 ^ k)) as [Et|Nt].
    + unfold RN. fold k. rewrite Ek. fold k. rewrite Et.
      apply Z.mul_le_mono_nonneg_r; [lia|].
      apply round_nearest_even_mono.
      pose proof (Z.mod_pos_bound N1 (2 ^ k) Hp).
      pose proof (Z.div_mod N1 (2 ^ k)). pose proof (Z.div_mod N2 (2 ^ k)).
      split; [lia|]. rewrite Et in *. lia.
    + eapply Z.le_trans; [apply RN_upper; lia|].
      eapply Z.le_trans; [|apply RN_lower; lia].
      rewrite Ek. fold k. apply Z.mul_le_mono_nonneg_r; lia.
  - (* a larger binade *)
    assert (Hk2 : 0 < dropped N2) by lia.
    pose proof (kept_bits N2 HN2 Hk2) as [Hlo2 _].
    assert (Hd2 : Zdigits2 N2 = dropped N2 + 53) by (unfold dropped in *; lia).
    assert (Hbound : RN N1 <= 2 ^ 52 * 2 ^ dropped N2).
    { destruct (Z.eq_dec (dropped N1) 0) as [E0|N0].
      - rewrite RN_exact by (unfold dropped in *; lia).
        pose proof (Zdigits2_spec N1 HN1) as [_ Hhi1].
        assert (2 ^ Zdigits2 N1 <= 2 ^ (52 + dropped N2))
          by (apply Z.pow_le_mono_r; unfold dropped in *; lia).
        rewrite Z.pow_add_r in * by lia. lia.
      - assert (Hk1' : 0 < dropped N1) by lia.
        pose proof (kept_bits N1 HN1 Hk1') as [_ Hhi1].
        eapply Z.le_trans; [apply RN_upper; lia|].
        assert (0 < 2 ^ dropped N1) by (apply Z.pow_pos_nonneg; lia).
        apply Z.le_trans with (2 ^ 53 * 2 ^ dropped N1); [nia|].
        rewrite <- !Z.pow_add_r by lia. apply Z.pow_le_mono_r; lia. }
    eapply Z.le_trans; [exact Hbound|].
    eapply Z.le_trans; [|apply RN_lower; lia].
    apply Z.mul_le_mono_nonneg_r; [apply Z.pow_nonneg; lia|assumption].
Qed.

(** *** The right shift of [SpecFloat] *)

Lemma iter_pos_nat {A : Type} (f : A -> A) (p : positive) :
  forall x, SpecFloat.iter_pos f p x = Nat.iter (Pos.to_nat p) f x.
Proof.
  assert (Hswap : forall n x, Nat.iter n f (f x) = f (Nat.iter n f x)).
  { induction n as [|n IH]; intros x; simpl; [reflexivity|]. rewrite IH. reflexivity. }
  assert (Hadd : forall n m x, Nat.iter (n + m) f x = Nat.iter n f (Nat.iter m f x)).
  { induction n as [|n IH]; intros m x; simpl; [reflexivity|]. rewrite IH. reflexivity. }
  induction p as [p IH|p IH|]; intros x; cbn [SpecFloat.iter_pos].
  - rewrite !IH, Pos2Nat.inj_xI.
    replace (S (2 * Pos.to_nat p))%nat with (Pos.to_nat p + Pos.to_nat p + 1)%nat by lia.
    rewrite !Hadd. reflexivity.
  - rewrite !IH, Pos2Nat.inj_xO.
    replace (2 * Pos.to_nat p)%nat with (Pos.to_nat p + Pos.to_nat p)%nat by lia.
    rewrite Hadd. reflexivity.
  - reflexivity.
Qed.

Lemma shr_1_spec (mrs : shr_record) :
  0 <= shr_m mrs ->
  shr_m (shr_1 mrs) = shr_m mrs / 2 /\
  shr_r (shr_1 mrs) = Z.odd (shr_m mrs) /\
  shr_s (shr_1 mrs) = shr_r mrs || shr_s mrs.
Proof.
  destruct mrs as [m r s]. cbn [shr_m shr_r shr_s]. intros Hm.
  rewrite <- Z.div2_div.
  destruct m as [|[p|p|]|p]; try lia; simpl; auto.
Qed.

(** The mantissa after [j] shifts. *)
Lemma shr_iter_m (j : nat) (mrs : shr_record) :
  0 <= shr_m mrs ->
  shr_m (Nat.iter j shr_1 mrs) = shr_m mrs / 2 ^ Z.of_nat j.
Proof.
  intros Hm. induction j as [|j IH].
  - simpl. rewrite Z.div_1_r. reflexivity.
  - rewrite Nat.iter_succ.
    assert (Hj : 0 <= shr_m (Nat.iter j shr_1 mrs)).
    { rewrite IH. apply Z.div_pos; [lia|apply Z.pow_pos_nonneg; lia]. }
    destruct (shr_1_spec _ Hj) as (-> & _ & _). rewrite IH.
    rewrite Nat2Z.inj_succ, Z.pow_succ_r by lia.
    rewrite Z.div_div by (try lia; apply Z.pow_pos_nonneg; lia).
    f_equal. lia.
Qed.

(** The location after [j] shifts of an exact mantissa. *)
Lemma shr_iter_loc (M : Z) (j : nat) :
  0 <= M ->
  loc_of_shr_record (Nat.iter j shr_1 (shr_record_of_loc M loc_Exact))
  = new_location_even (2 ^ Z.of_nat j) (M mod 2 ^ Z.of_nat j).
Proof.
  intros HM. induction j as [|j IH].
  - simpl. rewrite Z.mod_1_r. reflexivity.
  - rewrite Nat.iter_succ.
    set (mrs := Nat.iter j shr_1 (shr_record_of_loc M loc_Exact)) in *.
    assert (Hm : shr_m mrs = M / 2 ^ Z.of_nat j)
      by (unfold mrs; rewrite shr_iter_m; simpl; auto).
    assert (Hp : 0 < 2 ^ Z.of_nat j) by (apply Z.pow_pos_nonneg; lia).
    assert (Hj : 0 <= shr_m mrs) by (rewrite Hm; apply Z.div_pos; lia).
    destruct (shr_1_spec _ Hj) as (_ & Hr & Hs).
    rewrite Nat2Z.inj_succ, Z.pow_succ_r by lia.
    set (P := 2 ^ Z.of_nat j) in *.
    (* the remainder modulo 2P from the remainder modulo P *)
    assert (Hrem : M mod (2 * P) = (M / P) mod 2 * P + M mod P).
    { rewrite (Z.mul_comm 2 P), Z.rem_mul_r by lia. lia. }
    pose proof (Z.mod_pos_bound M P Hp) as Hb.
    assert (Hodd : (M / P) mod 2 = if Z.odd (M / P) then 1 else 0)
      by (rewrite Zmod_odd; reflexivity).
    assert (Hor : shr_r mrs || shr_s mrs = negb (M mod P =? 0)).
    { unfold new_location_even in IH.
      destruct mrs as [m [|] [|]]; cbn [loc_of_shr_record shr_r shr_s] in *;
        destruct (M mod P =? 0); try discriminate; reflexivity. }
    destruct (shr_1 mrs) as [m' r' s']. cbn [shr_m shr_r shr_s] in *.
    subst r' s'. rewrite Hm, Hor, Hrem, Hodd.
    unfold new_location_even.
    destruct (Z.odd (M / P)), (Z.eqb_spec (M mod P) 0) as [E0|N0];
      cbn [negb loc_of_shr_record].
    + rewrite E0. destruct (Z.eqb_spec (1 * P + 0) 0); [lia|].
      f_equal. symmetry. apply Z.compare_eq_iff. lia.
    + destruct (Z.eqb_spec (1 * P + M mod P) 0); [lia|].
      f_equal. symmetry. apply Z.compare_gt_iff. lia.
    + rewrite E0. reflexivity.
    + destruct (Z.eqb_spec (0 * P + M mod P) 0); [lia|].
      f_equal. symmetry. apply Z.compare_lt_iff. lia.
Qed.

Lemma fexp_eq (z : Z) : fexp prec emax z = Z.max (z - 53) (-1074).
Proof. reflexivity. Qed.

Lemma shr_fexp_exact (M e : Z) :
  0 <= M ->
  let n := Z.max (fexp prec emax (Zdigits2 M + e) - e) 0 in
  exists mrs,
    shr_fexp prec emax M e loc_Exact = (mrs, e + n) /\
    shr_m mrs = M / 2 ^ n /\
    loc_of_shr_record mrs = new_location_even (2 ^ n) (M mod 2 ^ n).
Proof.
  intros HM n. unfold shr_fexp, shr. subst n.
  destruct (fexp prec emax (Zdigits2 M + e) - e) as [|p|p] eqn:En.
  - eexists. split; [rewrite Z.add_0_r; reflexivity|].
    cbn [Z.max Z.compare]. change (2 ^ 0) with 1.
    rewrite Z.div_1_r, Z.mod_1_r. split; reflexivity.
  - eexists. split; [rewrite Z.max_l by lia; reflexivity|].
    rewrite Z.max_l by lia. rewrite iter_pos_nat.
    rewrite <- (positive_nat_Z p). split.
    + rewrite shr_iter_m by (simpl; assumption). reflexivity.
    + apply shr_iter_loc. assumption.
  - eexists. split; [rewrite Z.max_r by lia; rewrite Z.add_0_r; reflexivity|].
    rewrite Z.max_r by lia. change (2 ^ 0) with 1.
    rewrite Z.div_1_r, Z.mod_1_r. split; reflexivity.
Qed.

Lemma new_location_even_scale (P r c : Z) :
  0 < c -> new_location_even (P * c) (r * c) = new_location_even P r.
Proof.
  intros Hc. unfold new_location_even.
  destruct (Z.eqb_spec (r * c) 0), (Z.eqb_spec r 0); try nia; [reflexivity|].
  f_equal. replace (2 * (r * c)) with (2 * r * c) by ring.
  symmetry. apply Zmult_compare_compat_r. lia.
Qed.

(** What [binary_round_aux] returns on an exact positive mantissa that
    needs no left shift. *)
Lemma binary_round_aux_exact (s : bool) (M e : Z) :
  0 < M -> -1074 <= e -> e <= fexp prec emax (Zdigits2 M + e) ->
  let N := M * 2 ^ (e + 1074) in
  (RN N < 2 ^ 2098 ->
   exists m' e', binary_round_aux prec emax s M e loc_Exact = S754_finite s m' e' /\
     Zpos m' * 2 ^ (e' + 1074) = RN N) /\
  (2 ^ 2098 <= RN N ->
   binary_round_aux prec emax s M e loc_Exact = S754_infinity s).
Proof.
  intros HM He Hfe N.
  assert (Hc : 0 < 2 ^ (e + 1074)) by (apply Z.pow_pos_nonneg; lia).
  assert (HN : 0 < N) by (unfold N; nia).
  assert (HdN : Zdigits2 N = Zdigits2 M + e + 1074)
    by (unfold N; rewrite Zdigits2_shift; lia).
  set (fe := fexp prec emax (Zdigits2 M + e)) in *.
  assert (Efe : fe = Z.max (Zdigits2 M + e - 53) (-1074)) by reflexivity.
  set (n := fe - e).
  assert (Hn : 0 <= n) by (unfold n; lia).
  assert (Hk : dropped N = n + (e + 1074)) by (unfold dropped, n; lia).
  assert (Hpn : 0 < 2 ^ n) by (apply Z.pow_pos_nonneg; lia).
  (* the first shift *)
  unfold binary_round_aux.
  destruct (shr_fexp_exact M e (Z.lt_le_incl _ _ HM)) as (mrs & -> & Hm1 & Hl1).
  fold fe in Hm1, Hl1 |- *. rewrite Z.max_l in * by lia. fold n in Hm1, Hl1 |- *.
  replace (e + n) with fe by (unfold n; lia).
  rewrite Hm1, Hl1.
  set (t := round_nearest_even (M / 2 ^ n) (new_location_even (2 ^ n) (M mod 2 ^ n))).
  (* in terms of N *)
  assert (HdivN : N / 2 ^ dropped N = M / 2 ^ n).
  { rewrite Hk, Z.pow_add_r by lia. unfold N.
    apply Z.div_mul_cancel_r; lia. }
  assert (HmodN : N mod 2 ^ dropped N = M mod 2 ^ n * 2 ^ (e + 1074)).
  { rewrite Hk, Z.pow_add_r by lia. unfold N.
    apply Z.mul_mod_distr_r; lia. }
  assert (HRN : RN N = t * 2 ^ (fe + 1074)).
  { unfold RN. cbv zeta. rewrite HdivN, HmodN.
    replace (2 ^ dropped N) with (2 ^ n * 2 ^ (e + 1074))
      by (rewrite Hk, (Z.pow_add_r 2 n (e + 1074)) by lia; reflexivity).
    rewrite new_location_even_scale by assumption. fold t.
    rewrite <- Z.pow_add_r by lia. f_equal. f_equal. unfold n. lia. }
  pose proof (round_nearest_even_bounds (M / 2 ^ n)
                (new_location_even (2 ^ n) (M mod 2 ^ n))) as Ht.
  fold t in Ht.
  assert (Hp1074 : 0 < 2 ^ (fe + 1074)) by (apply Z.pow_pos_nonneg; lia).
  (* the mantissa after rounding *)
  assert (Hshape : (fe = -1074 /\ 0 < t /\ Zdigits2 t <= 53) \/
                   (-1074 < fe /\ 2 ^ 52 <= t <= 2 ^ 53)).
  { destruct (Z.eq_dec fe (-1074)) as [E|NE].
    - left. assert (n = 0) by (unfold n; lia).
      assert (Et : t = M).
      { unfold t. replace n with 0 by lia. change (2 ^ 0) with 1.
        rewrite Z.div_1_r, Z.mod_1_r. reflexivity. }
      rewrite Et. repeat split; [assumption|assumption|lia].
    - right. split; [lia|].
      assert (0 < dropped N) by lia.
      pose proof (kept_bits N HN ltac:(lia)) as Hkept.
      rewrite HdivN in Hkept. lia. }
  (* the second shift *)
  assert (Ht0 : 0 <= t) by (destruct Hshape as [(_ & ? & _)|(_ & ? & _)]; lia).
  destruct (shr_fexp_exact t fe Ht0) as (mrs2 & -> & Hm2 & _).
  set (n2 := Z.max (fexp prec emax (Zdigits2 t + fe) - fe) 0) in *.
  assert (Hfinal : exists m' : positive,
            shr_m mrs2 = Zpos m' /\
            Zpos m' * 2 ^ (fe + n2 + 1074) = RN N /\
            Zpos m' < 2 ^ 53 /\ (-1074 < fe + n2 -> 2 ^ 52 <= Zpos m') /\
            -1074 <= fe + n2).
  { rewrite Hm2, HRN.
    destruct Hshape as [(Efm & Htp & Hdt)|(Hfm & Hlo & Hhi)].
    - assert (n2 = 0) by (unfold n2; rewrite fexp_eq; lia).
      replace n2 with 0 by lia. change (2 ^ 0) with 1.
      rewrite Z.div_1_r, Z.add_0_r.
      destruct t as [|m'|]; try lia. exists m'.
      pose proof (Zdigits2_spec (Zpos m') Htp) as [_ Hup].
      assert (2 ^ Zdigits2 (Z.pos m') <= 2 ^ 53)
        by (apply Z.pow_le_mono_r; lia).
      repeat split; try lia.
    - destruct (Z.eq_dec t (2 ^ 53)) as [E53|N53].
      + assert (Hd54 : Zdigits2 t = 54)
          by (rewrite E53; apply Zdigits2_unique; simpl; lia).
        assert (n2 = 1) by (unfold n2; rewrite fexp_eq, Hd54; lia).
        replace n2 with 1 by lia. rewrite E53.
        change (2 ^ 53 / 2 ^ 1) with (Zpos 4503599627370496).
        exists 4503599627370496%positive.
        replace (fe + 1 + 1074) with (Z.succ (fe + 1074)) by lia.
        rewrite Z.pow_succ_r by lia.
        repeat split; try lia.
      + assert (Hd53 : Zdigits2 t = 53)
          by (apply Zdigits2_unique; [lia|]; change (2 ^ (53 - 1)) with (2 ^ 52); lia).
        assert (n2 = 0) by (unfold n2; rewrite fexp_eq, Hd53; lia).
        replace n2 with 0 by lia. change (2 ^ 0) with 1.
        rewrite Z.div_1_r, Z.add_0_r.
        destruct t as [|m'|]; try lia. exists m'.
        repeat split; try lia. }
  destruct Hfinal as (m' & -> & Hval & Hlt & Hge & Hemin).
  split.
  - intros Hfin.
    assert (Hle : fe + n2 <= 971).
    { destruct (Z.le_gt_cases (fe + n2) 971) as [?|Hgt]; [assumption|exfalso].
      assert (2 ^ 52 <= Zpos m') by (apply Hge; lia).
      assert (2 ^ 2046 <= 2 ^ (fe + n2 + 1074))
        by (apply Z.pow_le_mono_r; lia).
      assert (2 ^ 2098 = 2 ^ 52 * 2 ^ 2046)
        by (rewrite <- Z.pow_add_r by lia; reflexivity).
      nia. }
    apply Z.leb_le in Hle. change (emax - prec) with 971. rewrite Hle.
    eauto.
  - intros Hinf.
    assert (Hgt : 971 < fe + n2).
    { destruct (Z.le_gt_cases (fe + n2) 971) as [Hle|?]; [exfalso|lia].
      assert (2 ^ (fe + n2 + 1074) <= 2 ^ 2045)
        by (apply Z.pow_le_mono_r; lia).
      assert (2 ^ 2098 = 2 ^ 53 * 2 ^ 2045)
        by (rewrite <- Z.pow_add_r by lia; reflexivity).
      assert (0 < 2 ^ (fe + n2 + 1074)) by (apply Z.pow_pos_nonneg; lia).
      nia. }
    apply Z.leb_gt in Hgt. change (emax - prec) with 971. rewrite Hgt.
    reflexivity.
Qed.

Lemma pos_iter_xO (m d : positive) :
  Zpos (Pos.iter xO m d) = Zpos m * 2 ^ Zpos d.
Proof.
  induction d as [|d IH] using Pos.peano_ind.
  - simpl. lia.
  - rewrite Pos.iter_succ, Pos2Z.inj_xO, IH, Pos2Z.inj_succ.
    rewrite Z.pow_succ_r by lia. ring.
Qed.

Lemma binary_round_spec (s : bool) (m : positive) (E : Z) :
  -1074 <= E ->
  let N := Zpos m * 2 ^ (E + 1074) in
  (RN N < 2 ^ 2098 ->
   exists m' e', binary_round prec emax s m E = S754_finite s m' e' /\
     Zpos m' * 2 ^ (e' + 1074) = RN N) /\
  (2 ^ 2098 <= RN N -> binary_round prec emax s m E = S754_infinity s).
Proof.
  intros HE N. unfold binary_round, shl_align.
  set (fe := fexp prec emax (Zpos (digits2_pos m) + E)).
  assert (Efe : fe = Z.max (Zpos (digits2_pos m) + E - 53) (-1074))
    by reflexivity.
  destruct (fe - E) as [|p|d] eqn:Ed.
  - apply binary_round_aux_exact; [lia|lia|]. cbn [Zdigits2]. fold fe. lia.
  - apply binary_round_aux_exact; [lia|lia|]. cbn [Zdigits2]. fold fe. lia.
  - assert (HN : N = Zpos (Pos.iter xO m d) * 2 ^ (fe + 1074)).
    { rewrite pos_iter_xO. unfold N.
      replace (E + 1074) with (Zpos d + (fe + 1074)) by lia.
      rewrite Z.pow_add_r by lia. ring. }
    rewrite HN. apply binary_round_aux_exact; [lia|lia|].
    rewrite pos_iter_xO, Zdigits2_shift by lia. cbn [Zdigits2].
    replace (Zpos (digits2_pos m) + Zpos d + fe)
      with (Zpos (digits2_pos m) + E) by lia.
    fold fe. lia.
Qed.

Lemma shr_fexp_m (M e : Z) (l : location) :
  0 <= M ->
  let n := Z.max (fexp prec emax (Zdigits2 M + e) - e) 0 in
  exists mrs,
    shr_fexp prec emax M e l = (mrs, e + n) /\ shr_m mrs = M / 2 ^ n.
Proof.
  intros HM n. unfold shr_fexp, shr. subst n.
  assert (Hrec : shr_m (shr_record_of_loc M l) = M)
    by (destruct l as [|[| |]]; reflexivity).
  destruct (fexp prec emax (Zdigits2 M + e) - e) as [|p|p] eqn:En.
  - eexists. split; [rewrite Z.add_0_r; reflexivity|].
    cbn [Z.max Z.compare]. change (2 ^ 0) with 1.
    rewrite Z.div_1_r. assumption.
  - eexists. split; [rewrite Z.max_l by lia; reflexivity|].
    rewrite Z.max_l by lia. rewrite iter_pos_nat.
    rewrite <- (positive_nat_Z p).
    rewrite shr_iter_m by (rewrite Hrec; assumption).
    rewrite Hrec. reflexivity.
  - eexists. split; [rewrite Z.max_r by lia; rewrite Z.add_0_r; reflexivity|].
    rewrite Z.max_r by lia. change (2 ^ 0) with 1.
    rewrite Z.div_1_r. assumption.
Qed.

Lemma Zdigits2_le (N a : Z) : 0 <= a -> 0 <= N <= 2 ^ a -> Zdigits2 N <= a + 1.
Proof.
  intros Ha [H0 Hle].
  destruct (Z.eq_dec N 0) as [->|Hne]; [simpl; lia|].
  assert (HN : 0 < N) by lia.
  pose proof (Zdigits2_spec N HN) as [Hlo _].
  pose proof (Zdigits2_pos N HN).
  destruct (Z.le_gt_cases (Zdigits2 N) (a + 1)) as [?|Hgt]; [assumption|exfalso].
  assert (2 ^ (a + 1) <= 2 ^ (Zdigits2 N - 1)) by (apply Z.pow_le_mono_r; lia).
  rewrite Z.pow_add_r in * by lia. change (2 ^ 1) with 2 in *.
  assert (0 < 2 ^ a) by (apply Z.pow_pos_nonneg; lia). lia.
Qed.

Lemma Zdigits2_lt (N a : Z) : 0 <= a -> 0 <= N < 2 ^ a -> Zdigits2 N <= a.
Proof.
  intros Ha [H0 Hlt].
  destruct (Z.eq_dec N 0) as [->|Hne]; [simpl; lia|].
  assert (HN : 0 < N) by lia.
  pose proof (Zdigits2_spec N HN) as [Hlo _].
  pose proof (Zdigits2_pos N HN).
  destruct (Z.le_gt_cases (Zdigits2 N) a) as [?|Hgt]; [assumption|exfalso].
  assert (2 ^ a <= 2 ^ (Zdigits2 N - 1)) by (apply Z.pow_le_mono_r; lia).
  lia.
Qed.

(** A located mantissa under [2 ^ X] at exponent [- X], with [53 <= X], is
    rounded to a double that is at most 1. *)
Lemma binary_round_aux_le_1 (q e : Z) (l : location) :
  e <= -53 -> 0 <= q < 2 ^ (- e) ->
  binary_round_aux prec emax false q e l = S754_zero false \/
  exists m' e', binary_round_aux prec emax false q e l = S754_finite false m' e' /\
    e' <= 0 /\ Zpos m' <= 2 ^ (- e').
Proof.
  intros He [Hq0 Hq]. unfold binary_round_aux.
  destruct (shr_fexp_m q e l Hq0) as (mrs & -> & Hm1).
  set (n1 := Z.max (fexp prec emax (Zdigits2 q + e) - e) 0) in *.
  assert (Hdq : Zdigits2 q <= - e) by (apply Zdigits2_lt; lia).
  assert (Hn1 : 0 <= n1) by (unfold n1; lia).
  assert (He1 : e + n1 <= -53) by (unfold n1; rewrite fexp_eq; lia).
  set (e1 := e + n1) in *.
  assert (Hp1 : 0 < 2 ^ n1) by (apply Z.pow_pos_nonneg; lia).
  assert (Hm1b : 0 <= shr_m mrs < 2 ^ (- e1)).
  { rewrite Hm1. split; [apply Z.div_pos; lia|].
    apply Z.div_lt_upper_bound; [lia|].
    rewrite <- Z.pow_add_r by lia.
    replace (n1 + - e1) with (- e) by (unfold e1; lia). assumption. }
  set (t := round_nearest_even (shr_m mrs) (loc_of_shr_record mrs)).
  pose proof (round_nearest_even_bounds (shr_m mrs) (loc_of_shr_record mrs)) as Ht.
  fold t in Ht.
  assert (Htb : 0 <= t <= 2 ^ (- e1)) by lia.
  destruct (shr_fexp_m t e1 loc_Exact (proj1 Htb)) as (mrs2 & -> & Hm2).
  set (n2 := Z.max (fexp prec emax (Zdigits2 t + e1) - e1) 0) in *.
  assert (Hdt : Zdigits2 t <= - e1 + 1) by (apply Zdigits2_le; lia).
  assert (Hn2 : 0 <= n2) by (unfold n2; lia).
  assert (He2 : e1 + n2 <= -52) by (unfold n2; rewrite fexp_eq; lia).
  assert (Hp2 : 0 < 2 ^ n2) by (apply Z.pow_pos_nonneg; lia).
  assert (Hm2b : 0 <= shr_m mrs2 <= 2 ^ (- (e1 + n2))).
  { rewrite Hm2. split; [apply Z.div_pos; lia|].
    apply Z.div_le_upper_bound; [lia|].
    rewrite <- Z.pow_add_r by lia.
    replace (n2 + - (e1 + n2)) with (- e1) by lia. lia. }
  destruct (shr_m mrs2) as [|m'|m'] eqn:Em; [left; reflexivity| |lia].
  right. exists m', (e1 + n2).
  assert (Hle : (e1 + n2 <=? emax - prec) = true)
    by (apply Z.leb_le; change (emax - prec) with 971; lia).
  rewrite Hle. repeat split; lia.
Qed.

(** The quotient of a positive double by a larger one is at most 1. *)
Lemma SFdiv_le_1 (ma md : positive) (ea ed : Z) :
  -1074 <= ea -> -1074 <= ed ->
  Zpos ma * 2 ^ (ea + 1074) < Zpos md * 2 ^ (ed + 1074) ->
  let r := SF64div (S754_finite false ma ea) (S754_finite false md ed) in
  r = S754_zero false \/
  exists m' e', r = S754_finite false m' e' /\ e' <= 0 /\ Zpos m' <= 2 ^ (- e').
Proof.
  intros Hea Hed Hlt r. subst r. unfold SF64div, SFdiv, SFdiv_core_binary.
  cbn [Zdigits2 xorb].
  set (d1 := Zpos (digits2_pos ma)). set (d2 := Zpos (digits2_pos md)).
  pose proof (digits2_pos_spec ma) as [Hlo1 _]. fold d1 in Hlo1.
  pose proof (digits2_pos_spec md) as [_ Hhi2]. fold d2 in Hhi2.
  (* the exponents of the two numbers *)
  assert (Hd : d1 + ea <= d2 + ed).
  { destruct (Z.le_gt_cases (d1 + ea) (d2 + ed)) as [?|Hgt]; [assumption|exfalso].
    assert (Hpa : 0 < 2 ^ (ea + 1074)) by (apply Z.pow_pos_nonneg; lia).
    assert (Hpd : 0 < 2 ^ (ed + 1074)) by (apply Z.pow_pos_nonneg; lia).
    assert (H1 : 2 ^ (d1 - 1 + (ea + 1074)) <= Zpos ma * 2 ^ (ea + 1074))
      by (rewrite (Z.pow_add_r 2 (d1 - 1) (ea + 1074)) by (unfold d1; lia); nia).
    assert (H2 : Zpos md * 2 ^ (ed + 1074) < 2 ^ (d2 + (ed + 1074)))
      by (rewrite (Z.pow_add_r 2 d2 (ed + 1074)) by (unfold d2; lia); nia).
    assert (2 ^ (d2 + (ed + 1074)) <= 2 ^ (d1 - 1 + (ea + 1074)))
      by (apply Z.pow_le_mono_r; unfold d1, d2 in *; lia).
    lia. }
  set (e' := Z.min (fexp prec emax (d1 + ea - (d2 + ed))) (ea - ed)).
  assert (He' : e' <= -53) by (unfold e'; rewrite fexp_eq; lia).
  assert (Hs : 0 <= ea - ed - e') by (unfold e'; lia).
  set (s := ea - ed - e') in *.
  set (m' := match s with Z.pos _ => Z.shiftl (Z.pos ma) s | 0 => Z.pos ma | Z.neg _ => 0 end).
  assert (Hm' : m' = Zpos ma * 2 ^ s).
  { unfold m'. clearbody s. destruct s as [|p|p].
    - change (2 ^ 0) with 1. lia.
    - apply Z.shiftl_mul_pow2. lia.
    - lia. }
  pose proof (Z_div_mod m' (Zpos md) eq_refl) as Hdm.
  destruct (Z.div_eucl m' (Z.pos md)) as [q r]. destruct Hdm as [Hq Hr].
  (* the quotient is under 2 ^ (- e') *)
  assert (Hps : 0 < 2 ^ s) by (apply Z.pow_pos_nonneg; lia).
  assert (Hq0 : 0 <= q) by nia.
  assert (Hbound : Zpos ma * 2 ^ s < Zpos md * 2 ^ (- e')).
  { assert (Hpd : 0 < 2 ^ (ed + 1074)) by (apply Z.pow_pos_nonneg; lia).
    assert (Hpe : 0 < 2 ^ (- e')) by (apply Z.pow_pos_nonneg; lia).
    apply Z.mul_lt_mono_pos_r with (p := 2 ^ (ed + 1074)); [assumption|].
    replace (Zpos ma * 2 ^ s * 2 ^ (ed + 1074))
      with (Zpos ma * 2 ^ (ea + 1074) * 2 ^ (- e')).
    2:{ rewrite <- !Z.mul_assoc, <- !Z.pow_add_r by lia.
        f_equal. f_equal. unfold s. lia. }
    replace (Zpos md * 2 ^ (- e') * 2 ^ (ed + 1074))
      with (Zpos md * 2 ^ (ed + 1074) * 2 ^ (- e')) by ring.
    apply Z.mul_lt_mono_pos_r; assumption. }
  assert (Hq1 : q < 2 ^ (- e')) by nia.
  apply binary_round_aux_le_1; [assumption|lia].
Qed.

(** *** Subtraction *)

Lemma RN_valid (m : positive) (e : Z) :
  SpecFloat.bounded prec emax m e = true ->
  RN (Zpos m * 2 ^ (e + 1074)) = Zpos m * 2 ^ (e + 1074) /\
  Zpos m * 2 ^ (e + 1074) < 2 ^ 2098.
Proof.
  intros Hb. apply bounded_spec in Hb. destruct Hb as (He & Hd & Hd53).
  pose proof (digits2_pos_spec m) as [_ Hhi].
  assert (Hm : Zpos m < 2 ^ 53).
  { eapply Z.lt_le_trans; [exact Hhi|]. apply Z.pow_le_mono_r; lia. }
  assert (Hp : 0 < 2 ^ (e + 1074)) by (apply Z.pow_pos_nonneg; lia).
  set (N := Zpos m * 2 ^ (e + 1074)).
  assert (HN : 0 < N) by (unfold N; nia).
  assert (HdN : Zdigits2 N = Zpos (digits2_pos m) + (e + 1074))
    by (unfold N; rewrite Zdigits2_shift by lia; reflexivity).
  assert (Hk : dropped N = e + 1074).
  { unfold dropped. rewrite HdN.
    destruct (Z.eq_dec e (-1074)) as [->|Hne]; [lia|].
    rewrite Hd53 by lia. lia. }
  split.
  - unfold RN. cbv zeta. rewrite Hk. unfold N.
    rewrite Z.div_mul, Z.mod_mul by lia. reflexivity.
  - assert (2 ^ (e + 1074) <= 2 ^ 2045) by (apply Z.pow_le_mono_r; lia).
    assert (2 ^ 2098 = 2 ^ 53 * 2 ^ 2045)
      by (rewrite <- Z.pow_add_r by lia; reflexivity).
    unfold N. nia.
Qed.

Lemma shl_align_fst (m : positive) (e ez : Z) :
  ez <= e -> Zpos (fst (shl_align m e ez)) = Zpos m * 2 ^ (e - ez).
Proof.
  intros Hle. unfold shl_align.
  destruct (ez - e) as [|p|d] eqn:Ed; cbn [fst]; try lia.
  - replace (e - ez) with 0 by lia. change (2 ^ 0) with 1. lia.
  - rewrite pos_iter_xO. f_equal. f_equal. lia.
Qed.

Lemma SFsub_nonneg (x y : spec_float) :
  finite_spec x -> finite_spec y ->
  valid_binary x = true -> valid_binary y = true ->
  let A := scaled x - scaled y in
  (A = 0 -> exists s, SF64sub x y = S754_zero s) /\
  (0 < A ->
   (RN A < 2 ^ 2098 ->
    exists m' e', SF64sub x y = S754_finite false m' e' /\
      Zpos m' * 2 ^ (e' + 1074) = RN A) /\
   (2 ^ 2098 <= RN A -> SF64sub x y = S754_infinity false)).
Proof.
  intros Hx Hy Vx Vy A. subst A.
  destruct Hx as [sx|sx mx ex], Hy as [sy|sy my ey];
    unfold valid_binary in *; cbn [SpecFloat.valid_binary] in *.
  - split; [|cbn [scaled]; lia]. intros _.
    destruct sx, sy; simpl; eauto.
  - pose proof (bounded_spec _ _ Vy) as (He & _).
    pose proof (RN_valid _ _ Vy) as [HRN Hlt].
    assert (0 < Zpos my * 2 ^ (ey + 1074))
      by (apply Z.mul_pos_pos; [lia|apply Z.pow_pos_nonneg; lia]).
    cbn [scaled]. destruct sy; cbn [cond_Zopp SF64sub SFsub negb].
    + split; [lia|]. intros _.
      replace (0 - - (Zpos my * 2 ^ (ey + 1074)))
        with (Zpos my * 2 ^ (ey + 1074)) by lia.
      rewrite HRN. split; [eauto|lia].
    + split; lia.
  - pose proof (bounded_spec _ _ Vx) as (He & _).
    pose proof (RN_valid _ _ Vx) as [HRN Hlt].
    assert (0 < Zpos mx * 2 ^ (ex + 1074))
      by (apply Z.mul_pos_pos; [lia|apply Z.pow_pos_nonneg; lia]).
    cbn [scaled]. destruct sx; cbn [cond_Zopp SF64sub SFsub].
    + split; lia.
    + split; [lia|]. intros _. rewrite Z.sub_0_r, HRN. split; [eauto|lia].
  - pose proof (bounded_spec _ _ Vx) as (Hex & _).
    pose proof (bounded_spec _ _ Vy) as (Hey & _).
    unfold SF64sub, SFsub.
    set (ez := Z.min ex ey).
    assert (Hez : -1074 <= ez) by (unfold ez; lia).
    rewrite !shl_align_fst by (unfold ez; lia).
    set (D := cond_Zopp sx (Zpos mx * 2 ^ (ex - ez))
              - cond_Zopp sy (Zpos my * 2 ^ (ey - ez))).
    assert (Hp : 0 < 2 ^ (ez + 1074)) by (apply Z.pow_pos_nonneg; lia).
    assert (HD : scaled (S754_finite sx mx ex) - scaled (S754_finite sy my ey)
                 = D * 2 ^ (ez + 1074)).
    { unfold D. cbn [scaled].
      replace (ex + 1074) with (ex - ez + (ez + 1074)) by lia.
      replace (ey + 1074) with (ey - ez + (ez + 1074)) by lia.
      rewrite (Z.pow_add_r 2 (ex - ez)), (Z.pow_add_r 2 (ey - ez))
        by (unfold ez; lia).
      destruct sx, sy; cbn [cond_Zopp]; ring. }
    rewrite HD. clearbody D.
    destruct D as [|p|p]; cbn [binary_normalize].
    + split; [eauto|lia].
    + split; [nia|]. intros _. apply binary_round_spec. assumption.
    + split; nia.
Qed.

(** *** Doubles by their value *)

Lemma b64_compare (x y : float) :
  is_finite x = true -> is_finite y = true ->
  SFcompare (Prim2SF x) (Prim2SF y) = Some (valZ x ?= valZ y).
Proof.
  intros Hx Hy. apply SFcompare_scaled;
    auto using is_finite_spec, Prim2SF_valid.
Qed.

Lemma b64_ltb (x y : float) :
  is_finite x = true -> is_finite y = true ->
  (x <? y)%float = (valZ x <? valZ y).
Proof.
  intros Hx Hy. rewrite ltb_spec. unfold SFltb, Z.ltb.
  rewrite b64_compare by assumption. reflexivity.
Qed.

Lemma b64_leb (x y : float) :
  is_finite x = true -> is_finite y = true ->
  (x <=? y)%float = (valZ x <=? valZ y).
Proof.
  intros Hx Hy. rewrite leb_spec. unfold SFleb, Z.leb.
  rewrite b64_compare by assumption. destruct (valZ x ?= valZ y); reflexivity.
Qed.

Lemma b64_eqb (x y : float) :
  is_finite x = true -> is_finite y = true ->
  (x =? y)%float = (valZ x =? valZ y).
Proof.
  intros Hx Hy. rewrite FloatAxioms.eqb_spec, Z.eqb_compare. unfold SFeqb.
  rewrite b64_compare by assumption. reflexivity.
Qed.

Lemma finite_spec_is_finite (x : float) :
  finite_spec (Prim2SF x) -> is_finite x = true.
Proof.
  unfold is_finite, is_nan, is_infinity.
  rewrite !FloatAxioms.eqb_spec, abs_spec.
  change (Prim2SF infinity) with (S754_infinity false).
  intros Hx. destruct Hx as [s|s m e]; simpl.
  - reflexivity.
  - unfold SFeqb, SFcompare.
    rewrite !Z.compare_refl.
    change (Pos.compare_cont Eq m m) with (Pos.compare m m).
    rewrite Pos.compare_refl. destruct s; reflexivity.
Qed.

Lemma minMaxLoop_binary64 (data : list float) :
  Forall (fun v => is_finite v = true) data ->
  forall minVal maxVal,
    is_finite minVal = true -> is_finite maxVal = true ->
    is_finite (fst (minMaxLoop data minVal maxVal)) = true /\
    is_finite (snd (minMaxLoop data minVal maxVal)) = true /\
    valZ (fst (minMaxLoop data minVal maxVal)) <= valZ minVal /\
    valZ maxVal <= valZ (snd (minMaxLoop data minVal maxVal)) /\
    forall v, In v data ->
      valZ (fst (minMaxLoop data minVal maxVal)) <= valZ v
      <= valZ (snd (minMaxLoop data minVal maxVal)).
Proof.
  induction 1 as [|val rest Hval _ IH]; intros minVal maxVal Hmin Hmax;
    cbn [minMaxLoop].
  - cbn [fst snd]. repeat split; try assumption; try lia; contradiction.
  - cbn [flt binary64].
    rewrite (b64_ltb val minVal), (b64_ltb maxVal val) by assumption.
    destruct (Z.ltb_spec (valZ val) (valZ minVal)) as [E1|E1],
             (Z.ltb_spec (valZ maxVal) (valZ val)) as [E2|E2];
      match goal with
      | |- context [minMaxLoop rest ?a ?b] =>
          destruct (IH a b) as (F1 & F2 & Hlo & Hhi & Hall); try assumption
      end;
      (split; [assumption|split; [assumption|split; [lia|split; [lia|]]]]);
      (intros v [<-|Hv]; [lia|apply Hall; assumption]).
Qed.

(** *** The quotient of [normalize] *)

Section Quotient.

Variables v mn mx : float.
Hypothesis Hv : is_finite v = true.
Hypothesis Hmn : is_finite mn = true.
Hypothesis Hmx : is_finite mx = true.
Hypothesis Hlo : valZ mn <= valZ v.
Hypothesis Hhi : valZ v <= valZ mx.
Hypothesis Hrange : valZ mn < valZ mx.
Hypothesis Hfinite : is_finite (mx - mn)%float = true.

Lemma range_shape :
  RN (valZ mx - valZ mn) < 2 ^ 2098 /\
  exists md ed, Prim2SF (mx - mn)%float = S754_finite false md ed /\
    Zpos md * 2 ^ (ed + 1074) = RN (valZ mx - valZ mn).
Proof.
  destruct (SFsub_nonneg (Prim2SF mx) (Prim2SF mn)) as [_ Hpos];
    auto using is_finite_spec, Prim2SF_valid.
  fold (valZ mx) (valZ mn) in Hpos.
  destruct Hpos as [Hfin Hinf]; [lia|].
  destruct (Z.lt_ge_cases (RN (valZ mx - valZ mn)) (2 ^ 2098)) as [Hlt|Hge].
  - split; [assumption|]. rewrite sub_spec. apply Hfin. assumption.
  - exfalso. apply is_finite_spec in Hfinite.
    rewrite sub_spec, (Hinf Hge) in Hfinite. inversion Hfinite.
Qed.

Lemma range_positive_finite : positive_finite (mx - mn)%float = true.
Proof.
  destruct range_shape as (_ & md & ed & E & _).
  unfold positive_finite. rewrite Hfinite, andb_true_r.
  rewrite ltb_spec, E. reflexivity.
Qed.

Lemma quotient_in_unit_interval :
  (0 <=? (v - mn) / (mx - mn))%float = true /\
  ((v - mn) / (mx - mn) <=? 1)%float = true.
Proof.
  destruct range_shape as (HB & md & ed & Ed & Hd).
  pose proof (Prim2SF_valid (mx - mn)%float) as Vd. rewrite Ed in Vd.
  pose proof (bounded_spec _ _ Vd) as (Hed & _).
  destruct (SFsub_nonneg (Prim2SF v) (Prim2SF mn)) as [Hzero Hpos];
    auto using is_finite_spec, Prim2SF_valid.
  fold (valZ v) (valZ mn) in Hzero, Hpos.
  assert (Hmono : RN (valZ v - valZ mn) <= RN (valZ mx - valZ mn))
    by (apply RN_mono; lia).
  assert (Hq : finite_spec (Prim2SF ((v - mn) / (mx - mn))%float) /\
               0 <= valZ ((v - mn) / (mx - mn))%float <= valZ 1%float).
  { change (valZ 1%float) with (2 ^ 1074).
    destruct (Z.eq_dec (valZ v - valZ mn) 0) as [E0|N0].
    - destruct (Hzero E0) as [s Es].
      unfold valZ. rewrite div_spec, Ed, (sub_spec v mn), Es.
      cbn [SF64div SFdiv scaled]. split; [constructor|]. simpl. lia.
    - destruct Hpos as [Hfin _]; [lia|].
      destruct Hfin as (ma & ea & Ea & Ha); [lia|].
      rewrite <- sub_spec in Ea.
      pose proof (Prim2SF_valid (v - mn)%float) as Va. rewrite Ea in Va.
      pose proof (bounded_spec _ _ Va) as (Hea & _).
      destruct (Z.eq_dec (RN (valZ v - valZ mn)) (RN (valZ mx - valZ mn)))
        as [Eeq|Nne].
      + (* the same double: the quotient is 1 *)
        assert (Esame : (v - mn)%float = (mx - mn)%float).
        { apply Prim2SF_inj. rewrite Ea, Ed.
          assert (Hcmp : SFcompare (S754_finite false ma ea)
                           (S754_finite false md ed) = Some Eq).
          { rewrite SFcompare_scaled; try constructor; try assumption.
            cbn [scaled cond_Zopp]. rewrite Ha, Hd, Eeq, Z.compare_refl.
            reflexivity. }
          cbn [SFcompare] in Hcmp.
          destruct (Z.compare_spec ea ed) as [->|?|?]; try discriminate.
          change (Pos.compare_cont Eq ma md) with (Pos.compare ma md) in Hcmp.
          injection Hcmp as Hcmp. apply Pos.compare_eq in Hcmp.
          subst. reflexivity. }
        rewrite Esame, (div_self _ range_positive_finite).
        split; [constructor|]. change (valZ 1%float) with (2 ^ 1074). lia.
      + destruct (SFdiv_le_1 ma md ea ed) as [Ez|(m' & e' & Ef & He' & Hm')];
          [lia|lia|lia| |].
        * unfold valZ. rewrite div_spec, Ea, Ed. rewrite Ez.
          split; [constructor|]. simpl. lia.
        * pose proof (Prim2SF_valid ((v - mn) / (mx - mn))%float) as Vq.
          unfold valZ. rewrite div_spec, Ea, Ed in Vq |- *. rewrite Ef in Vq |- *.
          pose proof (bounded_spec _ _ Vq) as (Hee & _).
          split; [constructor|]. cbn [scaled cond_Zopp].
          assert (0 < 2 ^ (e' + 1074)) by (apply Z.pow_pos_nonneg; lia).
          assert (2 ^ (- e') * 2 ^ (e' + 1074) = 2 ^ 1074).
          { rewrite <- Z.pow_add_r by lia. f_equal. lia. }
          split; nia. }
  destruct Hq as [Fq [Hq0 Hq1]].
  apply finite_spec_is_finite in Fq.
  rewrite !b64_leb by (assumption || reflexivity).
  change (valZ 0%float) with 0.
  split; apply Z.leb_le; assumption.
Qed.

End Quotient.

Set Implicit Arguments.
Local Close Scope Z_scope.

(* ------------------------------------------------------------------ *)
(** ** The join *)

Lemma index_Ok {A : Type} (s : list A) (i : Z) :
  (0 <= i < len s)%Z -> exists a, index s i = Ok a.
Proof.
  unfold index, len. intros Hi.
  destruct (Z.ltb_spec i 0); [lia|].
  destruct (nth_error s (Z.to_nat i)) eqn:E; [eauto|].
  apply nth_error_None in E. lia.
Qed.

Lemma index_inv {A : Type} (s : list A) (i : Z) (a : A) :
  index s i = Ok a -> (0 <= i < len s)%Z /\ nth_error s (Z.to_nat i) = Some a.
Proof.
  unfold index, len. destruct (Z.ltb_spec i 0); [discriminate|].
  destruct (nth_error s (Z.to_nat i)) eqn:E; [|discriminate].
  intros [= ->]. split; [|reflexivity].
  assert (Z.to_nat i < List.length s)%nat by (apply nth_error_Some; congruence).
  lia.
Qed.

Lemma bind_Ok {A B : Type} (m : outcome A) (k : A -> outcome B) (b : B) :
  bind m k = Ok b -> exists a, m = Ok a /\ k a = Ok b.
Proof. destruct m; simpl; intros; try discriminate; eauto. Qed.

Tactic Notation "bind_inv" hyp(H) :=
  let a := fresh "a" in
  let E := fresh "E" in
  apply bind_Ok in H; destruct H as (a & E & H).

Tactic Notation "bind_inv" hyp(H) "as" simple_intropattern(a) ident(E) :=
  apply bind_Ok in H; destruct H as (a & E & H).

Lemma joinSplit_impl (P P' : row -> row -> Prop) (Q Q' : row -> Prop)
    (ls m d : list row) :
  (forall l r, In l ls -> P l r -> P' l r) ->
  (forall l, In l ls -> Q l -> Q' l) ->
  joinSplit P Q ls m d -> joinSplit P' Q' ls m d.
Proof.
  intros HP HQ Hs. induction Hs; constructor;
    try (apply IHHs; intros; [apply HP | apply HQ]; simpl; auto);
    [apply HP | apply HQ]; simpl; auto.
Qed.

Lemma joinSplit_length (P : row -> row -> Prop) (Q : row -> Prop)
    (ls m d : list row) :
  joinSplit P Q ls m d -> (List.length m + List.length d = List.length ls)%nat.
Proof. induction 1; simpl; lia. Qed.

Lemma joinSplit_dangling (P : row -> row -> Prop) (Q : row -> Prop)
    (ls m d : list row) :
  joinSplit P Q ls m d -> Forall (fun x => In x ls /\ Q x) d.
Proof.
  induction 1.
  - constructor.
  - eapply Forall_impl; [|eassumption]. simpl. tauto.
  - constructor; [simpl; auto|].
    eapply Forall_impl; [|eassumption]. simpl. tauto.
Qed.

Lemma joinSplit_matched (P : row -> row -> Prop) (Q : row -> Prop)
    (ls m d : list row) :
  joinSplit P Q ls m d ->
  Forall (fun x => exists l r, In l ls /\ P l r /\ x = l ++ r /\
            List.length x = (List.length l + List.length r)%nat) m.
Proof.
  induction 1.
  - constructor.
  - constructor.
    + exists l, r. rewrite length_app. simpl. auto.
    + eapply Forall_impl; [|eassumption]. simpl.
      intros x (l' & r' & ? & ? & ? & ?). exists l', r'. auto.
  - eapply Forall_impl; [|eassumption]. simpl.
    intros x (l' & r' & ? & ? & ? & ?). exists l', r'. auto.
Qed.

Section JoinFacts.

Context {F : Type} `{Float64 F} `{Libm F} `{GoText F}.

Local Open Scope go_scope.
Local Open Scope f64_scope.

Variable excelData : table.
Variables csvLatCol csvLonCol excelLatCol excelLonCol : Z.

Local Notation "'bestMatchFor''" :=
  (bestMatchFor excelData csvLatCol csvLonCol excelLatCol excelLonCol).
Local Notation "'joinLoop''" :=
  (joinLoop excelData csvLatCol csvLonCol excelLatCol excelLonCol).

Lemma coords_Ok (r : row) (latCol lonCol : Z) :
  hasCoords latCol lonCol r -> exists p, coords r latCol lonCol = Ok p.
Proof.
  intros [Hlat Hlon]. unfold coords.
  destruct (index_Ok r Hlat) as [a ->], (index_Ok r Hlon) as [b ->].
  simpl. eauto.
Qed.

(** The outer loop only ever extends the two slices, one row per left row. *)
Lemma joinLoop_split (rows : list row) :
  forall joined dangling joined' dangling',
    joinLoop' rows joined dangling = Ok (joined', dangling') ->
    exists m d, joined' = joined ++ m /\ dangling' = dangling ++ d /\
      joinSplit (fun l r => bestMatchFor' l = Ok (Some r))
                (fun l => bestMatchFor' l = Ok None) rows m d.
Proof.
  induction rows as [|csvRow rest IH]; simpl; intros joined dangling j' d' Hj.
  - injection Hj as <- <-. exists [], []. rewrite !app_nil_r.
    repeat split. constructor.
  - bind_inv Hj. destruct a as [m0|].
    + apply IH in Hj. destruct Hj as (m & d & -> & -> & Hs).
      exists ((csvRow ++ m0) :: m), d. rewrite <- app_assoc. simpl.
      repeat split. constructor; assumption.
    + apply IH in Hj. destruct Hj as (m & d & -> & -> & Hs).
      exists m, (csvRow :: d). rewrite <- app_assoc. simpl.
      repeat split. constructor; assumption.
Qed.

Lemma joinLoop_total (rows : list row) :
  (forall l, In l rows -> exists b, bestMatchFor' l = Ok b) ->
  forall joined dangling, exists m d,
    joinLoop' rows joined dangling = Ok (m, d).
Proof.
  induction rows as [|csvRow rest IH]; simpl; intros Hall joined dangling.
  - eauto.
  - destruct (Hall csvRow (or_introl eq_refl)) as [b ->]. simpl.
    destruct b; apply IH; auto.
Qed.

Lemma joinDatasets_split (csvData : table) (m d : list row) :
  joinDatasets csvData excelData csvLatCol csvLonCol excelLatCol excelLonCol
    = Ok (m, d) ->
  exists header lefts, csvData = header :: lefts /\
    joinSplit (fun l r => bestMatchFor' l = Ok (Some r))
              (fun l => bestMatchFor' l = Ok None) lefts m d.
Proof.
  unfold joinDatasets. intros Hj. bind_inv Hj.
  destruct csvData as [|header lefts]; [discriminate|].
  injection E as <-. apply joinLoop_split in Hj.
  destruct Hj as (m' & d' & -> & -> & Hs). eauto.
Qed.

(** *** The inner loop *)

Section Scan.

Context `{!Float64Order F}.

Variables csvLat csvLon : F.

Local Notation "'scan'" := (scanExcel csvLat csvLon excelLatCol excelLonCol).
Local Notation "'hav' p" := (haversine csvLat csvLon (fst p) (snd p))
  (at level 10, p at level 9).

Lemma flt_asym (a b : F) : (a <? b) = true -> (b <? a) = false.
Proof.
  intros Hab. destruct (b <? a) eqn:Hba; [|reflexivity].
  rewrite <- (flt_irrefl a). symmetry. eapply flt_trans; eassumption.
Qed.

Lemma scanExcel_inv (rows : list row) :
  forall closestDist bestMatch closestDist' bestMatch',
    scan rows closestDist bestMatch = Ok (closestDist', bestMatch') ->
    (forall r, In r rows ->
       exists p, coords r excelLatCol excelLonCol = Ok p /\
         (hav p <? closestDist') = false) /\
    ((closestDist' = closestDist /\ bestMatch' = bestMatch) \/
     (exists i best p,
        nth_error rows i = Some best /\ bestMatch' = Some best /\
        coords best excelLatCol excelLonCol = Ok p /\
        closestDist' = hav p /\ (closestDist' <? closestDist) = true /\
        forall j r, (j < i)%nat -> nth_error rows j = Some r ->
          exists q, coords r excelLatCol excelLonCol = Ok q /\
            (hav q =? closestDist') = false)).
Proof.
  induction rows as [|excelRow rest IH]; simpl;
    intros closestDist bestMatch cd' bm' Hs.
  - injection Hs as <- <-. split; [contradiction|]. left. auto.
  - bind_inv Hs. destruct a as [excelLat excelLon].
    set (distance := haversine csvLat csvLon excelLat excelLon) in *.
    destruct (distance <? closestDist) eqn:Hlt.
    + apply IH in Hs. destruct Hs as [Hmin Hsel]. split.
      * intros r [<-|Hin]; [|auto]. exists (excelLat, excelLon).
        split; [assumption|]. simpl. fold distance.
        destruct Hsel as [[-> _]|(i & best & p & _ & _ & _ & -> & Hlt' & _)].
        -- apply flt_irrefl.
        -- apply flt_asym. assumption.
      * right.
        destruct Hsel as [[-> ->]|(i & best & p & Hn & -> & Hc & -> & Hlt' & Hfirst)].
        -- exists 0%nat, excelRow, (excelLat, excelLon).
           repeat split; auto. intros j r Hj. lia.
        -- exists (S i), best, p. repeat split; auto.
           ++ eapply flt_trans; eassumption.
           ++ intros [|j] r Hj Hn'; simpl in Hn'.
              ** injection Hn' as <-. exists (excelLat, excelLon).
                 split; [assumption|]. simpl. fold distance.
                 destruct (distance =? hav p) eqn:Heq; [|reflexivity].
                 pose proof (feq_flt_trans _ _ _ Heq Hlt') as Hdd.
                 rewrite flt_irrefl in Hdd. discriminate.
              ** apply (Hfirst j r); [lia|assumption].
    + apply IH in Hs. destruct Hs as [Hmin Hsel]. split.
      * intros r [<-|Hin]; [|auto]. exists (excelLat, excelLon).
        split; [assumption|]. simpl. fold distance.
        destruct Hsel as [[-> _]|(i & best & p & _ & _ & _ & -> & Hlt' & _)].
        -- assumption.
        -- destruct (distance <? hav p) eqn:Hd; [|reflexivity].
           rewrite <- Hlt. symmetry. eapply flt_trans; eassumption.
      * destruct Hsel as [?|(i & best & p & Hn & -> & Hc & -> & Hlt' & Hfirst)];
          [left; assumption|right].
        exists (S i), best, p. repeat split; auto.
        intros [|j] r Hj Hn'; simpl in Hn'.
        -- injection Hn' as <-. exists (excelLat, excelLon).
           split; [assumption|]. simpl. fold distance.
           destruct (distance =? hav p) eqn:Heq; [|reflexivity].
           rewrite <- Hlt. symmetry. eapply feq_flt_trans; eassumption.
        -- apply (Hfirst j r); [lia|assumption].
Qed.

End Scan.

Lemma scanExcel_total (csvLat csvLon : F) (rows : list row) :
  Forall (hasCoords excelLatCol excelLonCol) rows ->
  forall closestDist bestMatch, exists st,
    scanExcel csvLat csvLon excelLatCol excelLonCol rows closestDist bestMatch
      = Ok st.
Proof.
  induction 1 as [|r rest Hr _ IH]; simpl; intros closestDist bestMatch.
  - eauto.
  - destruct (coords_Ok Hr) as [[excelLat excelLon] ->]. simpl.
    destruct (_ <? _); apply IH.
Qed.

Lemma scanExcel_In (csvLat csvLon : F) (rows : list row) :
  forall closestDist bestMatch closestDist' r,
    scanExcel csvLat csvLon excelLatCol excelLonCol rows closestDist bestMatch
      = Ok (closestDist', Some r) ->
    bestMatch = Some r \/ In r rows.
Proof.
  induction rows as [|excelRow rest IH]; simpl;
    intros closestDist bestMatch cd' r Hs.
  - injection Hs as _ ->. auto.
  - bind_inv Hs. destruct a as [excelLat excelLon].
    destruct (_ <? _); apply IH in Hs; destruct Hs as [Hs|Hs]; auto.
    injection Hs as ->. auto.
Qed.

(** *** One left row *)

Lemma bestMatchFor_In (l r : row) :
  bestMatchFor' l = Ok (Some r) -> In r (tl excelData).
Proof.
  unfold bestMatchFor. intros Hb.
  bind_inv Hb as [csvLat csvLon] Hl. bind_inv Hb as rights Hsl.
  bind_inv Hb as [cd bm] Hscan. injection Hb as ->.
  destruct excelData as [|header rs]; [discriminate|].
  injection Hsl as <-. apply scanExcel_In in Hscan.
  destruct Hscan as [?|?]; [discriminate|assumption].
Qed.

Lemma bestMatchFor_total (l : row) :
  hasCoords csvLatCol csvLonCol l -> excelData <> [] ->
  Forall (hasCoords excelLatCol excelLonCol) (tl excelData) ->
  exists b, bestMatchFor' l = Ok b.
Proof.
  intros Hl Hne Hrights. unfold bestMatchFor.
  destruct (coords_Ok Hl) as [[csvLat csvLon] ->]. simpl.
  destruct excelData as [|header rights]; [contradiction|]. simpl in *.
  destruct (scanExcel_total csvLat csvLon Hrights (fconst 3) None)
    as [[cd bm] ->].
  simpl. eauto.
Qed.

Lemma distanceBetween_coords (l r : row) (csvLat csvLon : F) (p : F * F) :
  coords l csvLatCol csvLonCol = Ok (csvLat, csvLon) ->
  coords r excelLatCol excelLonCol = Ok p ->
  distanceBetween csvLatCol csvLonCol excelLatCol excelLonCol l r
    = Ok (haversine csvLat csvLon (fst p) (snd p)).
Proof.
  intros Hl Hr. unfold distanceBetween. rewrite Hl. simpl. rewrite Hr.
  destruct p. reflexivity.
Qed.

Section Nearest.

Context `{!Float64Order F}.

Lemma bestMatchFor_Some (l r : row) :
  bestMatchFor' l = Ok (Some r) ->
  nearestWithin excelData csvLatCol csvLonCol excelLatCol excelLonCol l r /\
  firstAtItsDistance excelData csvLatCol csvLonCol excelLatCol excelLonCol l r.
Proof.
  intros Hb. pose proof (bestMatchFor_In _ Hb) as Hin.
  unfold bestMatchFor in Hb.
  bind_inv Hb as [csvLat csvLon] E. bind_inv Hb as rights Hsl.
  bind_inv Hb as [cd bm] Hscan. injection Hb as ->.
  destruct excelData as [|header rs]; [discriminate|].
  injection Hsl as <-. simpl in *.
  apply scanExcel_inv in Hscan. destruct Hscan as [Hmin Hsel].
  destruct Hsel as [[_ ?]|(i & best & p & Hn & Hbest & Hc & -> & Hlt & Hfirst)];
    [discriminate|].
  injection Hbest as <-.
  pose proof (distanceBetween_coords _ _ E Hc) as Hd.
  split.
  - split; [assumption|]. eexists. split; [exact Hd|]. split; [assumption|].
    intros r' Hr'. destruct (Hmin r' Hr') as (q & Hq & Hge).
    eexists. split; [exact (distanceBetween_coords _ _ E Hq)|assumption].
  - exists i. eexists. split; [assumption|]. split; [exact Hd|].
    intros j r' Hj Hn'. destruct (Hfirst j r' Hj Hn') as (q & Hq & Hne).
    eexists. split; [exact (distanceBetween_coords _ _ E Hq)|assumption].
Qed.


Lemma bestMatchFor_None (l : row) :
  bestMatchFor' l = Ok None ->
  nothingWithin excelData csvLatCol csvLonCol excelLatCol excelLonCol l.
Proof.
  intros Hb.
  unfold bestMatchFor in Hb.
  bind_inv Hb as [csvLat csvLon] E. bind_inv Hb as rights Hsl.
  bind_inv Hb as [cd bm] Hscan. injection Hb as ->.
  destruct excelData as [|header rs]; [discriminate|].
  injection Hsl as <-.
  apply scanExcel_inv in Hscan. destruct Hscan as [Hmin Hsel].
  destruct Hsel as [[-> _]|(i & best & p & _ & ? & _)]; [|discriminate].
  intros r' Hr'. destruct (Hmin r' Hr') as (q & Hq & Hge).
  eexists. split; [exact (distanceBetween_coords _ _ E Hq)|assumption].
Qed.

(** C2.  Every row of [matched] is a left data row followed by a right data
    row that lies strictly under the 3.0 km threshold from it, and no right
    data row is strictly closer to that left row; the rows sent to
    [dangling] have no right row under the threshold. *)
Theorem matched_row_is_nearest_within_threshold
    (csvData : table) (matched dangling : list row) :
  joinDatasets csvData excelData csvLatCol csvLonCol excelLatCol excelLonCol
    = Ok (matched, dangling) ->
  exists header lefts, csvData = header :: lefts /\
    joinSplit
      (nearestWithin excelData csvLatCol csvLonCol excelLatCol excelLonCol)
      (nothingWithin excelData csvLatCol csvLonCol excelLatCol excelLonCol)
      lefts matched dangling.
Proof.
  intros Hj. apply joinDatasets_split in Hj.
  destruct Hj as (header & lefts & -> & Hs). exists header, lefts.
  split; [reflexivity|].
  eapply joinSplit_impl; [| |exact Hs]; simpl.
  - intros l r _ Hb. apply bestMatchFor_Some. assumption.
  - intros l _ Hb. apply bestMatchFor_None. assumption.
Qed.


End Nearest.

Lemma joinDatasets_partition (csvData : table) (matched dangling : list row) :
  joinDatasets csvData excelData csvLatCol csvLonCol excelLatCol excelLonCol
    = Ok (matched, dangling) ->
  exists header lefts, csvData = header :: lefts /\
    joinSplit (fun _ r => In r (tl excelData)) (fun _ => True)
      lefts matched dangling /\
    (List.length matched + List.length dangling = List.length lefts)%nat /\
    Forall (fun x => In x lefts) dangling /\
    Forall (fun x => exists l r, In l lefts /\ In r (tl excelData) /\
              x = l ++ r /\
              List.length x = (List.length l + List.length r)%nat) matched.
Proof.
  intros Hj. apply joinDatasets_split in Hj.
  destruct Hj as (header & lefts & -> & Hs). exists header, lefts.
  split; [reflexivity|].
  assert (Hs' : joinSplit (fun _ r => In r (tl excelData)) (fun _ => True)
                  lefts matched dangling).
  { eapply joinSplit_impl; [| |exact Hs]; simpl; [|trivial].
    intros l r _ Hb. eapply bestMatchFor_In. eassumption. }
  split; [assumption|].
  split; [eapply joinSplit_length; eassumption|].
  split.
  - eapply Forall_impl; [|eapply joinSplit_dangling; eassumption].
    simpl. tauto.
  - eapply joinSplit_matched. eassumption.
Qed.

Lemma joinDatasets_total (csvData : table) :
  csvData <> [] -> excelData <> [] ->
  Forall (hasCoords csvLatCol csvLonCol) (tl csvData) ->
  Forall (hasCoords excelLatCol excelLonCol) (tl excelData) ->
  exists matched dangling,
    joinDatasets csvData excelData csvLatCol csvLonCol excelLatCol excelLonCol
      = Ok (matched, dangling).
Proof.
  intros Hc He Hlefts Hrights. unfold joinDatasets.
  destruct csvData as [|header lefts]; [contradiction|]. simpl in *.
  apply joinLoop_total. intros l Hl.
  apply bestMatchFor_total; auto.
  rewrite Forall_forall in Hlefts. auto.
Qed.

(** C5.  Whenever the join returns, it has sent every left data row, in
    order, to exactly one of [matched] and [dangling]: a dangling row is the
    left row itself, a matched row is the left row followed by a right data
    row, so that its width is the sum of the two widths.  The join does
    return when both tables have a header row and every data row reaches
    its two coordinate columns. *)
Theorem join_partitions_left_rows (csvData : table) :
  (forall matched dangling,
     joinDatasets csvData excelData csvLatCol csvLonCol excelLatCol excelLonCol
       = Ok (matched, dangling) ->
     exists header lefts, csvData = header :: lefts /\
       joinSplit (fun _ r => In r (tl excelData)) (fun _ => True)
         lefts matched dangling /\
       (List.length matched + List.length dangling = List.length lefts)%nat /\
       Forall (fun x => In x lefts) dangling /\
       Forall (fun x => exists l r, In l lefts /\ In r (tl excelData) /\
                 x = l ++ r /\
                 List.length x = (List.length l + List.length r)%nat) matched)
  /\
  (csvData <> [] -> excelData <> [] ->
   Forall (hasCoords csvLatCol csvLonCol) (tl csvData) ->
   Forall (hasCoords excelLatCol excelLonCol) (tl excelData) ->
   exists matched dangling,
     joinDatasets csvData excelData csvLatCol csvLonCol excelLatCol excelLonCol
       = Ok (matched, dangling)).
Proof.
  split.
  - intros matched dangling. apply joinDatasets_partition.
  - apply joinDatasets_total.
Qed.

End JoinFacts.

(** The three statements on the tables [demoCsv] and [demoExcel]. *)

Lemma matched_row_is_nearest_within_threshold_witness :
  exists header lefts, demoCsv = header :: lefts /\
    joinSplit (nearestWithin (F:=R) demoExcel 4 5 1 2)
      (nothingWithin (F:=R) demoExcel 4 5 1 2) lefts
      [demoNear ++ demoFirst] [demoAway].
Proof.
  apply (matched_row_is_nearest_within_threshold (F:=R) demoExcel 4 5 1 2 demoCsv).
  exact demo_join.
Defined.


Lemma join_partitions_left_rows_witness :
  (exists header lefts, demoCsv = header :: lefts /\
     joinSplit (fun _ r => In r (tl demoExcel)) (fun _ => True) lefts
       [demoNear ++ demoFirst] [demoAway] /\
     (1 + 1 = List.length lefts)%nat) /\
  (exists matched dangling,
     joinDatasets (F:=R) demoCsv demoExcel 4 5 1 2 = Ok (matched, dangling)).
Proof.
  pose proof (join_partitions_left_rows (F:=R) demoExcel 4 5 1 2 demoCsv)
    as [Hpart Htotal].
  split.
  - destruct (Hpart _ _ demo_join) as (header & lefts & E & Hs & Hlen & _).
    exists header, lefts. auto.
  - apply Htotal; [discriminate | discriminate | |];
      repeat constructor; vm_compute; congruence.
Defined.

(* ------------------------------------------------------------------ *)
(** ** Normalization and regression *)

Lemma result_pbind {F A B : Type} (m : prog F A) (k : A -> prog F B) (a : A) :
  result m = Ok a -> result (pbind m k) = result (k a).
Proof.
  destruct m as [out r]. simpl. intros ->. simpl.
  destruct (k a). reflexivity.
Qed.

Lemma result_pbind_Panic {F A B : Type} (m : prog F A) (k : A -> prog F B)
    (msg : string) :
  result m = Panic msg -> result (pbind m k) = Panic msg.
Proof. destruct m as [out r]. simpl. intros ->. reflexivity. Qed.

Lemma printed_pbind {F A B : Type} (m : prog F A) (k : A -> prog F B) (a : A) :
  result m = Ok a -> printed (pbind m k) = printed m ++ printed (k a).
Proof.
  destruct m as [out r]. simpl. intros ->. simpl.
  destruct (k a). reflexivity.
Qed.

Section RegressionFacts.

Context {F : Type} `{Float64 F}.

Local Open Scope go_scope.
Local Open Scope f64_scope.

Lemma flattenLoop_Ok (x : list (list F)) :
  Forall (fun s => s <> []) x ->
  forall xFlat, exists xFlat',
    flattenLoop x xFlat = Ok xFlat' /\
    List.length xFlat' = (List.length xFlat + List.length x)%nat.
Proof.
  induction 1 as [|r rest Hr _ IH]; simpl; intros xFlat.
  - exists xFlat. split; [reflexivity|lia].
  - destruct r as [|r0 r']; [contradiction|]. simpl.
    destruct (IH (xFlat ++ [r0])) as (xFlat' & -> & Hlen).
    exists xFlat'. split; [reflexivity|].
    rewrite Hlen, length_app. simpl. lia.
Qed.

Lemma flattenLoop_empty_sample (x : list (list F)) :
  In [] x -> forall xFlat, flattenLoop x xFlat = Panic index_out_of_range.
Proof.
  induction x as [|r rest IH]; simpl; [contradiction|].
  intros [->|Hin] xFlat; [reflexivity|].
  destruct r as [|r0 r']; [reflexivity|]. simpl. apply IH. assumption.
Qed.

Lemma normalize_Ok (data : list F) :
  data <> [] ->
  normalize data =
  Ok (map (fun val => (val - minOf data) / (maxOf data - minOf data)) data).
Proof.
  destruct data as [|d0 rest]; [contradiction|]. intros _.
  unfold normalize, minOf, maxOf.
  change (index (d0 :: rest) 0) with (Ok d0). cbn [bind hd].
  destruct (minMaxLoop (d0 :: rest) d0 d0) as [minVal maxVal]. reflexivity.
Qed.

Lemma minMaxLoop_In (data : list F) :
  forall minVal maxVal,
    (fst (minMaxLoop data minVal maxVal) = minVal \/
     In (fst (minMaxLoop data minVal maxVal)) data) /\
    (snd (minMaxLoop data minVal maxVal) = maxVal \/
     In (snd (minMaxLoop data minVal maxVal)) data).
Proof.
  induction data as [|val rest IH]; simpl; intros minVal maxVal; [auto|].
  destruct (IH (if val <? minVal then val else minVal)
               (if maxVal <? val then val else maxVal)) as [Hmin Hmax].
  split.
  - destruct Hmin as [->|?]; [|auto]. destruct (val <? minVal); auto.
  - destruct Hmax as [->|?]; [|auto]. destruct (maxVal <? val); auto.
Qed.

Lemma minOf_In (data : list F) : data <> [] -> In (minOf data) data.
Proof.
  destruct data as [|d0 rest]; [contradiction|]. intros _. unfold minOf. cbn [hd].
  destruct (minMaxLoop_In (d0 :: rest) d0 d0) as [[->|?] _]; simpl; auto.
Qed.

Lemma maxOf_In (data : list F) : data <> [] -> In (maxOf data) data.
Proof.
  destruct data as [|d0 rest]; [contradiction|]. intros _. unfold maxOf. cbn [hd].
  destruct (minMaxLoop_In (d0 :: rest) d0 d0) as [_ [->|?]]; simpl; auto.
Qed.

Lemma previewLoop_Ok (y xFlat : list F) (ixs : list nat) :
  Forall (fun i => (i < List.length y)%nat /\ (i < List.length xFlat)%nat) ixs ->
  result (previewLoop y xFlat ixs) = Ok tt.
Proof.
  induction 1 as [|i rest [Hy Hx] _ IH]; cbn [previewLoop]; [reflexivity|].
  destruct (@index_Ok _ y (Z.of_nat i)) as [yi Eyi]; [unfold len; lia|].
  destruct (@index_Ok _ xFlat (Z.of_nat i)) as [xi Exi]; [unfold len; lia|].
  rewrite (result_pbind _ _ (a := yi)) by exact Eyi.
  rewrite (result_pbind _ _ (a := xi)) by exact Exi.
  rewrite (result_pbind _ _ (a := tt)) by reflexivity.
  exact IH.
Qed.

Lemma rSquaredLoop_Ok (y xFlat : list F) (alpha beta yMean : F)
    (ixs : list nat) :
  Forall (fun i => (i < List.length y)%nat /\ (i < List.length xFlat)%nat) ixs ->
  forall ssTotal ssResidual, exists st,
    rSquaredLoop y xFlat alpha beta yMean ixs ssTotal ssResidual = Ok st.
Proof.
  induction 1 as [|i rest [Hy Hx] _ IH]; simpl; intros ssTotal ssResidual;
    [eauto|].
  destruct (@index_Ok _ y (Z.of_nat i)) as [yi ->]; [unfold len; lia|].
  destruct (@index_Ok _ xFlat (Z.of_nat i)) as [xi ->]; [unfold len; lia|].
  simpl. apply IH.
Qed.

Lemma LinearRegression_Ok (x y : list F) :
  List.length x = List.length y -> exists ab, LinearRegression x y = Ok ab.
Proof.
  intros Hlen. unfold LinearRegression, len. rewrite Hlen, Z.eqb_refl. simpl.
  destruct (MeanVariance x). eauto.
Qed.

Lemma seq_below (n m : nat) :
  (n <= m)%nat -> Forall (fun i => (i < m)%nat /\ (i < m)%nat) (seq 0 n).
Proof.
  intros Hnm. apply Forall_forall. intros i Hi. apply in_seq in Hi. lia.
Qed.

(** On well-shaped input every step returns, whatever the values are. *)
Lemma runRegression_completes (y : list F) (x : list (list F)) :
  wellShaped y x -> result (runRegression y x) = Ok tt.
Proof.
  intros (Hy & Hlen & Hx). unfold runRegression.
  assert (Hins : insufficient y x = Ok false).
  { unfold insufficient, len.
    destruct y as [|y0 y']; [contradiction|].
    destruct x as [|x0 x']; [discriminate|].
    inversion Hx as [|? ? Hx0 _]; subst.
    destruct x0; [contradiction|]. reflexivity. }
  rewrite (result_pbind _ _ (a := false)) by exact Hins.
  destruct (flattenLoop_Ok Hx []) as (xFlat & Eflat & Hflat).
  simpl in Hflat.
  rewrite (result_pbind _ _ (a := xFlat)) by exact Eflat.
  assert (Hne : xFlat <> []).
  { destruct xFlat; [|discriminate]. destruct y; [contradiction|].
    simpl in *. lia. }
  rewrite (result_pbind _ _ (a := _)) by exact (normalize_Ok Hne).
  set (scaled := map _ xFlat).
  assert (Hscaled : List.length scaled = List.length y).
  { unfold scaled. rewrite length_map. lia. }
  rewrite (result_pbind _ _ (a := tt)) by reflexivity.
  rewrite (result_pbind _ _ (a := tt)).
  2:{ apply previewLoop_Ok. rewrite Hscaled. apply seq_below. lia. }
  destruct (@LinearRegression_Ok y scaled) as [[alpha beta] Elr];
    [lia|].
  rewrite (result_pbind _ _ (a := (alpha, beta))) by exact Elr.
  rewrite (result_pbind _ _ (a := tt)) by reflexivity.
  destruct (@rSquaredLoop_Ok y scaled alpha beta (Mean y) (seq 0 (List.length y)))
    with (ssTotal := fconst 0) (ssResidual := fconst 0) as [[ssTotal ssResidual] Er2].
  { rewrite Hscaled. apply seq_below. lia. }
  rewrite (result_pbind _ _ (a := (ssTotal, ssResidual))) by exact Er2.
  reflexivity.
Qed.

(** C7.  When the target vector is empty, or the sample list is empty, or
    some sample has no predictor, [runRegression] does not return: it ends
    in [log.Fatalf] (the guard at its head) or in the panic of [row[0]] on a
    later empty sample. *)
Theorem fit_fails_on_missing_data (y : list F) (x : list (list F)) :
  y = [] \/ x = [] \/ In [] x ->
  result (runRegression y x) = Fatal insufficient_data \/
  result (runRegression y x) = Panic index_out_of_range.
Proof.
  intros Hbad. unfold runRegression.
  destruct x as [|x0 x'].
  { left. reflexivity. }
  destruct y as [|y0 y'].
  { left. reflexivity. }
  destruct x0 as [|x00 x0'].
  { left. reflexivity. }
  right. destruct Hbad as [?|[?|[?|Hin]]]; try discriminate.
  rewrite (result_pbind _ _ (a := false)) by reflexivity.
  apply result_pbind_Panic. simpl.
  apply flattenLoop_empty_sample. assumption.
Qed.

End RegressionFacts.

Lemma fit_fails_on_missing_data_witness :
  result (runRegression (F:=float) [1; 2]%float [[5]%float; []])
    = Fatal insufficient_data \/
  result (runRegression (F:=float) [1; 2]%float [[5]%float; []])
    = Panic index_out_of_range.
Proof.
  apply (fit_fails_on_missing_data (F:=float)).
  right. right. simpl. auto.
Defined.

(** *** The fit on the noiseless line *)

(** C1.  On the noiseless line [y = 2 + 3 * x_norm], [x] in [{0,...,9}],
    [runRegression] prints the model [-2/3 + 1/3 * Predictor] and
    [R-squared = -15365/891] in exact arithmetic: [stat.LinearRegression]
    receives the target as its first argument and so regresses the
    normalized predictor on the target.  The same call with its two slices
    in the order of the package returns [alpha = 2] and [beta = 3]. *)
Theorem regression_regresses_predictor_on_target :
  runRegression (F:=Q) syntheticY syntheticSamples =
    ([SampleTitle;
      Sample 0 2 0; Sample 1 (7 # 3) (1 # 9); Sample 2 (8 # 3) (2 # 9);
      Sample 3 3 (1 # 3); Sample 4 (10 # 3) (4 # 9); Sample 5 (11 # 3) (5 # 9);
      Sample 6 4 (2 # 3); Sample 7 (13 # 3) (7 # 9); Sample 8 (14 # 3) (8 # 9);
      Sample 9 5 1;
      Model (-2 # 3) (1 # 3); RSquared (-15365 # 891)]%Q, Ok tt) /\
  normalize syntheticX = Ok syntheticNormalized /\
  LinearRegression syntheticNormalized syntheticY = Ok (2, 3)%Q.
Proof. repeat split; vm_compute; reflexivity. Qed.

(** *** Degenerate values *)






(** *** The range of [normalize] *)

(** C8, as the code refutes it: the range of two finite doubles overflows,
    and the largest value is sent to NaN instead of 1.0. *)
Lemma normalize_overflow :
  normalize (F:=float) [-0x1p1023; 0x1p1023]%float = Ok [0%float; nan].
Proof. vm_compute. reflexivity. Qed.

Lemma normalize_binary64 (data : list float) :
  Forall (fun v => is_finite v = true) data ->
  (exists a b, In a data /\ In b data /\ (a =? b)%float = false) ->
  is_finite (maxOf data - minOf data)%f64 = true ->
  exists out, normalize data = Ok out /\
    List.length out = List.length data /\
    Forall (fun q => (0 <=? q)%float = true /\ (q <=? 1)%float = true) out /\
    In 0%float out /\ In 1%float out /\
    (forall i, nth_error data i = Some (minOf data) ->
               nth_error out i = Some 0%float) /\
    (forall i, nth_error data i = Some (maxOf data) ->
               nth_error out i = Some 1%float).
Proof.
  intros Hfin (a & b & Ha & Hb & Hab) Hrange.
  assert (Hne : data <> []) by (destruct data; [contradiction|discriminate]).
  rewrite normalize_Ok by assumption.
  pose proof (minOf_In Hne) as Hmin. pose proof (maxOf_In Hne) as Hmax.
  rewrite Forall_forall in Hfin.
  assert (Fmn : is_finite (minOf data) = true) by auto.
  assert (Fmx : is_finite (maxOf data) = true) by auto.
  assert (Hall : forall v, In v data ->
            (valZ (minOf data) <= valZ v <= valZ (maxOf data))%Z).
  { intros v Hv. unfold minOf, maxOf.
    destruct data as [|d0 rest]; [contradiction|]. cbn [hd].
    destruct (minMaxLoop_binary64 (d0 :: rest)) with (minVal := d0) (maxVal := d0)
      as (_ & _ & _ & _ & Hbounds).
    - apply Forall_forall. assumption.
    - apply Hfin. left. reflexivity.
    - apply Hfin. left. reflexivity.
    - apply Hbounds. assumption. }
  assert (Hlt : (valZ (minOf data) < valZ (maxOf data))%Z).
  { rewrite b64_eqb in Hab by auto. apply Z.eqb_neq in Hab.
    pose proof (Hall a Ha). pose proof (Hall b Hb). lia. }
  cbn [fsub binary64] in Hrange.
  pose proof (range_positive_finite _ _ Fmn Fmx Hlt Hrange) as Hpos.
  set (g := fun val : float => ((val - minOf data) / (maxOf data - minOf data))%f64).
  assert (Hgmin : g (minOf data) = 0%float).
  { unfold g. cbn [fsub fdiv binary64]. rewrite sub_self by assumption.
    apply zero_div. assumption. }
  assert (Hgmax : g (maxOf data) = 1%float).
  { unfold g. cbn [fsub fdiv binary64]. apply div_self. assumption. }
  exists (map g data). split; [reflexivity|].
  split; [apply length_map|].
  split; [|split; [|split; [|split]]].
  - apply Forall_forall. intros q Hq. apply in_map_iff in Hq.
    destruct Hq as (v & <- & Hv). unfold g. cbn [fsub fdiv binary64].
    destruct (Hall v Hv).
    apply quotient_in_unit_interval; auto.
  - rewrite <- Hgmin. apply in_map. assumption.
  - rewrite <- Hgmax. apply in_map. assumption.
  - intros i Hi. rewrite nth_error_map, Hi. simpl. congruence.
  - intros i Hi. rewrite nth_error_map, Hi. simpl. congruence.
Qed.

Local Open Scope R_scope.



(** C8, amended.  For every vector of finite doubles that are not all
    equal and whose range [max - min] does not overflow, the output of
    [normalize] has the length of the input, every output lies between 0.0
    and 1.0, and 0.0 and 1.0 are both reached: exactly 0.0 stands wherever
    the input holds its minimum and exactly 1.0 wherever it holds its
    maximum. *)
Theorem normalize_range (data : list float) :
  Forall (fun v => is_finite v = true) data ->
  (exists a b, In a data /\ In b data /\ (a =? b)%float = false) ->
  is_finite (maxOf data - minOf data)%f64 = true ->
  exists out, normalize data = Ok out /\
    List.length out = List.length data /\
    Forall (fun q => (0 <=? q)%float = true /\ (q <=? 1)%float = true) out /\
    In 0%float out /\ In 1%float out /\
    (forall i, nth_error data i = Some (minOf data) ->
               nth_error out i = Some 0%float) /\
    (forall i, nth_error data i = Some (maxOf data) ->
               nth_error out i = Some 1%float).
Proof.
  intros Hfin Hdiff Hrange.
  destruct (normalize_binary64 Hfin Hdiff Hrange) as (out & Hout).
  exists out. exact Hout.
Qed.

Lemma normalize_range_witness :
  exists out, normalize [1; 2; 4]%float = Ok out /\
    List.length out = 3%nat /\
    Forall (fun q => (0 <=? q)%float = true /\ (q <=? 1)%float = true) out /\
    In 0%float out /\ In 1%float out.
Proof.
  destruct (normalize_range (data := [1; 2; 4]%float))
    as (out & E & Hlen & Hall & H0 & H1 & _).
  - repeat constructor.
  - exists 1%float, 2%float. simpl. auto.
  - vm_compute. reflexivity.
  - exists out. auto.
Defined.

(** *** Great-circle distance *)


Local Close Scope R_scope.

(* ------------------------------------------------------------------ *)
(** ** Short rows and the composed pipeline *)

Section PipelineFacts.

Context {F : Type} `{Float64 F} `{Libm F} `{GoText F}.

Local Open Scope go_scope.

(** C3.  A data row that stops before the latitude column makes
    [joinDatasets] panic with [index out of range], on the left as on the
    right, whereas [filterAlgeria] and [extractRegressionData] test
    [len(row)] before they index and pass over a short row. *)
Theorem join_panics_on_short_row (header : row) (excelData : table) :
  joinDatasets [header; ["Algeria"%string]] excelData 4 5 1 2
    = Panic index_out_of_range /\
  joinDatasets [header; demoNear] [header; ["Algeria"%string]] 4 5 1 2
    = Panic index_out_of_range /\
  filterAlgeria [[]] 0 = Ok [] /\
  extractRegressionData [["Algeria"%string]] 10 [6; 7; 8]%Z = Ok ([], []).
Proof. repeat split. Qed.

(** *** The filter at column 0 *)

Lemma isAlgeria_0 (r : row) : isAlgeria 0 r = Ok (keepsAlgeria r).
Proof.
  destruct r as [|c r']; [reflexivity|].
  unfold isAlgeria, len. cbn [List.length]. rewrite Nat2Z.inj_succ.
  destruct (Z.gtb_spec (Z.succ (Z.of_nat (List.length r'))) 0); [|lia].
  reflexivity.
Qed.

Lemma filterLoop_0 (data : table) :
  forall acc, filterLoop 0 data acc = Ok (acc ++ filter keepsAlgeria data).
Proof.
  induction data as [|r rest IH]; intros acc; cbn [filterLoop filter].
  - rewrite app_nil_r. reflexivity.
  - rewrite isAlgeria_0. cbn [bind].
    destruct (keepsAlgeria r); rewrite IH; [|reflexivity].
    rewrite <- app_assoc. reflexivity.
Qed.

Lemma filterAlgeria_0 (data : table) :
  filterAlgeria data 0 = Ok (filter keepsAlgeria data).
Proof. unfold filterAlgeria. rewrite filterLoop_0. reflexivity. Qed.

(** *** The first row of each table given to the join *)

Lemma bestMatchFor_skips_first (h h' : row) (rights : table)
    (c1 c2 c3 c4 : Z) (l : row) :
  bestMatchFor (h :: rights) c1 c2 c3 c4 l
  = bestMatchFor (h' :: rights) c1 c2 c3 c4 l.
Proof. reflexivity. Qed.

Lemma joinLoop_skips_first (h h' : row) (rights : table)
    (c1 c2 c3 c4 : Z) (rows : list row) :
  forall joined dangling,
    joinLoop (h :: rights) c1 c2 c3 c4 rows joined dangling
    = joinLoop (h' :: rights) c1 c2 c3 c4 rows joined dangling.
Proof.
  induction rows as [|l rest IH]; intros joined dangling; cbn [joinLoop];
    [reflexivity|].
  rewrite (bestMatchFor_skips_first h h').
  destruct (bestMatchFor (h' :: rights) c1 c2 c3 c4 l) as [[m|]| |];
    cbn [bind]; auto.
Qed.

Lemma joinDatasets_skips_first (k k' h h' : row) (lefts rights : table)
    (c1 c2 c3 c4 : Z) :
  joinDatasets (k :: lefts) (h :: rights) c1 c2 c3 c4
  = joinDatasets (k' :: lefts) (h' :: rights) c1 c2 c3 c4.
Proof. unfold joinDatasets. cbn [slice_from_1 bind]. apply joinLoop_skips_first. Qed.

(** *** What [main] prints before the join *)

Lemma main_prints_counts (csvHeader excelHeader : row)
    (csvRows excelRows : table) :
  exists rest,
    printed (main (csvHeader :: csvRows) (excelHeader :: excelRows)) =
    [CsvHeaders csvHeader; ExcelHeaders excelHeader;
     FilteredCsv (len (filter keepsAlgeria (csvHeader :: csvRows)) - 1);
     FilteredExcel (len (filter keepsAlgeria (excelHeader :: excelRows)) - 1)]
    ++ rest.
Proof.
  unfold main. cbv beta iota zeta.
  rewrite (printed_pbind _ _ (a := csvHeader)) by reflexivity.
  rewrite (printed_pbind _ _ (a := tt)) by reflexivity.
  rewrite (printed_pbind _ _ (a := excelHeader)) by reflexivity.
  rewrite (printed_pbind _ _ (a := tt)) by reflexivity.
  rewrite (printed_pbind _ _ (a := _)) by apply filterAlgeria_0.
  rewrite (printed_pbind _ _ (a := _)) by apply filterAlgeria_0.
  rewrite (printed_pbind _ _ (a := tt)) by reflexivity.
  rewrite (printed_pbind _ _ (a := tt)) by reflexivity.
  cbn [printed lift say fst app]. eexists. reflexivity.
Qed.

(** C10.  When neither header row passes the country test, the filter
    returns the country's data rows alone; [main] prints one less than
    their number for each table; and the join, taking the first filtered
    row of each table for a header, partitions only the left rows after the
    first: its result does not depend on that first row, which stands in
    [dangling] only if an equal row follows it. *)
Theorem first_filtered_row_is_taken_for_a_header
    (csvHeader excelHeader : row) (csvRows excelRows : table) :
  keepsAlgeria csvHeader = false ->
  keepsAlgeria excelHeader = false ->
  let algeriaCSV := filter keepsAlgeria csvRows in
  let algeriaExcel := filter keepsAlgeria excelRows in
  filterAlgeria (csvHeader :: csvRows) 0 = Ok algeriaCSV /\
  filterAlgeria (excelHeader :: excelRows) 0 = Ok algeriaExcel /\
  Forall (fun r => keepsAlgeria r = true) algeriaCSV /\
  Forall (fun r => keepsAlgeria r = true) algeriaExcel /\
  (exists rest,
     printed (main (csvHeader :: csvRows) (excelHeader :: excelRows)) =
     [CsvHeaders csvHeader; ExcelHeaders excelHeader;
      FilteredCsv (len algeriaCSV - 1);
      FilteredExcel (len algeriaExcel - 1)] ++ rest) /\
  (forall first others matched dangling,
     algeriaCSV = first :: others ->
     joinDatasets algeriaCSV algeriaExcel 4 5 1 2 = Ok (matched, dangling) ->
     joinSplit (fun _ r => In r (tl algeriaExcel)) (fun _ => True)
       others matched dangling /\
     (len matched + len dangling = len algeriaCSV - 1)%Z /\
     (forall first',
        joinDatasets (first' :: others) algeriaExcel 4 5 1 2
          = Ok (matched, dangling)) /\
     (~ In first others -> ~ In first dangling)).
Proof.
  intros HcsvH HexcelH algeriaCSV algeriaExcel.
  assert (Ecsv : filter keepsAlgeria (csvHeader :: csvRows) = algeriaCSV)
    by (cbn [filter]; rewrite HcsvH; reflexivity).
  assert (Eexcel : filter keepsAlgeria (excelHeader :: excelRows) = algeriaExcel)
    by (cbn [filter]; rewrite HexcelH; reflexivity).
  split; [rewrite filterAlgeria_0, Ecsv; reflexivity|].
  split; [rewrite filterAlgeria_0, Eexcel; reflexivity|].
  split; [apply Forall_forall; intros r Hr; apply filter_In in Hr; tauto|].
  split; [apply Forall_forall; intros r Hr; apply filter_In in Hr; tauto|].
  split.
  { destruct (main_prints_counts csvHeader excelHeader csvRows excelRows)
      as [rest Hrest].
    exists rest. rewrite Hrest, Ecsv, Eexcel. reflexivity. }
  intros first others matched dangling Hfirst Hjoin.
  rewrite Hfirst in *.
  destruct (joinDatasets_partition _ _ _ _ _ _ Hjoin)
    as (header & lefts & E & Hs & Hlen & Hd & _).
  injection E as <- <-.
  split; [assumption|].
  split; [unfold len; cbn [List.length]; lia|].
  split.
  - intros first'. rewrite <- Hjoin. reflexivity.
  - intros Hnot Hin. rewrite Forall_forall in Hd. apply Hnot, Hd, Hin.
Qed.

End PipelineFacts.

Lemma raw_join :
  joinDatasets (F:=R) (filter keepsAlgeria (tl rawCsv))
    (filter keepsAlgeria (tl rawExcel)) 4 5 1 2
  = Ok ([demoNear ++ demoFirst], [demoAway]).
Proof.
  rewrite <- demo_join.
  change (filter keepsAlgeria (tl rawCsv))
    with (demoSkipped :: tl demoCsv).
  change (filter keepsAlgeria (tl rawExcel))
    with (demoSkippedRight :: tl demoExcel).
  apply joinDatasets_skips_first.
Qed.

Lemma first_filtered_row_is_taken_for_a_header_witness :
  filterAlgeria (F:=R) rawCsv 0 = Ok [demoSkipped; demoNear; demoAway] /\
  (exists rest,
     printed (main (F:=R) rawCsv rawExcel) =
     [CsvHeaders demoCsvHeader; ExcelHeaders demoExcelHeader;
      FilteredCsv 2; FilteredExcel 3] ++ rest) /\
  joinSplit (fun _ r => In r [demoFar; demoFirst; demoSecond])
    (fun _ => True) [demoNear; demoAway] [demoNear ++ demoFirst] [demoAway] /\
  ~ In demoSkipped [demoAway].
Proof.
  destruct (first_filtered_row_is_taken_for_a_header (F:=R)
              demoCsvHeader demoExcelHeader (tl rawCsv) (tl rawExcel))
    as (Hcsv & _ & _ & _ & Hprinted & Hjoin); [reflexivity | reflexivity |].
  destruct (Hjoin demoSkipped [demoNear; demoAway]
              [demoNear ++ demoFirst] [demoAway] eq_refl raw_join)
    as (Hsplit & _ & _ & Hskipped).
  split; [exact Hcsv|].
  split; [exact Hprinted|].
  split; [exact Hsplit|].
  apply Hskipped. simpl. intros [E|[E|[]]]; discriminate.
Defined.


(* ------------------------------------------------------------------ *)
(** ** Further properties: the filter and the extraction *)

Section FilterFacts.

Context {F : Type} `{GoText F}.

Local Open Scope go_scope.

Lemma isAlgeria_nonneg (countryCol : Z) (r : row) :
  (0 <= countryCol)%Z -> isAlgeria countryCol r = Ok (keepsAt countryCol r).
Proof.
  intros Hc. unfold isAlgeria, keepsAt, index, len.
  destruct (Z.ltb_spec countryCol 0); [lia|].
  destruct (Z.gtb_spec (Z.of_nat (List.length r)) countryCol) as [Hlen|Hlen].
  - destruct (nth_error r (Z.to_nat countryCol)) eqn:E; [reflexivity|].
    apply nth_error_None in E. lia.
  - assert (E : nth_error r (Z.to_nat countryCol) = None)
      by (apply nth_error_None; lia).
    rewrite E. reflexivity.
Qed.

Lemma isAlgeria_negative (countryCol : Z) (r : row) :
  (countryCol < 0)%Z -> isAlgeria countryCol r = Panic index_out_of_range.
Proof.
  intros Hc. unfold isAlgeria, index, len.
  destruct (Z.gtb_spec (Z.of_nat (List.length r)) countryCol); [|lia].
  destruct (Z.ltb_spec countryCol 0); [reflexivity|lia].
Qed.

Lemma filterLoop_nonneg (countryCol : Z) (data : table) :
  (0 <= countryCol)%Z ->
  forall acc, filterLoop countryCol data acc
              = Ok (acc ++ filter (keepsAt countryCol) data).
Proof.
  intros Hc. induction data as [|r rest IH]; intros acc;
    cbn [filterLoop filter].
  - rewrite app_nil_r. reflexivity.
  - rewrite isAlgeria_nonneg by assumption. cbn [bind].
    destruct (keepsAt countryCol r); rewrite IH; [|reflexivity].
    rewrite <- app_assoc. reflexivity.
Qed.

Lemma filterAlgeria_nonneg (data : table) (countryCol : Z) :
  (0 <= countryCol)%Z ->
  filterAlgeria data countryCol = Ok (filter (keepsAt countryCol) data).
Proof. intros Hc. unfold filterAlgeria. apply filterLoop_nonneg. assumption. Qed.

Lemma filterAlgeria_negative (data : table) (countryCol : Z) :
  (countryCol < 0)%Z ->
  filterAlgeria data countryCol
  = match data with
    | [] => Ok []
    | _ :: _ => Panic index_out_of_range
    end.
Proof.
  intros Hc. unfold filterAlgeria. destruct data as [|r rest]; [reflexivity|].
  cbn [filterLoop]. rewrite isAlgeria_negative by assumption. reflexivity.
Qed.

(** X1.  At a column index that is not negative, [filterAlgeria] never
    fails: it returns, in their order, exactly the rows that have a cell at
    that column folding to "Algeria"; a row too short for the column is
    left out. *)
Theorem filterAlgeria_is_a_filter (data : table) (countryCol : Z) :
  (0 <= countryCol)%Z ->
  filterAlgeria data countryCol = Ok (filter (keepsAt countryCol) data).
Proof. apply filterAlgeria_nonneg. Qed.

(** X2.  At a negative column index, [filterAlgeria] panics on every table
    that has a row, since [len(row) > countryCol] holds of every row and
    [row[countryCol]] is then out of range; on the empty table it returns
    the empty table. *)
Theorem filterAlgeria_negative_column (data : table) (countryCol : Z) :
  (countryCol < 0)%Z ->
  filterAlgeria data countryCol
  = match data with
    | [] => Ok []
    | _ :: _ => Panic index_out_of_range
    end.
Proof. apply filterAlgeria_negative. Qed.

Lemma filter_twice {A : Type} (f : A -> bool) (l : list A) :
  filter f (filter f l) = filter f l.
Proof.
  induction l as [|a l IH]; cbn [filter]; [reflexivity|].
  destruct (f a) eqn:E; cbn [filter]; [rewrite E, IH; reflexivity|exact IH].
Qed.

(** X3.  Whatever the column, a table that [filterAlgeria] returned passes
    the filter unchanged, and every row of it has a cell at that column
    folding to "Algeria". *)
Theorem filterAlgeria_idempotent (data kept : table) (countryCol : Z) :
  filterAlgeria data countryCol = Ok kept ->
  filterAlgeria kept countryCol = Ok kept /\
  Forall (fun r => isAlgeria countryCol r = Ok true) kept /\
  (List.length kept <= List.length data)%nat.
Proof.
  intros Hf. destruct (Z.lt_ge_cases countryCol 0) as [Hneg|Hpos].
  - rewrite filterAlgeria_negative in Hf by assumption.
    destruct data; [|discriminate]. injection Hf as <-.
    split; [reflexivity|split; [constructor|simpl; lia]].
  - rewrite filterAlgeria_nonneg in Hf by lia. injection Hf as <-.
    split; [rewrite filterAlgeria_nonneg, filter_twice by lia; reflexivity|].
    split.
    + apply Forall_forall. intros r Hr. apply filter_In in Hr.
      rewrite isAlgeria_nonneg by lia. f_equal. tauto.
    + apply filter_length_le.
Qed.

End FilterFacts.

Section ExtractFacts.

Context {F : Type} `{Float64 F} `{GoText F}.

Local Open Scope go_scope.

Lemma predictorLoop_nonneg (r : row) (independentIndexes : list Z) :
  Forall (fun idx => (0 <= idx)%Z) independentIndexes ->
  forall x, predictorLoop r independentIndexes x
            = Ok (x ++ predictorsOf independentIndexes r).
Proof.
  induction 1 as [|idx rest Hidx _ IH]; intros x;
    cbn [predictorLoop predictorsOf flat_map].
  - rewrite app_nil_r. reflexivity.
  - unfold index, len.
    destruct (Z.ltb_spec idx 0); [lia|].
    destruct (Z.gtb_spec (Z.of_nat (List.length r)) idx) as [Hlen|Hlen].
    + destruct (nth_error r (Z.to_nat idx)) eqn:E.
      * cbn [bind]. rewrite IH, <- app_assoc. reflexivity.
      * apply nth_error_None in E. lia.
    + assert (E : nth_error r (Z.to_nat idx) = None)
        by (apply nth_error_None; lia).
      rewrite E, IH. reflexivity.
Qed.

Lemma extractLoop_nonneg (flaringVolIndex : Z) (independentIndexes : list Z)
    (joinedData : table) :
  (0 <= flaringVolIndex)%Z ->
  Forall (fun idx => (0 <= idx)%Z) independentIndexes ->
  forall target predictors,
    extractLoop joinedData flaringVolIndex independentIndexes target predictors
    = Ok (target ++ map (targetOf flaringVolIndex)
                      (filter (reaches flaringVolIndex) joinedData),
          predictors ++ map (predictorsOf independentIndexes)
                          (filter (reaches flaringVolIndex) joinedData)).
Proof.
  intros Ht Hidx. induction joinedData as [|r rest IH];
    intros target predictors; cbn [extractLoop filter map].
  - rewrite !app_nil_r. reflexivity.
  - change (len r >? flaringVolIndex)%Z with (reaches flaringVolIndex r).
    destruct (reaches flaringVolIndex r) eqn:Hlen; unfold reaches in Hlen.
    + unfold index. destruct (Z.ltb_spec flaringVolIndex 0); [lia|].
      destruct (nth_error r (Z.to_nat flaringVolIndex)) eqn:E.
      * cbn [bind]. rewrite predictorLoop_nonneg by assumption. cbn [bind app].
        rewrite IH. cbn [map]. rewrite <- !app_assoc. cbn [app].
        unfold targetOf at 2. rewrite (nth_error_nth _ _ _ E). reflexivity.
      * apply nth_error_None in E. apply Z.gtb_lt in Hlen. unfold len in Hlen. lia.
    + apply IH.
Qed.

Lemma extractRegressionData_nonneg (joinedData : table)
    (flaringVolIndex : Z) (independentIndexes : list Z) :
  (0 <= flaringVolIndex)%Z ->
  Forall (fun idx => (0 <= idx)%Z) independentIndexes ->
  extractRegressionData joinedData flaringVolIndex independentIndexes
  = Ok (map (targetOf flaringVolIndex)
          (filter (reaches flaringVolIndex) joinedData),
        map (predictorsOf independentIndexes)
          (filter (reaches flaringVolIndex) joinedData)).
Proof.
  intros Ht Hidx. unfold extractRegressionData.
  rewrite extractLoop_nonneg by assumption. reflexivity.
Qed.

(** X4.  With indices that are not negative, [extractRegressionData] never
    fails and is a filter followed by two maps: the rows longer than
    [flaringVolIndex] give, in their order, one target (the parsed cell at
    that index) and one predictor vector (the parsed cells at those of
    [independentIndexes] that the row reaches); shorter rows give
    nothing. *)
Theorem extractRegressionData_closed_form (joinedData : table)
    (flaringVolIndex : Z) (independentIndexes : list Z) :
  (0 <= flaringVolIndex)%Z ->
  Forall (fun idx => (0 <= idx)%Z) independentIndexes ->
  extractRegressionData joinedData flaringVolIndex independentIndexes
  = Ok (map (targetOf flaringVolIndex)
          (filter (reaches flaringVolIndex) joinedData),
        map (predictorsOf independentIndexes)
          (filter (reaches flaringVolIndex) joinedData)).
Proof. apply extractRegressionData_nonneg. Qed.

Lemma predictorLoop_length (r : row) (independentIndexes : list Z) :
  forall x x', predictorLoop r independentIndexes x = Ok x' ->
    (List.length x <= List.length x'
     <= List.length x + List.length independentIndexes)%nat.
Proof.
  induction independentIndexes as [|idx rest IH]; intros x x';
    cbn [predictorLoop].
  - intros [= <-]. simpl. lia.
  - destruct (len r >? idx)%Z.
    + destruct (index r idx); cbn [bind]; try discriminate.
      intros Hp. apply IH in Hp. rewrite length_app in Hp. simpl in *. lia.
    + intros Hp. apply IH in Hp. simpl. lia.
Qed.

Lemma extractLoop_shape (flaringVolIndex : Z) (independentIndexes : list Z)
    (joinedData : table) :
  forall target predictors y x,
    extractLoop joinedData flaringVolIndex independentIndexes target predictors
      = Ok (y, x) ->
    List.length target = List.length predictors ->
    Forall (fun s => (List.length s <= List.length independentIndexes)%nat)
      predictors ->
    List.length y = List.length x /\
    (List.length y <= List.length target + List.length joinedData)%nat /\
    Forall (fun s => (List.length s <= List.length independentIndexes)%nat) x.
Proof.
  induction joinedData as [|r rest IH]; intros target predictors y x;
    cbn [extractLoop].
  - intros [= <- <-] Hlen Hall. simpl. repeat split; auto. lia.
  - destruct (len r >? flaringVolIndex)%Z.
    + destruct (index r flaringVolIndex) as [c| |]; cbn [bind]; try discriminate.
      destruct (predictorLoop r independentIndexes []) as [p| |] eqn:Ep;
        cbn [bind]; try discriminate.
      intros He Hlen Hall. apply IH in He.
      * rewrite length_app in He. simpl in *. destruct He as (? & ? & ?).
        repeat split; auto. lia.
      * rewrite !length_app. simpl. lia.
      * apply Forall_app. split; [assumption|]. constructor; [|constructor].
        apply predictorLoop_length in Ep. simpl in Ep. lia.
    + intros He Hlen Hall. apply IH in He; auto.
      destruct He as (? & ? & ?). simpl. repeat split; auto. lia.
Qed.

Lemma extractRegressionData_lengths (joinedData : table)
    (flaringVolIndex : Z) (independentIndexes : list Z)
    (y : list F) (x : list (list F)) :
  extractRegressionData joinedData flaringVolIndex independentIndexes
    = Ok (y, x) ->
  List.length y = List.length x /\
  (List.length y <= List.length joinedData)%nat /\
  Forall (fun s => (List.length s <= List.length independentIndexes)%nat) x.
Proof.
  intros He. apply extractLoop_shape in He; auto.
Qed.

(** X5.  Whenever [extractRegressionData] returns, it returns as many
    predictor vectors as targets, no more than there are joined rows, and no
    predictor vector is longer than [independentIndexes]. *)
Theorem extractRegressionData_shape (joinedData : table)
    (flaringVolIndex : Z) (independentIndexes : list Z)
    (y : list F) (x : list (list F)) :
  extractRegressionData joinedData flaringVolIndex independentIndexes
    = Ok (y, x) ->
  List.length y = List.length x /\
  (List.length y <= List.length joinedData)%nat /\
  Forall (fun s => (List.length s <= List.length independentIndexes)%nat) x.
Proof. apply extractRegressionData_lengths. Qed.

Lemma predictorsOf_full (independentIndexes : list Z) (r : row) :
  Forall (fun idx => (0 <= idx < len r)%Z) independentIndexes ->
  List.length (predictorsOf (F:=F) independentIndexes r)
  = List.length independentIndexes.
Proof.
  induction 1 as [|idx rest Hidx _ IH]; cbn [predictorsOf flat_map];
    [reflexivity|].
  destruct (nth_error r (Z.to_nat idx)) eqn:E.
  - cbn [app List.length]. f_equal. exact IH.
  - apply nth_error_None in E. unfold len in Hidx. lia.
Qed.

(** X6.  When no predictor index is negative or exceeds [flaringVolIndex],
    as in [main] (6, 7, 8 against 10), every sample has all its predictors:
    each predictor vector is as long as [independentIndexes]. *)
Theorem extractRegressionData_full_predictors (joinedData : table)
    (flaringVolIndex : Z) (independentIndexes : list Z)
    (y : list F) (x : list (list F)) :
  Forall (fun idx => (0 <= idx <= flaringVolIndex)%Z) independentIndexes ->
  extractRegressionData joinedData flaringVolIndex independentIndexes
    = Ok (y, x) ->
  Forall (fun s => List.length s = List.length independentIndexes) x.
Proof.
  intros Hidx He.
  destruct independentIndexes as [|idx0 rest] eqn:Eidx.
  { apply extractRegressionData_lengths in He. destruct He as (_ & _ & Hall).
    eapply Forall_impl; [|exact Hall]. simpl. intros; lia. }
  rewrite <- Eidx in *.
  assert (Ht : (0 <= flaringVolIndex)%Z).
  { rewrite Eidx in Hidx. inversion Hidx; subst. lia. }
  rewrite extractRegressionData_nonneg in He.
  - injection He as _ <-. apply Forall_forall. intros s Hs.
    apply in_map_iff in Hs. destruct Hs as (r & <- & Hr).
    apply filter_In in Hr. destruct Hr as [_ Hr].
    unfold reaches in Hr. apply Z.gtb_lt in Hr.
    apply predictorsOf_full.
    eapply Forall_impl; [|exact Hidx]. simpl. intros; lia.
  - assumption.
  - eapply Forall_impl; [|exact Hidx]. simpl. intros; lia.
Qed.

End ExtractFacts.

(* ------------------------------------------------------------------ *)
(** ** The report of [runRegression] *)

Lemma result_pbind_Ok {F A B : Type} (m : prog F A) (k : A -> prog F B) (b : B) :
  result (pbind m k) = Ok b ->
  exists a, result m = Ok a /\ result (k a) = Ok b.
Proof.
  destruct m as [out [a|msg|msg]]; simpl; try discriminate.
  destruct (k a) as [out' r] eqn:E. simpl. intros ->.
  exists a. rewrite E. auto.
Qed.

Lemma pbind_Ok {F A B : Type} (m : prog F A) (k : A -> prog F B)
    (out : list (line F)) (a : A) :
  m = (out, Ok a) -> pbind m k = (out ++ fst (k a), snd (k a)).
Proof. intros ->. simpl. destruct (k a). reflexivity. Qed.

Lemma skipn_nth_error {A : Type} (l : list A) :
  forall k a, nth_error l k = Some a -> skipn k l = a :: skipn (S k) l.
Proof.
  induction l as [|b l IH]; intros [|k] a; simpl; try discriminate.
  - intros [= ->]. reflexivity.
  - intros Hk. apply IH in Hk. exact Hk.
Qed.

Lemma nth_error_combine {A B : Type} (l : list A) :
  forall (l' : list B) k a b,
    nth_error l k = Some a -> nth_error l' k = Some b ->
    nth_error (combine l l') k = Some (a, b).
Proof.
  induction l as [|a0 l IH]; intros [|b0 l'] [|k] a b; simpl;
    try discriminate.
  - intros [= ->] [= ->]. reflexivity.
  - apply IH.
Qed.

Section ReportFacts.

Context {F : Type} `{Float64 F}.

Local Open Scope go_scope.
Local Open Scope f64_scope.

Lemma index_nat (s : list F) (k : nat) (a : F) :
  nth_error s k = Some a -> index s (Z.of_nat k) = Ok a.
Proof.
  intros Hk. unfold index. destruct (Z.ltb_spec (Z.of_nat k) 0); [lia|].
  rewrite Nat2Z.id, Hk. reflexivity.
Qed.

Lemma nth_error_below (s : list F) (k : nat) :
  (k < List.length s)%nat -> exists a, nth_error s k = Some a.
Proof.
  intros Hk. destruct (nth_error s k) eqn:E; [eauto|].
  apply nth_error_None in E. lia.
Qed.

Lemma flattenLoop_firstPredictors (x : list (list F)) :
  Forall (fun s => s <> []) x ->
  forall xFlat, flattenLoop x xFlat = Ok (xFlat ++ firstPredictors x).
Proof.
  induction 1 as [|r rest Hr _ IH]; intros xFlat;
    cbn [flattenLoop firstPredictors flat_map].
  - rewrite app_nil_r. reflexivity.
  - destruct r as [|r0 r']; [contradiction|].
    change (index (r0 :: r') 0) with (Ok r0). cbn [bind firstn app].
    rewrite IH, <- app_assoc. reflexivity.
Qed.

Lemma flattenLoop_inv (x : list (list F)) :
  forall xFlat xFlat', flattenLoop x xFlat = Ok xFlat' ->
    Forall (fun s => s <> []) x.
Proof.
  induction x as [|r rest IH]; intros xFlat xFlat'; cbn [flattenLoop].
  - constructor.
  - destruct r as [|r0 r']; [discriminate|].
    change (index (r0 :: r') 0) with (Ok r0). cbn [bind].
    intros Hf. constructor; [discriminate|]. eapply IH. exact Hf.
Qed.

Lemma firstPredictors_length (x : list (list F)) :
  Forall (fun s => s <> []) x ->
  List.length (firstPredictors x) = List.length x.
Proof.
  induction 1 as [|r rest Hr _ IH]; [reflexivity|].
  destruct r; [contradiction|]. cbn [firstPredictors flat_map firstn app].
  simpl. f_equal. exact IH.
Qed.

Lemma scaledPredictors_length (x : list (list F)) :
  Forall (fun s => s <> []) x ->
  List.length (scaledPredictors x) = List.length x.
Proof.
  intros Hx. unfold scaledPredictors. rewrite length_map.
  apply firstPredictors_length. assumption.
Qed.

Lemma previewLoop_seq (y xs : list F) (n : nat) :
  forall k, (k + n <= List.length y)%nat -> (k + n <= List.length xs)%nat ->
    previewLoop y xs (seq k n)
    = (sampleLinesFrom k (firstn n (skipn k (combine y xs))), Ok tt).
Proof.
  induction n as [|n IH]; intros k Hy Hxs; cbn [seq previewLoop].
  - reflexivity.
  - destruct (@nth_error_below y k) as [yi Eyi]; [lia|].
    destruct (@nth_error_below xs k) as [xi Exi]; [lia|].
    rewrite (index_nat _ _ Eyi), (index_nat _ _ Exi).
    rewrite (skipn_nth_error _ _ (nth_error_combine _ _ _ Eyi Exi)).
    cbn [firstn sampleLinesFrom].
    rewrite IH by lia. reflexivity.
Qed.

Lemma rSquaredLoop_seq (y xs : list F) (alpha beta yMean : F) (n : nat) :
  forall k st, (k + n <= List.length y)%nat -> (k + n <= List.length xs)%nat ->
    rSquaredLoop y xs alpha beta yMean (seq k n) (fst st) (snd st)
    = Ok (fold_left (squaresStep alpha beta yMean)
            (firstn n (skipn k (combine y xs))) st).
Proof.
  induction n as [|n IH]; intros k [ssTotal ssResidual] Hy Hxs;
    cbn [seq rSquaredLoop fst snd].
  - reflexivity.
  - destruct (@nth_error_below y k) as [yi Eyi]; [lia|].
    destruct (@nth_error_below xs k) as [xi Exi]; [lia|].
    rewrite (index_nat _ _ Eyi), (index_nat _ _ Exi). cbn [bind].
    rewrite (skipn_nth_error _ _ (nth_error_combine _ _ _ Eyi Exi)).
    cbn [firstn fold_left].
    rewrite <- IH by lia. reflexivity.
Qed.

Lemma insufficient_false (y : list F) (x : list (list F)) :
  wellShaped y x -> insufficient y x = Ok false.
Proof.
  intros (Hy & Hlen & Hx). unfold insufficient, len.
  destruct y as [|y0 y']; [contradiction|].
  destruct x as [|x0 x']; [discriminate|].
  inversion Hx as [|? ? Hx0 _]; subst.
  destruct x0; [contradiction|]. reflexivity.
Qed.

Lemma normalize_firstPredictors (x : list (list F)) :
  x <> [] -> Forall (fun s => s <> []) x ->
  normalize (firstPredictors x) = Ok (scaledPredictors x).
Proof.
  intros Hne Hx. apply normalize_Ok.
  intros E. apply (f_equal (@List.length F)) in E.
  rewrite firstPredictors_length in E by assumption.
  destruct x; [contradiction|discriminate].
Qed.

(** X7.  On well-shaped input [runRegression] prints the title, one line
    for each of the first ten pairs of a target and a scaled first
    predictor, numbered from 0, then the model and R squared, and returns.
    The model is the regression of [stat.LinearRegression] called with the
    targets first and the scaled first predictors second; R squared is one
    minus the quotient of the residual and the total sum of squares of that
    line over all the pairs. *)
Theorem runRegression_report (y : list F) (x : list (list F)) :
  wellShaped y x ->
  exists alpha beta,
    LinearRegression y (scaledPredictors x) = Ok (alpha, beta) /\
    runRegression y x =
    ([SampleTitle]
       ++ sampleLinesFrom 0 (firstn 10 (combine y (scaledPredictors x)))
       ++ [Model alpha beta;
           RSquared (fconst 1
                     - snd (sumsOfSquares y (scaledPredictors x) alpha beta)
                       / fst (sumsOfSquares y (scaledPredictors x) alpha beta))],
     Ok tt).
Proof.
  intros Hws. pose proof Hws as (Hy & Hlen & Hx).
  assert (Hne : x <> []).
  { intros ->. destruct y; [contradiction|discriminate]. }
  pose proof (scaledPredictors_length Hx) as Hs.
  destruct (@LinearRegression_Ok _ _ y (scaledPredictors x))
    as [[alpha beta] Elr]; [lia|].
  exists alpha, beta. split; [exact Elr|].
  unfold runRegression, lift, say.
  rewrite (insufficient_false Hws). cbn [pbind app].
  rewrite flattenLoop_firstPredictors by assumption. cbn [pbind app].
  rewrite (normalize_firstPredictors Hne Hx). cbn [pbind app].
  rewrite previewLoop_seq by lia. rewrite Elr. cbn [pbind app skipn].
  pose proof (@rSquaredLoop_seq y (scaledPredictors x) alpha beta (Mean y)
                (List.length y) 0%nat (fconst 0, fconst 0)) as Er2.
  cbn [fst snd skipn] in Er2. rewrite Er2 by lia. cbn [pbind app].
  rewrite firstn_all2 by (rewrite length_combine; lia).
  fold (sumsOfSquares y (scaledPredictors x) alpha beta).
  destruct (sumsOfSquares y (scaledPredictors x) alpha beta)
    as [ssTotal ssResidual]. cbn [fst snd].
  replace (firstn (Nat.min (List.length y) 10) (combine y (scaledPredictors x)))
    with (firstn 10 (combine y (scaledPredictors x))); [reflexivity|].
  destruct (Nat.le_ge_cases (List.length y) 10) as [Hle|Hge].
  - rewrite Nat.min_l by assumption.
    rewrite !firstn_all2 by (rewrite length_combine; lia). reflexivity.
  - rewrite Nat.min_r by assumption. reflexivity.
Qed.

End ReportFacts.

Section FitOutcome.

Context {F : Type} `{Float64 F}.

Local Open Scope go_scope.
Local Open Scope f64_scope.

Lemma insufficient_inv (y : list F) (x : list (list F)) :
  insufficient y x = Ok false -> y <> [] /\ x <> [].
Proof.
  unfold insufficient, len.
  destruct x as [|x0 x']; [discriminate|].
  destruct y as [|y0 y']; [discriminate|].
  intros _. split; discriminate.
Qed.

Lemma normalize_length (data out : list F) :
  normalize data = Ok out -> List.length out = List.length data.
Proof.
  unfold normalize. destruct (index data 0); cbn [bind]; try discriminate.
  destruct (minMaxLoop data a a). intros [= <-]. apply length_map.
Qed.

Lemma LinearRegression_inv (x y : list F) (ab : F * F) :
  LinearRegression x y = Ok ab -> List.length x = List.length y.
Proof.
  unfold LinearRegression, len.
  destruct (Z.eqb_spec (Z.of_nat (List.length x)) (Z.of_nat (List.length y)));
    cbn [negb]; [lia|discriminate].
Qed.

Lemma flattenLoop_length (x : list (list F)) :
  forall xFlat xFlat', flattenLoop x xFlat = Ok xFlat' ->
    List.length xFlat' = (List.length xFlat + List.length x)%nat.
Proof.
  intros xFlat xFlat' Hf. pose proof (flattenLoop_inv _ _ Hf) as Hx.
  rewrite flattenLoop_firstPredictors in Hf by assumption.
  injection Hf as <-. rewrite length_app, firstPredictors_length by assumption.
  reflexivity.
Qed.

(** X8.  [runRegression] returns exactly on well-shaped input: at least one
    target, as many samples as targets, and no sample without a
    predictor. *)
Theorem runRegression_returns_iff_well_shaped (y : list F) (x : list (list F)) :
  result (runRegression y x) = Ok tt <-> wellShaped y x.
Proof.
  split; [|apply runRegression_completes].
  unfold runRegression. intros Hr.
  apply result_pbind_Ok in Hr. destruct Hr as (bad & Hbad & Hr).
  destruct bad; [discriminate|]. apply insufficient_inv in Hbad.
  destruct Hbad as [Hy Hne].
  apply result_pbind_Ok in Hr. destruct Hr as (xFlat & Hflat & Hr).
  apply result_pbind_Ok in Hr. destruct Hr as (xs & Hnorm & Hr).
  apply result_pbind_Ok in Hr. destruct Hr as (_ & _ & Hr).
  apply result_pbind_Ok in Hr. destruct Hr as (_ & _ & Hr).
  apply result_pbind_Ok in Hr. destruct Hr as (ab & Hlr & _).
  cbn [result lift snd] in Hflat, Hnorm, Hlr.
  apply LinearRegression_inv in Hlr. apply normalize_length in Hnorm.
  pose proof (flattenLoop_length _ _ Hflat) as Hlen. simpl in Hlen.
  repeat split; [assumption|lia|].
  eapply flattenLoop_inv. exact Hflat.
Qed.



End FitOutcome.

(* ------------------------------------------------------------------ *)
(** ** When the join returns, and how it composes

    Rows are values here, as everywhere above: [append(csvRow, bestMatch...)]
    is read as a new row.  It is one for the records that
    [csv.Reader.ReadAll] returns, whose capacity is their length. *)

Lemma index_not_Fatal {A : Type} (s : list A) (i : Z) (msg : string) :
  index s i <> Fatal msg.
Proof.
  unfold index. destruct (i <? 0)%Z; [discriminate|].
  destruct (nth_error s (Z.to_nat i)); discriminate.
Qed.

Lemma bind_not_Fatal {A B : Type} (m : outcome A) (k : A -> outcome B) :
  (forall msg, m <> Fatal msg) -> (forall a msg, k a <> Fatal msg) ->
  forall msg, bind m k <> Fatal msg.
Proof.
  intros Hm Hk msg. destruct m as [a|msg'|msg']; simpl.
  - apply Hk.
  - intros _. exact (Hm msg' eq_refl).
  - discriminate.
Qed.

Section JoinOutcome.

Context {F : Type} `{Float64 F} `{Libm F} `{GoText F}.

Local Open Scope go_scope.
Local Open Scope f64_scope.

Variable excelData : table.
Variables csvLatCol csvLonCol excelLatCol excelLonCol : Z.

Local Notation "'bestMatchFor''" :=
  (bestMatchFor excelData csvLatCol csvLonCol excelLatCol excelLonCol).
Local Notation "'joinLoop''" :=
  (joinLoop excelData csvLatCol csvLonCol excelLatCol excelLonCol).
Local Notation "'joinDatasets'' csvData" :=
  (joinDatasets csvData excelData csvLatCol csvLonCol excelLatCol excelLonCol)
  (at level 10, csvData at level 9).

Lemma coords_inv (r : row) (latCol lonCol : Z) (p : F * F) :
  coords r latCol lonCol = Ok p -> hasCoords latCol lonCol r.
Proof.
  unfold coords. intros Hc. bind_inv Hc as a Ea. bind_inv Hc as b Eb.
  apply index_inv in Ea, Eb. split; tauto.
Qed.

Lemma coords_not_Fatal (r : row) (latCol lonCol : Z) (msg : string) :
  coords r latCol lonCol <> Fatal msg.
Proof.
  unfold coords. apply bind_not_Fatal; [apply index_not_Fatal|].
  intros a. apply bind_not_Fatal; [apply index_not_Fatal|]. discriminate.
Qed.

Lemma scanExcel_inv_coords (csvLat csvLon : F) (rows : list row) :
  forall closestDist bestMatch st,
    scanExcel csvLat csvLon excelLatCol excelLonCol rows closestDist bestMatch
      = Ok st ->
    Forall (hasCoords excelLatCol excelLonCol) rows.
Proof.
  induction rows as [|excelRow rest IH]; cbn [scanExcel];
    intros closestDist bestMatch st Hs; [constructor|].
  bind_inv Hs as [excelLat excelLon] Ec.
  constructor; [eapply coords_inv; exact Ec|].
  destruct (_ <? _); eapply IH; exact Hs.
Qed.

Lemma scanExcel_not_Fatal (csvLat csvLon : F) (rows : list row) :
  forall closestDist bestMatch msg,
    scanExcel csvLat csvLon excelLatCol excelLonCol rows closestDist bestMatch
      <> Fatal msg.
Proof.
  induction rows as [|excelRow rest IH]; cbn [scanExcel];
    intros closestDist bestMatch; [discriminate|].
  apply bind_not_Fatal; [apply coords_not_Fatal|].
  intros [excelLat excelLon] msg. destruct (_ <? _); apply IH.
Qed.

Lemma bestMatchFor_inv (l : row) (b : option row) :
  bestMatchFor' l = Ok b ->
  hasCoords csvLatCol csvLonCol l /\ excelData <> [] /\
  Forall (hasCoords excelLatCol excelLonCol) (tl excelData).
Proof.
  unfold bestMatchFor. intros Hb.
  bind_inv Hb as [csvLat csvLon] Hl. bind_inv Hb as rights Hsl.
  bind_inv Hb as [cd bm] Hscan.
  destruct excelData as [|header rs]; [discriminate|].
  injection Hsl as <-.
  split; [eapply coords_inv; exact Hl|].
  split; [discriminate|].
  eapply scanExcel_inv_coords. exact Hscan.
Qed.

Lemma bestMatchFor_not_Fatal (l : row) (msg : string) :
  bestMatchFor' l <> Fatal msg.
Proof.
  unfold bestMatchFor. apply bind_not_Fatal; [apply coords_not_Fatal|].
  intros [csvLat csvLon]. apply bind_not_Fatal.
  { destruct excelData; discriminate. }
  intros rights. apply bind_not_Fatal; [apply scanExcel_not_Fatal|].
  intros [cd bm]. discriminate.
Qed.

Lemma joinLoop_inv (rows : list row) :
  forall joined dangling st,
    joinLoop' rows joined dangling = Ok st ->
    Forall (fun l => exists b, bestMatchFor' l = Ok b) rows.
Proof.
  induction rows as [|csvRow rest IH]; cbn [joinLoop];
    intros joined dangling st Hj; [constructor|].
  bind_inv Hj as b Eb. constructor; [eauto|].
  destruct b; eapply IH; exact Hj.
Qed.

Lemma joinLoop_not_Fatal (rows : list row) :
  forall joined dangling msg, joinLoop' rows joined dangling <> Fatal msg.
Proof.
  induction rows as [|csvRow rest IH]; cbn [joinLoop];
    intros joined dangling; [discriminate|].
  apply bind_not_Fatal; [apply bestMatchFor_not_Fatal|].
  intros [m|] msg; apply IH.
Qed.

(** X10.  [joinDatasets] returns exactly when the left table has a first
    row and, if it has any other row, the right table has a first row too
    and every row after the first, on either side, reaches its two
    coordinate columns.  Otherwise it panics: it never ends in
    [log.Fatalf]. *)
Theorem joinDatasets_returns_iff (csvData : table) :
  ((exists matched dangling, joinDatasets' csvData = Ok (matched, dangling))
   <->
   csvData <> [] /\
   (tl csvData = [] \/
    excelData <> [] /\
    Forall (hasCoords csvLatCol csvLonCol) (tl csvData) /\
    Forall (hasCoords excelLatCol excelLonCol) (tl excelData))) /\
  (forall msg, joinDatasets' csvData <> Fatal msg).
Proof.
  split; [split|].
  - intros (matched & dangling & Hj). unfold joinDatasets in Hj.
    destruct csvData as [|header lefts]; [discriminate|].
    split; [discriminate|]. cbn [slice_from_1 bind tl] in *.
    destruct lefts as [|l lefts']; [left; reflexivity|right].
    apply joinLoop_inv in Hj.
    inversion Hj as [|? ? [b Hb] _]; subst.
    apply bestMatchFor_inv in Hb. destruct Hb as (_ & Hne & Hrights).
    split; [assumption|]. split; [|assumption].
    eapply Forall_impl; [|exact Hj]. cbv beta.
    intros l0 [b0 Hb0]. apply bestMatchFor_inv in Hb0. tauto.
  - intros [Hne [Hnil|(Hex & Hlefts & Hrights)]].
    + destruct csvData as [|header lefts]; [contradiction|].
      cbn [tl] in Hnil. subst lefts. exists [], []. reflexivity.
    + apply joinDatasets_total; assumption.
  - unfold joinDatasets. apply bind_not_Fatal.
    + destruct csvData; discriminate.
    + intros rows. apply joinLoop_not_Fatal.
Qed.

Lemma joinLoop_from (rows : list row) :
  forall joined dangling,
    joinLoop' rows joined dangling =
    '(m, d) <- joinLoop' rows [] [] ;; Ok (joined ++ m, dangling ++ d).
Proof.
  induction rows as [|csvRow rest IH]; cbn [joinLoop]; intros joined dangling.
  - cbn [bind]. rewrite !app_nil_r. reflexivity.
  - destruct (bestMatchFor' csvRow) as [[m0|]| |]; cbn [bind];
      try reflexivity.
    + rewrite (IH (joined ++ [csvRow ++ m0]) dangling). cbn [app].
      rewrite (IH [csvRow ++ m0] []).
      destruct (joinLoop' rest [] []) as [[m d]| |]; cbn [bind app];
        try reflexivity.
      rewrite <- app_assoc. reflexivity.
    + rewrite (IH joined (dangling ++ [csvRow])). cbn [app].
      rewrite (IH [] [csvRow]).
      destruct (joinLoop' rest [] []) as [[m d]| |]; cbn [bind app];
        try reflexivity.
      rewrite <- app_assoc. reflexivity.
Qed.

Lemma joinLoop_app (rows1 rows2 : list row) :
  forall joined dangling,
    joinLoop' (rows1 ++ rows2) joined dangling =
    '(m, d) <- joinLoop' rows1 joined dangling ;; joinLoop' rows2 m d.
Proof.
  induction rows1 as [|csvRow rest IH]; cbn [app joinLoop];
    intros joined dangling; [reflexivity|].
  destruct (bestMatchFor' csvRow) as [[m0|]| |]; cbn [bind];
    try reflexivity; apply IH.
Qed.

(** X11.  Every left row is matched on its own: the join of the left rows
    [lefts1 ++ lefts2] is the join of [lefts1] followed by the join of
    [lefts2], on each side of the result, and it fails where the first of
    the two that fails does.  The first row of the left table plays no
    part. *)
Theorem joinDatasets_app (header header' : row) (lefts1 lefts2 : list row) :
  joinDatasets' (header :: lefts1 ++ lefts2) =
  '(matched1, dangling1) <- joinDatasets' (header :: lefts1) ;;
  '(matched2, dangling2) <- joinDatasets' (header' :: lefts2) ;;
  Ok (matched1 ++ matched2, dangling1 ++ dangling2).
Proof.
  unfold joinDatasets. cbn [slice_from_1 bind].
  rewrite joinLoop_app.
  destruct (joinLoop' lefts1 [] []) as [[m1 d1]| |]; cbn [bind];
    try reflexivity.
  apply joinLoop_from.
Qed.

End JoinOutcome.

Section JoinEdges.

Context {F : Type} `{Float64 F} `{Libm F} `{GoText F}.

Local Open Scope go_scope.

Variables csvLatCol csvLonCol excelLatCol excelLonCol : Z.

Lemma joinLoop_no_right_rows (excelHeader : row) (rows : list row) :
  Forall (hasCoords csvLatCol csvLonCol) rows ->
  forall joined dangling,
    joinLoop [excelHeader] csvLatCol csvLonCol excelLatCol excelLonCol
      rows joined dangling
    = Ok (joined, dangling ++ rows).
Proof.
  induction 1 as [|l rest Hl _ IH]; cbn [joinLoop]; intros joined dangling.
  - rewrite app_nil_r. reflexivity.
  - unfold bestMatchFor. destruct (coords_Ok Hl) as [[csvLat csvLon] ->].
    cbn [bind slice_from_1 scanExcel]. rewrite IH, <- app_assoc. reflexivity.
Qed.

(** X12.  Against a right table of one row, which is taken for its header,
    no left row is matched: when every left row after the first reaches its
    coordinate columns, all of them come back as dangling, in their order.
    With a left table of one row the join returns two empty slices whatever
    the right table is, the empty one included. *)
Theorem join_without_data_rows (csvHeader excelHeader : row)
    (lefts : list row) :
  Forall (hasCoords csvLatCol csvLonCol) lefts ->
  joinDatasets (csvHeader :: lefts) [excelHeader]
    csvLatCol csvLonCol excelLatCol excelLonCol = Ok ([], lefts) /\
  forall excelData,
    joinDatasets [csvHeader] excelData
      csvLatCol csvLonCol excelLatCol excelLonCol = Ok ([], []).
Proof.
  intros Hlefts. split; [|reflexivity].
  unfold joinDatasets. cbn [slice_from_1 bind].
  rewrite joinLoop_no_right_rows by assumption. reflexivity.
Qed.

End JoinEdges.

(* ------------------------------------------------------------------ *)
(** ** The whole run *)

Section MainFacts.

Context {F : Type} `{Float64 F} `{Libm F} `{GoText F}.

Local Open Scope go_scope.

Lemma main_until_join (csvHeader excelHeader : row) (csvRows excelRows : table) :
  main (csvHeader :: csvRows) (excelHeader :: excelRows) =
  let algeriaCSV := filter keepsAlgeria (csvHeader :: csvRows) in
  let algeriaExcel := filter keepsAlgeria (excelHeader :: excelRows) in
  pbind
    ([CsvHeaders csvHeader; ExcelHeaders excelHeader;
      FilteredCsv (len algeriaCSV - 1); FilteredExcel (len algeriaExcel - 1)],
     joinDatasets algeriaCSV algeriaExcel 4 5 1 2)
    (fun '(joinedData, _) =>
       pbind (say (JoinedRecords (len joinedData)))
         (fun _ =>
            pbind (lift (extractRegressionData joinedData 10 [6; 7; 8]%Z))
              (fun '(y, x) => runRegression y x))).
Proof.
  unfold main. cbv beta iota zeta. unfold lift, say.
  change (index (csvHeader :: csvRows) 0) with (Ok csvHeader).
  change (index (excelHeader :: excelRows) 0) with (Ok excelHeader).
  cbn [pbind app]. rewrite !filterAlgeria_0. cbn [pbind app].
  destruct (joinDatasets _ _ 4 5 1 2) as [[joinedData dangling]|msg|msg];
    cbn [pbind app]; try reflexivity.
  destruct (extractRegressionData joinedData 10 [6; 7; 8]%Z) as [[y x]|msg|msg];
    cbn [pbind app]; try reflexivity.
  destruct (runRegression y x) as [out r]. reflexivity.
Qed.

Lemma main_from_join (csvHeader excelHeader : row) (csvRows excelRows : table)
    (joined dangling : list row) :
  let algeriaCSV := filter keepsAlgeria (csvHeader :: csvRows) in
  let algeriaExcel := filter keepsAlgeria (excelHeader :: excelRows) in
  let kept := filter (reaches 10) joined in
  let y := map (targetOf 10) kept in
  let x := map (predictorsOf [6; 7; 8]%Z) kept in
  joinDatasets algeriaCSV algeriaExcel 4 5 1 2 = Ok (joined, dangling) ->
  main (csvHeader :: csvRows) (excelHeader :: excelRows) =
  ([CsvHeaders csvHeader; ExcelHeaders excelHeader;
    FilteredCsv (len algeriaCSV - 1); FilteredExcel (len algeriaExcel - 1);
    JoinedRecords (len joined)] ++ printed (runRegression y x),
   result (runRegression y x)) /\
  result (runRegression y x) =
  match kept with
  | [] => Fatal insufficient_data
  | _ :: _ => Ok tt
  end.
Proof.
  intros algeriaCSV algeriaExcel kept y x Hjoin. split.
  - rewrite main_until_join. cbv zeta. fold algeriaCSV algeriaExcel.
    rewrite Hjoin. unfold say, lift. cbn [pbind app].
    rewrite extractRegressionData_nonneg
      by (try lia; repeat constructor; lia).
    fold kept y x. cbn [pbind app].
    destruct (runRegression y x) as [out r]. reflexivity.
  - subst y x. destruct kept as [|r0 rest] eqn:Ek; [reflexivity|].
    apply runRegression_completes.
    split; [discriminate|]. split; [rewrite !length_map; reflexivity|].
    apply Forall_forall. intros s Hs. apply in_map_iff in Hs.
    destruct Hs as (r & <- & Hr).
    assert (Hreach : reaches 10 r = true).
    { assert (Hin : In r kept) by (rewrite Ek; exact Hr).
      apply filter_In in Hin. tauto. }
    unfold reaches in Hreach. apply Z.gtb_lt in Hreach.
    intros E. apply (f_equal (@List.length F)) in E.
    rewrite predictorsOf_full in E; [discriminate|].
    repeat constructor; lia.
Qed.

(** X13.  From two tables with a first row, once the join of the filtered
    tables has returned, [main] cannot panic any more.  It prints the two
    header lines, the two counts, the number of joined rows and then what
    [runRegression] prints for the joined rows longer than 10 cells: the
    target is the parsed cell 10, the predictors are the parsed cells 6, 7
    and 8.  It returns when there is such a row, and ends in [log.Fatalf]
    with the insufficient-data message when there is none. *)
Theorem main_after_the_join (csvHeader excelHeader : row)
    (csvRows excelRows : table) (joined dangling : list row) :
  let algeriaCSV := filter keepsAlgeria (csvHeader :: csvRows) in
  let algeriaExcel := filter keepsAlgeria (excelHeader :: excelRows) in
  let kept := filter (reaches 10) joined in
  let y := map (targetOf 10) kept in
  let x := map (predictorsOf [6; 7; 8]%Z) kept in
  joinDatasets algeriaCSV algeriaExcel 4 5 1 2 = Ok (joined, dangling) ->
  main (csvHeader :: csvRows) (excelHeader :: excelRows) =
  ([CsvHeaders csvHeader; ExcelHeaders excelHeader;
    FilteredCsv (len algeriaCSV - 1); FilteredExcel (len algeriaExcel - 1);
    JoinedRecords (len joined)] ++ printed (runRegression y x),
   result (runRegression y x)) /\
  result (runRegression y x) =
  match kept with
  | [] => Fatal insufficient_data
  | _ :: _ => Ok tt
  end.
Proof. apply main_from_join. Qed.

(** X14.  A CSV table without any row of the country stops the run in a
    panic: the filter returns the empty slice, [main] prints -1 for its
    count, and the join slices past its end.  With exactly one such row,
    that row is taken for the header, nothing is joined, and the run ends
    in [log.Fatalf] with the insufficient-data message, whatever the Excel
    table holds after its first row. *)
Theorem main_with_too_few_csv_rows (csvHeader excelHeader : row)
    (csvRows excelRows : table) :
  let algeriaExcel := filter keepsAlgeria (excelHeader :: excelRows) in
  (filter keepsAlgeria (csvHeader :: csvRows) = [] ->
   main (csvHeader :: csvRows) (excelHeader :: excelRows) =
   ([CsvHeaders csvHeader; ExcelHeaders excelHeader;
     FilteredCsv (-1); FilteredExcel (len algeriaExcel - 1)],
    Panic slice_out_of_range)) /\
  (forall only,
     filter keepsAlgeria (csvHeader :: csvRows) = [only] ->
     main (csvHeader :: csvRows) (excelHeader :: excelRows) =
     ([CsvHeaders csvHeader; ExcelHeaders excelHeader;
       FilteredCsv 0; FilteredExcel (len algeriaExcel - 1);
       JoinedRecords 0],
      Fatal insufficient_data)).
Proof.
  intros algeriaExcel. split.
  - intros Enone. rewrite main_until_join. cbv zeta. rewrite Enone.
    reflexivity.
  - intros only Eone.
    destruct (@main_from_join csvHeader excelHeader csvRows excelRows [] [])
      as [Hmain _].
    + rewrite Eone. reflexivity.
    + rewrite Hmain, Eone. reflexivity.
Qed.

End MainFacts.

(* ------------------------------------------------------------------ *)
(** ** Distances and scaling over the reals *)

Section RealFacts.

Local Open Scope R_scope.








End RealFacts.

(* ------------------------------------------------------------------ *)
(** ** NaN and overflow in [normalize] *)

Section NaNFacts.

Local Open Scope float_scope.

Lemma is_nan_spec (x : float) : is_nan x = true -> Prim2SF x = S754_nan.
Proof.
  unfold is_nan. rewrite FloatAxioms.eqb_spec. unfold SFeqb, SFcompare.
  destruct (Prim2SF x) as [[|]|[|]| |[|] m e]; simpl; try discriminate;
    try reflexivity;
    rewrite Z.compare_refl;
    change (Pos.compare_cont Eq m m) with (Pos.compare m m);
    rewrite Pos.compare_refl; discriminate.
Qed.

Lemma nan_ltb (x y : float) :
  is_nan x = true -> (x <? y) = false /\ (y <? x) = false.
Proof.
  intros Hx. apply is_nan_spec in Hx. rewrite !ltb_spec, Hx.
  unfold SFltb, SFcompare. split; [reflexivity|].
  destruct (Prim2SF y) as [[|]|[|]| |[|] m e]; reflexivity.
Qed.

Lemma nan_sub_l (x y : float) : is_nan x = true -> x - y = nan.
Proof.
  intros Hx. apply is_nan_spec in Hx.
  change nan with (SF2Prim S754_nan). apply by_spec.
  rewrite sub_spec, Hx. reflexivity.
Qed.

Lemma nan_sub_r (x y : float) : is_nan y = true -> x - y = nan.
Proof.
  intros Hy. apply is_nan_spec in Hy.
  change nan with (SF2Prim S754_nan). apply by_spec.
  rewrite sub_spec, Hy. unfold SF64sub, SFsub.
  destruct (Prim2SF x) as [[|]|[|]| |[|] m e]; reflexivity.
Qed.

Lemma nan_div_l (y : float) : nan / y = nan.
Proof.
  change nan with (SF2Prim S754_nan) at 2. apply by_spec.
  rewrite div_spec. reflexivity.
Qed.

Lemma nan_div_r (x : float) : x / nan = nan.
Proof.
  change nan with (SF2Prim S754_nan) at 2. apply by_spec.
  rewrite div_spec. change (Prim2SF nan) with S754_nan.
  unfold SF64div, SFdiv.
  destruct (Prim2SF x) as [[|]|[|]| |[|] m e]; reflexivity.
Qed.

Lemma minMaxLoop_nan_bounds (d0 : float) (data : list float) :
  is_nan d0 = true -> minMaxLoop data d0 d0 = (d0, d0).
Proof.
  intros Hd0. induction data as [|val rest IH]; cbn [minMaxLoop];
    [reflexivity|].
  cbn [flt binary64].
  destruct (nan_ltb d0 val Hd0) as [-> ->]. exact IH.
Qed.

(** X19.  In binary64 a NaN in the first place spoils the whole vector:
    the scan never replaces it as minimum or as maximum, and [normalize]
    returns NaN in every place, whatever the other values are. *)
Theorem normalize_nan_first (d0 : float) (rest : list float) :
  is_nan d0 = true ->
  normalize (d0 :: rest) = Ok (map (fun _ => nan) (d0 :: rest)).
Proof.
  intros Hd0. rewrite normalize_Ok by discriminate.
  unfold minOf, maxOf. cbn [hd]. rewrite (minMaxLoop_nan_bounds d0 (d0 :: rest) Hd0).
  cbn [fst snd]. f_equal. apply map_ext. intros v.
  cbn [fsub fdiv binary64].
  rewrite (nan_sub_l d0 d0 Hd0). apply nan_div_r.
Qed.

Lemma minMaxLoop_skips_nan (data : list float) :
  forall minVal maxVal,
    minMaxLoop data minVal maxVal = minMaxLoop (filter notNaN data) minVal maxVal.
Proof.
  induction data as [|val rest IH]; intros minVal maxVal;
    cbn [minMaxLoop filter]; [reflexivity|].
  unfold notNaN at 1. destruct (is_nan val) eqn:Hval; cbn [negb minMaxLoop].
  - cbn [flt binary64].
    destruct (nan_ltb val minVal Hval) as [-> _].
    destruct (nan_ltb val maxVal Hval) as [_ ->]. apply IH.
  - apply IH.
Qed.

(** X20.  In binary64 a NaN after a first value that is a number is
    passed over by the scan for the minimum and the maximum: [normalize]
    scales the numbers as if the NaNs were not in the vector, and returns
    NaN in the place of each NaN. *)
Theorem normalize_nan_later (d0 : float) (rest : list float) :
  is_nan d0 = false ->
  let numbers := filter notNaN (d0 :: rest) in
  normalize (d0 :: rest) =
  Ok (map (fun v => if is_nan v then nan
                    else (v - minOf numbers) / (maxOf numbers - minOf numbers))
        (d0 :: rest)).
Proof.
  intros Hd0 numbers. rewrite normalize_Ok by discriminate.
  assert (Ehd : hd (fconst 0) numbers = d0).
  { unfold numbers. cbn [filter]. unfold notNaN at 1. rewrite Hd0.
    reflexivity. }
  assert (Emin : minOf (d0 :: rest) = minOf numbers).
  { unfold minOf. rewrite Ehd. cbn [hd]. unfold numbers.
    rewrite <- minMaxLoop_skips_nan. reflexivity. }
  assert (Emax : maxOf (d0 :: rest) = maxOf numbers).
  { unfold maxOf. rewrite Ehd. cbn [hd]. unfold numbers.
    rewrite <- minMaxLoop_skips_nan. reflexivity. }
  rewrite Emin, Emax. f_equal. apply map_ext. intros v.
  destruct (is_nan v) eqn:Hv; [|reflexivity].
  cbn [fsub fdiv binary64]. rewrite (nan_sub_l v (minOf numbers) Hv). apply nan_div_l.
Qed.

End NaNFacts.

Section OverflowFacts.

Local Open Scope float_scope.

Lemma range_overflows (mn mx : float) :
  is_finite mn = true -> is_finite mx = true ->
  (valZ mn <= valZ mx)%Z ->
  is_finite (mx - mn) = false ->
  Prim2SF (mx - mn) = S754_infinity false.
Proof.
  intros Hmn Hmx Hle Hinf.
  destruct (SFsub_nonneg (Prim2SF mx) (Prim2SF mn)) as [Hzero Hpos];
    auto using is_finite_spec, Prim2SF_valid.
  fold (valZ mx) (valZ mn) in Hzero, Hpos.
  assert (Hnot : ~ finite_spec (Prim2SF (mx - mn))).
  { intros Hfin. apply finite_spec_is_finite in Hfin. congruence. }
  rewrite sub_spec in *.
  destruct (Z.eq_dec (valZ mx - valZ mn) 0) as [E0|N0].
  { destruct (Hzero E0) as [s Es]. exfalso. apply Hnot. rewrite Es.
    constructor. }
  destruct Hpos as [Hfin Hover]; [lia|].
  destruct (Z.lt_ge_cases (RN (valZ mx - valZ mn)) (2 ^ 2098)) as [Hlt|Hge].
  - destruct (Hfin Hlt) as (m & e & E & _). exfalso. apply Hnot. rewrite E.
    constructor.
  - apply Hover. assumption.
Qed.

Lemma quotient_by_infinity (v mn d : float) :
  is_finite v = true -> is_finite mn = true ->
  (valZ mn <= valZ v)%Z ->
  Prim2SF d = S754_infinity false ->
  (v - mn) / d = nan \/ ((v - mn) / d =? 0) = true.
Proof.
  intros Hv Hmn Hle Hd.
  destruct (SFsub_nonneg (Prim2SF v) (Prim2SF mn)) as [Hzero Hpos];
    auto using is_finite_spec, Prim2SF_valid.
  fold (valZ v) (valZ mn) in Hzero, Hpos.
  assert (Hshape : (exists s, Prim2SF ((v - mn) / d) = S754_zero s) \/
                   Prim2SF ((v - mn) / d) = S754_nan).
  { rewrite div_spec, Hd, sub_spec.
    destruct (Z.eq_dec (valZ v - valZ mn) 0) as [E0|N0].
    - destruct (Hzero E0) as [s ->]. left. simpl. eauto.
    - destruct Hpos as [Hfin Hover]; [lia|].
      destruct (Z.lt_ge_cases (RN (valZ v - valZ mn)) (2 ^ 2098)) as [Hlt|Hge].
      + destruct (Hfin Hlt) as (m & e & -> & _). left. simpl. eauto.
      + rewrite (Hover Hge). right. reflexivity. }
  destruct Hshape as [[s Es]|En].
  - right. rewrite FloatAxioms.eqb_spec, Es. destruct s; reflexivity.
  - left. change nan with (SF2Prim S754_nan). apply by_spec. exact En.
Qed.

(** X21.  In binary64, when the values are finite but the range
    [max - min] overflows, nothing is left of the data: every output of
    [normalize] is NaN or a zero, NaN stands wherever the input holds its
    maximum, and 0.0 wherever it holds its minimum. *)
Theorem normalize_when_the_range_overflows (data : list float) :
  Forall (fun v => is_finite v = true) data ->
  is_finite (maxOf data - minOf data)%f64 = false ->
  exists out, normalize data = Ok out /\
    List.length out = List.length data /\
    Forall (fun q => q = nan \/ (q =? 0) = true) out /\
    (forall i, nth_error data i = Some (maxOf data) ->
               nth_error out i = Some nan) /\
    (forall i, nth_error data i = Some (minOf data) ->
               nth_error out i = Some 0).
Proof.
  intros Hfin Hover.
  destruct data as [|d0 rest].
  { exfalso. vm_compute in Hover. discriminate. }
  rewrite normalize_Ok by discriminate.
  assert (Hne : d0 :: rest <> []) by discriminate.
  pose proof (minOf_In Hne) as Hmin. pose proof (maxOf_In Hne) as Hmax.
  pose proof Hfin as Hfin'. rewrite Forall_forall in Hfin'.
  assert (Fmn : is_finite (minOf (d0 :: rest)) = true) by auto.
  assert (Fmx : is_finite (maxOf (d0 :: rest)) = true) by auto.
  assert (Hall : forall v, In v (d0 :: rest) ->
            (valZ (minOf (d0 :: rest)) <= valZ v
             <= valZ (maxOf (d0 :: rest)))%Z).
  { intros v Hv. unfold minOf, maxOf. cbn [hd].
    destruct (@minMaxLoop_binary64 (d0 :: rest) Hfin d0 d0)
      as (_ & _ & _ & _ & Hbounds).
    - apply Hfin'. left. reflexivity.
    - apply Hfin'. left. reflexivity.
    - apply Hbounds. assumption. }
  cbn [fsub binary64] in Hover.
  assert (Hinf : Prim2SF (maxOf (d0 :: rest) - minOf (d0 :: rest))
                 = S754_infinity false).
  { apply range_overflows; try assumption. apply (Hall _ Hmax). }
  set (g := fun val : float =>
              ((val - minOf (d0 :: rest))
               / (maxOf (d0 :: rest) - minOf (d0 :: rest)))%f64).
  exists (map g (d0 :: rest)). split; [reflexivity|].
  split; [apply length_map|]. split; [|split].
  - apply Forall_forall. intros q Hq. apply in_map_iff in Hq.
    destruct Hq as (v & <- & Hv). unfold g. cbn [fsub fdiv binary64].
    apply quotient_by_infinity; auto. apply (Hall v Hv).
  - intros i Hi. rewrite nth_error_map, Hi. cbn [option_map]. f_equal.
    unfold g. cbn [fsub fdiv binary64].
    change nan with (SF2Prim S754_nan). apply by_spec.
    rewrite div_spec, Hinf. reflexivity.
  - intros i Hi. rewrite nth_error_map, Hi. cbn [option_map]. f_equal.
    unfold g. cbn [fsub fdiv binary64]. rewrite sub_self by assumption.
    change 0 with (SF2Prim (S754_zero false)) at 2. apply by_spec.
    rewrite div_spec, Hinf. reflexivity.
Qed.

End OverflowFacts.

(* ------------------------------------------------------------------ *)
(** ** What the fit reads of a joined row *)

Section ReadFacts.

Context {F : Type} `{Float64 F} `{GoText F}.

Local Open Scope go_scope.

(** X22.  [extractRegressionData] addresses the joined row, not the right
    row: of a matched row [l ++ r] it takes as target the cell [i] of the
    left row when that row has more than [i] cells, the cell
    [i - len l] of the right row when the joined row is long enough, and
    nothing otherwise. *)
Theorem target_of_a_joined_row (l r : row) (i : Z) :
  (0 <= i)%Z ->
  extractRegressionData (F:=F) [l ++ r] i [] =
  if (i <? len l)%Z then Ok ([targetOf i l], [[]])
  else if (i <? len l + len r)%Z then Ok ([targetOf (i - len l) r], [[]])
  else Ok ([], []).
Proof.
  intros Hi. rewrite extractRegressionData_nonneg by (auto; constructor).
  cbn [filter]. unfold reaches, len. rewrite length_app, Nat2Z.inj_add.
  destruct (Z.ltb_spec i (Z.of_nat (List.length l))) as [Hl|Hl].
  - destruct (Z.gtb_spec (Z.of_nat (List.length l) + Z.of_nat (List.length r)) i);
      [|lia].
    cbn [map predictorsOf flat_map]. unfold targetOf.
    rewrite app_nth1 by lia. reflexivity.
  - destruct (Z.ltb_spec i (Z.of_nat (List.length l) + Z.of_nat (List.length r)))
      as [Hr|Hr];
      destruct (Z.gtb_spec (Z.of_nat (List.length l) + Z.of_nat (List.length r)) i);
      try lia; [|reflexivity].
    cbn [map predictorsOf flat_map]. unfold targetOf.
    rewrite app_nth2 by lia.
    replace (Z.to_nat (i - Z.of_nat (List.length l)))
      with (Z.to_nat i - List.length l)%nat by lia.
    reflexivity.
Qed.

End ReadFacts.

Section FirstPredictor.

Context {F : Type} `{Float64 F}.

Local Open Scope go_scope.

Lemma insufficient_firstn (y : list F) (x : list (list F)) :
  insufficient y (map (firstn 1) x) = insufficient y x.
Proof.
  unfold insufficient, len. rewrite length_map.
  destruct x as [|x0 x']; [reflexivity|].
  destruct (Z.of_nat (List.length (x0 :: x')) =? 0)%Z; [reflexivity|].
  destruct (Z.of_nat (List.length y) =? 0)%Z; [reflexivity|].
  cbn [map]. change (index (?a :: ?b) 0) with (Ok a). cbn [bind].
  destruct x0 as [|a [|b x0']]; reflexivity.
Qed.

Lemma flattenLoop_firstn (x : list (list F)) :
  forall xFlat, flattenLoop (map (firstn 1) x) xFlat = flattenLoop x xFlat.
Proof.
  induction x as [|r rest IH]; intros xFlat; cbn [map flattenLoop];
    [reflexivity|].
  destruct r as [|r0 r']; [reflexivity|].
  cbn [firstn]. change (index (?a :: ?b) 0) with (Ok a). cbn [bind].
  apply IH.
Qed.

(** X23.  [runRegression] reads the first predictor of each sample and
    no other: cutting every sample down to its first predictor changes
    neither what is printed nor how the call ends.  Of the three predictor
    columns that [main] extracts, the second and the third have no effect
    on the fit. *)
Theorem runRegression_reads_the_first_predictor_only
    (y : list F) (x : list (list F)) :
  runRegression y (map (firstn 1) x) = runRegression y x.
Proof.
  unfold runRegression.
  rewrite insufficient_firstn, flattenLoop_firstn. reflexivity.
Qed.

End FirstPredictor.

(* ------------------------------------------------------------------ *)
(** ** The further properties on concrete inputs *)

Lemma filterAlgeria_is_a_filter_witness :
  filterAlgeria (F:=Q) rawCsv 0 = Ok [demoSkipped; demoNear; demoAway].
Proof.
  refine (@filterAlgeria_is_a_filter Q _ rawCsv 0 _). lia.
Defined.

Lemma filterAlgeria_negative_column_witness :
  filterAlgeria (F:=Q) rawCsv (-1) = Panic index_out_of_range.
Proof.
  refine (@filterAlgeria_negative_column Q _ rawCsv (-1) _). lia.
Defined.

Lemma filterAlgeria_idempotent_witness :
  filterAlgeria (F:=Q) [demoSkipped; demoNear; demoAway] 0
    = Ok [demoSkipped; demoNear; demoAway] /\
  Forall (fun r => isAlgeria (F:=Q) 0 r = Ok true)
    [demoSkipped; demoNear; demoAway] /\
  (3 <= List.length rawCsv)%nat.
Proof.
  refine (@filterAlgeria_idempotent Q _ rawCsv
           [demoSkipped; demoNear; demoAway] 0 _).
  reflexivity.
Defined.

Lemma extractRegressionData_closed_form_witness :
  extractRegressionData (F:=Q) demoJoined 10 [6; 7; 8]%Z =
  Ok ([100; 101]%Q, [[60; 70; 80]; [61; 71; 81]]%Q).
Proof.
  refine (@extractRegressionData_closed_form Q _ _ demoJoined 10 [6; 7; 8]%Z _ _).
  - lia.
  - repeat constructor; lia.
Defined.

Lemma extractRegressionData_shape_witness :
  List.length [100; 101]%Q = List.length [[60; 70; 80]; [61; 71; 81]]%Q /\
  (List.length [100; 101]%Q <= List.length demoJoined)%nat /\
  Forall (fun s => (List.length s <= List.length [6; 7; 8]%Z)%nat)
    [[60; 70; 80]; [61; 71; 81]]%Q.
Proof.
  refine (@extractRegressionData_shape Q _ _ demoJoined 10 [6; 7; 8]%Z
            [100; 101]%Q [[60; 70; 80]; [61; 71; 81]]%Q _).
  reflexivity.
Defined.

Lemma extractRegressionData_full_predictors_witness :
  Forall (fun s => List.length s = List.length [6; 7; 8]%Z)
    [[60; 70; 80]; [61; 71; 81]]%Q.
Proof.
  refine (@extractRegressionData_full_predictors Q _ _ demoJoined 10
           [6; 7; 8]%Z [100; 101]%Q [[60; 70; 80]; [61; 71; 81]]%Q _ _).
  - repeat constructor; lia.
  - reflexivity.
Defined.

Lemma runRegression_report_witness :
  exists alpha beta,
    LinearRegression (F:=Q) syntheticY (scaledPredictors syntheticSamples)
      = Ok (alpha, beta) /\
    runRegression syntheticY syntheticSamples =
    ([SampleTitle]
       ++ sampleLinesFrom 0
            (firstn 10 (combine syntheticY (scaledPredictors syntheticSamples)))
       ++ [Model alpha beta;
           RSquared (fconst 1
                     - snd (sumsOfSquares syntheticY
                              (scaledPredictors syntheticSamples) alpha beta)
                       / fst (sumsOfSquares syntheticY
                                (scaledPredictors syntheticSamples) alpha beta))%f64],
     Ok tt).
Proof.
  refine (@runRegression_report Q _ syntheticY syntheticSamples _).
  split; [discriminate|]. split; [reflexivity|].
  repeat constructor; discriminate.
Defined.


Lemma join_without_data_rows_witness :
  joinDatasets (F:=R) demoCsv [demoExcelHeader] 4 5 1 2
    = Ok ([], [demoNear; demoAway]) /\
  forall excelData,
    joinDatasets (F:=R) [demoCsvHeader] excelData 4 5 1 2 = Ok ([], []).
Proof.
  refine (@join_without_data_rows R _ _ _ 4 5 1 2 demoCsvHeader demoExcelHeader
            [demoNear; demoAway] _).
  repeat constructor; vm_compute; congruence.
Defined.

Lemma main_after_the_join_witness :
  main (F:=R) rawCsv rawExcel =
  ([CsvHeaders demoCsvHeader; ExcelHeaders demoExcelHeader;
    FilteredCsv 2; FilteredExcel 3; JoinedRecords 1],
   Fatal insufficient_data).
Proof.
  destruct (@main_after_the_join R _ _ _ demoCsvHeader demoExcelHeader
              (tl rawCsv) (tl rawExcel) [demoNear ++ demoFirst] [demoAway]
              raw_join) as [Hmain _].
  exact Hmain.
Defined.




Lemma normalize_nan_first_witness :
  normalize (F:=float) [nan; 1; 2]%float = Ok [nan; nan; nan]%float.
Proof.
  refine (@normalize_nan_first nan [1; 2]%float _). reflexivity.
Defined.

Lemma normalize_nan_later_witness :
  normalize (F:=float) [1; nan; 3]%float = Ok [0; nan; 1]%float.
Proof.
  refine (eq_trans (@normalize_nan_later 1%float [nan; 3]%float _) _).
  - reflexivity.
  - vm_compute. reflexivity.
Defined.

Lemma normalize_when_the_range_overflows_witness :
  exists out, normalize (F:=float) [-0x1p1023; 0x1p1023]%float = Ok out /\
    List.length out = 2%nat /\
    Forall (fun q => q = nan \/ (q =? 0)%float = true) out /\
    (forall i, nth_error [-0x1p1023; 0x1p1023]%float i = Some 0x1p1023%float ->
               nth_error out i = Some nan) /\
    (forall i, nth_error [-0x1p1023; 0x1p1023]%float i = Some (-0x1p1023)%float ->
               nth_error out i = Some 0%float).
Proof.
  refine (@normalize_when_the_range_overflows [-0x1p1023; 0x1p1023]%float _ _).
  - repeat constructor.
  - vm_compute. reflexivity.
Defined.

Lemma target_of_a_joined_row_witness :
  extractRegressionData (F:=Q) [demoAway ++ demoFar] 8 []
    = Ok ([1%Q], [[]]).
Proof.
  refine (@target_of_a_joined_row Q _ _ demoAway demoFar 8 _). lia.
Defined.
